(** * vtkLSDynaPartCollection: the part collection of the LS-Dyna reader

    A shallow embedding of IO/vtkLSDynaPartCollection.cxx.

    - [vtkIdType] is a signed integer type declared outside this file; ids
      and counts are integers of [Z], and the arithmetic of the source is
      the arithmetic of [Z] (signed overflow is undefined in C++ and is not
      given a meaning here).
    - A raw array ([Parts], a vector of blocks) is a list; a read at an
      index outside the allocation is the result [OutOfBounds].
    - The part objects ([vtkLSDynaPart]) and the file family
      ([LSDynaFamily]) are collaborators declared elsewhere: a part is the
      record of the attributes this file reads, and every call this file
      makes on a part is recorded as a [PartEvent], in program order. *)

From Stdlib Require Import ZArith List Bool Lia Sorted Permutation.
Import ListNotations.
Open Scope Z_scope.

(** ** Reads that may leave the allocation *)

Inductive result (A : Type) : Type :=
| Ok (a : A)
| OutOfBounds.
Arguments Ok {A} a.
Arguments OutOfBounds {A}.

Definition bind {A B : Type} (r : result A) (k : A -> result B) : result B :=
  match r with
  | Ok a => k a
  | OutOfBounds => OutOfBounds
  end.

Notation "x <- r ;; k" := (bind r (fun x => k))
  (at level 61, r at next level, right associativity).

(** [a[i]] on an array of [length a] elements. *)
Definition array_get {A : Type} (a : list A) (i : Z) : result A :=
  if i <? 0 then OutOfBounds
  else match nth_error a (Z.to_nat i) with
       | Some x => Ok x
       | None => OutOfBounds
       end.

(** [v.back()] of a vector, [None] on the empty vector (the source tests
    [size() != 0] first). *)
Fixpoint back {A : Type} (l : list A) : option A :=
  match l with
  | [] => None
  | [x] => Some x
  | _ :: r => back r
  end.

(** Overwriting the last element in place, through the pointer
    [&v.back()]. *)
Definition set_back {A : Type} (l : list A) (x : A) : list A :=
  removelast l ++ [x].

(** ** Data model *)

(** Modelled from the spec: the enumeration LSDynaMetaData::LSDYNA_TYPES is
    declared in LSDynaMetaData.h; the glossary lists the cell types (beam,
    shell, solid, particle, road-surface) and this file names PARTICLE,
    BEAM, SHELL, THICK_SHELL, SOLID and ROAD_SURFACE; NUM_CELL_TYPES is the
    number of constructors.  An array of NUM_CELL_TYPES entries is a
    function on this type. *)
Inductive LSDYNA_TYPES : Type :=
| PARTICLE | BEAM | SHELL | THICK_SHELL | SOLID | RIGID_BODY | ROAD_SURFACE.

Definition LSDYNA_TYPES_eqb (a b : LSDYNA_TYPES) : bool :=
  match a, b with
  | PARTICLE, PARTICLE | BEAM, BEAM | SHELL, SHELL
  | THICK_SHELL, THICK_SHELL | SOLID, SOLID
  | RIGID_BODY, RIGID_BODY | ROAD_SURFACE, ROAD_SURFACE => true
  | _, _ => false
  end.

Definition vtkIdType : Type := Z.

(** The attributes of a part that this file reads. *)
Record vtkLSDynaPart : Type := mkPart {
  GetPartId : vtkIdType;
  PartType : LSDYNA_TYPES;
  GetMinGlobalPointId : vtkIdType;
  GetMaxGlobalPointId : vtkIdType
}.

Definition part_eqb (p q : vtkLSDynaPart) : bool :=
  (GetPartId p =? GetPartId q) && LSDYNA_TYPES_eqb (PartType p) (PartType q)
  && (GetMinGlobalPointId p =? GetMinGlobalPointId q)
  && (GetMaxGlobalPointId p =? GetMaxGlobalPointId q).

(** The calls this file makes on a part.  A buffer pointer is the offset,
    in elements, from the start of the buffer the caller passed. *)
Inductive PartCall : Type :=
| AddCell (cellType : Z) (npts : vtkIdType) (conn : list vtkIdType)
| ReadCellProperties (loc : Z) (size : vtkIdType) (numProps : Z)
| EnableCellUserIds
| SetNextCellUserIds (id : vtkIdType)
| EnableDeadCells
| SetCellsDeadState (dead : Z) (size : vtkIdType)
| ReadPointBasedProperty (chunk : nat) (numTuples : vtkIdType)
                         (numComps : vtkIdType) (offset : vtkIdType).

Definition PartEvent : Type := (vtkLSDynaPart * PartCall)%type.

(** [if (part) part->call(...)]: nothing happens on a null part. *)
Definition call_on (p : option vtkLSDynaPart) (c : PartCall) : list PartEvent :=
  match p with
  | Some q => [(q, c)]
  | None => []
  end.

(** struct PartInfo: one run-length block. *)
Record PartInfo : Type := mkPartInfo {
  numCells : vtkIdType;
  startId : vtkIdType;
  cellStructureSize : vtkIdType;
  partId : vtkIdType;
  part : option vtkLSDynaPart
}.

(** The constructor [PartInfo(p, pId, start, npts)]. *)
Definition PartInfo_new (p : option vtkLSDynaPart) (pId start npts : vtkIdType)
  : PartInfo :=
  {| numCells := 1; startId := start; cellStructureSize := npts;
     partId := pId; part := p |}.

(** [++info->numCells; info->cellStructureSize += npts]. *)
Definition PartInfo_append (info : PartInfo) (npts : vtkIdType) : PartInfo :=
  {| numCells := numCells info + 1; startId := startId info;
     cellStructureSize := cellStructureSize info + npts;
     partId := partId info; part := part info |}.

(** struct PartInsertion: [pIt] is the position of the iterator in the
    vector of blocks of its type, [None] for the singular iterator of the
    default constructor. *)
Record PartInsertion : Type := mkPartInsertion {
  pIt : option nat;
  numCellsInserted : vtkIdType
}.

Definition PartInsertion_default : PartInsertion :=
  {| pIt := None; numCellsInserted := 0 |}.

(** [PartInsertion(&Info[i])]: the iterator is [begin()]. *)
Definition PartInsertion_begin : PartInsertion :=
  {| pIt := Some 0%nat; numCellsInserted := 0 |}.

(** class LSDynaPartStorage.  [CellIterator] with [CellIteratorEnd] is the
    range between the two const_iterators: the blocks still to be
    returned by [GetNextCellPart]. *)
Record LSDynaPartStorage : Type := mkStorage {
  NumParts : vtkIdType;
  Parts : list (option vtkLSDynaPart);
  Info : LSDYNA_TYPES -> list PartInfo;
  CellInsertionIterators : LSDYNA_TYPES -> PartInsertion;
  CellIterator : list PartInfo
}.

Definition update {A : Type} (f : LSDYNA_TYPES -> A) (t : LSDYNA_TYPES) (v : A)
  : LSDYNA_TYPES -> A :=
  fun t' => if LSDYNA_TYPES_eqb t t' then v else f t'.

Definition set_Info (st : LSDynaPartStorage) (t : LSDYNA_TYPES)
  (blocks : list PartInfo) : LSDynaPartStorage :=
  {| NumParts := NumParts st; Parts := Parts st;
     Info := update (Info st) t blocks;
     CellInsertionIterators := CellInsertionIterators st;
     CellIterator := CellIterator st |}.

Definition set_CellInsertionIterator (st : LSDynaPartStorage) (t : LSDYNA_TYPES)
  (c : PartInsertion) : LSDynaPartStorage :=
  {| NumParts := NumParts st; Parts := Parts st; Info := Info st;
     CellInsertionIterators := update (CellInsertionIterators st) t c;
     CellIterator := CellIterator st |}.

Definition set_CellIterator (st : LSDynaPartStorage) (range : list PartInfo)
  : LSDynaPartStorage :=
  {| NumParts := NumParts st; Parts := Parts st; Info := Info st;
     CellInsertionIterators := CellInsertionIterators st;
     CellIterator := range |}.

Definition set_Parts (st : LSDynaPartStorage) (ps : list (option vtkLSDynaPart))
  : LSDynaPartStorage :=
  {| NumParts := NumParts st; Parts := ps; Info := Info st;
     CellInsertionIterators := CellInsertionIterators st;
     CellIterator := CellIterator st |}.

(** ** LSDynaPartStorage *)

(** The constructor: [numMaterials] null slots, no block, default cursors. *)
Definition LSDynaPartStorage_new (numMaterials : vtkIdType) : LSDynaPartStorage :=
  {| NumParts := numMaterials;
     Parts := repeat None (Z.to_nat numMaterials);
     Info := fun _ => [];
     CellInsertionIterators := fun _ => PartInsertion_default;
     CellIterator := [] |}.

(** [Parts[index] = p], a write that must stay inside the array. *)
Fixpoint array_set {A : Type} (a : list A) (i : nat) (x : A) : result (list A) :=
  match a, i with
  | [], _ => OutOfBounds
  | _ :: r, O => Ok (x :: r)
  | y :: r, S j => r' <- array_set r j x ;; Ok (y :: r')
  end.

(** [ConstructPart]: [p] is the new part after [InitPart]. *)
Definition ConstructPart (st : LSDynaPartStorage) (index : vtkIdType)
  (p : vtkLSDynaPart) : result LSDynaPartStorage :=
  if index <? 0 then OutOfBounds
  else ps <- array_set (Parts st) (Z.to_nat index) (Some p) ;;
       Ok (set_Parts st ps).

Definition RegisterCell (st : LSDynaPartStorage) (partType : LSDYNA_TYPES)
  (matId npts : vtkIdType) : result LSDynaPartStorage :=
  match back (Info st partType) with
  | Some info =>
      if partId info =? matId then
        (* append to this item *)
        Ok (set_Info st partType
              (set_back (Info st partType) (PartInfo_append info npts)))
      else
        (* add a new item *)
        p <- array_get (Parts st) matId ;;
        Ok (set_Info st partType
              (Info st partType
               ++ [PartInfo_new p matId (startId info + numCells info) npts]))
  | None =>
      p <- array_get (Parts st) matId ;;
      Ok (set_Info st partType
            (Info st partType ++ [PartInfo_new p matId 0 npts]))
  end.

(** One registration per cell, in the order the caller makes them. *)
Record CellReg : Type := mkCellReg {
  regType : LSDYNA_TYPES;
  regMatId : vtkIdType;
  regNpts : vtkIdType
}.

Fixpoint RegisterCells (st : LSDynaPartStorage) (calls : list CellReg)
  : result LSDynaPartStorage :=
  match calls with
  | [] => Ok st
  | c :: rest =>
      st' <- RegisterCell st (regType c) (regMatId c) (regNpts c) ;;
      RegisterCells st' rest
  end.

(** [GetMemorySizesForPart]: the two out-parameters as a pair
    [(numCells, cellArrayLength)]. *)
Fixpoint GetMemorySizes_loop (blocks : list PartInfo) (matId : vtkIdType)
  (nCells cellArrayLength : vtkIdType) : vtkIdType * vtkIdType :=
  match blocks with
  | [] => (nCells, cellArrayLength)
  | info :: rest =>
      if partId info =? matId then
        GetMemorySizes_loop rest matId (nCells + numCells info)
                            (cellArrayLength + cellStructureSize info)
      else GetMemorySizes_loop rest matId nCells cellArrayLength
  end.

Definition GetMemorySizesForPart (st : LSDynaPartStorage)
  (partType : LSDYNA_TYPES) (matId : vtkIdType) : vtkIdType * vtkIdType :=
  GetMemorySizes_loop (Info st partType) matId 0 0.

(** [InitCellInsertion]: the cursor of every type that has blocks is set to
    the first block; the other cursors are left as they are. *)
Definition InitCellInsertion (st : LSDynaPartStorage) : LSDynaPartStorage :=
  {| NumParts := NumParts st; Parts := Parts st; Info := Info st;
     CellInsertionIterators :=
       (fun t => match Info st t with
                 | [] => CellInsertionIterators st t
                 | _ :: _ => PartInsertion_begin
                 end);
     CellIterator := CellIterator st |}.

(** [PartInsertion::inc], on the block [*pIt] the iterator points to. *)
Definition inc (info : PartInfo) (i : nat) (c : PartInsertion) : PartInsertion :=
  let n := numCellsInserted c + 1 in
  if numCells info =? n
  then {| pIt := Some (S i); numCellsInserted := 0 |}
  else {| pIt := Some i; numCellsInserted := n |}.

(** The arguments of one [InsertCell] call. *)
Record Cell : Type := mkCell {
  cellKind : Z;
  cellNpts : vtkIdType;
  cellConn : list vtkIdType
}.

(** [InsertCell]: dereferencing the cursor reads the vector of blocks at
    the cursor's position. *)
Definition InsertCell (st : LSDynaPartStorage) (partType : LSDYNA_TYPES)
  (c : Cell) : result (LSDynaPartStorage * list PartEvent) :=
  let cur := CellInsertionIterators st partType in
  match pIt cur with
  | None => OutOfBounds
  | Some i =>
      match nth_error (Info st partType) i with
      | None => OutOfBounds
      | Some info =>
          Ok (set_CellInsertionIterator st partType (inc info i cur),
              call_on (part info)
                      (AddCell (cellKind c) (cellNpts c) (cellConn c)))
      end
  end.

Fixpoint InsertCells (st : LSDynaPartStorage) (partType : LSDYNA_TYPES)
  (cells : list Cell) : result (LSDynaPartStorage * list PartEvent) :=
  match cells with
  | [] => Ok (st, [])
  | c :: rest =>
      r <- InsertCell st partType c ;;
      r' <- InsertCells (fst r) partType rest ;;
      Ok (fst r', snd r ++ snd r')
  end.

Definition is_part (p : option vtkLSDynaPart) : bool :=
  match p with
  | Some _ => true
  | None => false
  end.

Definition PartExists (st : LSDynaPartStorage) (index : vtkIdType) : result bool :=
  if (index <? 0) || (index >? NumParts st) then Ok false
  else p <- array_get (Parts st) index ;; Ok (is_part p).

(** [int] is the 32-bit signed integer; [vtkIdType] is wider (the file
    overloads [FillCellUserId] on [int*] and [vtkIdType*]).  [to_int z] is
    what an [int] holds after it is given the [vtkIdType] [z]: the value
    modulo 2^32 that lies between [INT_MIN] and [INT_MAX]. *)
Definition INT_MIN : Z := -2147483648.
Definition INT_MAX : Z := 2147483647.

Definition to_int (z : Z) : Z := (z - INT_MIN) mod 4294967296 + INT_MIN.

(** The [while] loop of [InitCellIteration], on the blocks from the
    iterator to the end.  [pos] is an [int]: [pos -= numCells] subtracts
    in [vtkIdType] and stores the difference back into the [int]. *)
Fixpoint InitCellIteration_loop (range : list PartInfo) (pos : Z)
  : list PartInfo :=
  match range with
  | [] => []
  | info :: rest =>
      if 0 <? pos then
        let pos' := to_int (pos - numCells info) in
        if 0 <? pos' then InitCellIteration_loop rest pos' else range
      else range
  end.

(** [InitCellIteration(partType, pos)], [pos] an [int]: a caller that
    passes a [vtkIdType] passes [to_int] of it. *)
Definition InitCellIteration (st : LSDynaPartStorage) (partType : LSDYNA_TYPES)
  (pos : Z) : LSDynaPartStorage :=
  set_CellIterator st (InitCellIteration_loop (Info st partType) pos).

Definition GetNextCellPart (st : LSDynaPartStorage)
  : option (vtkIdType * vtkIdType * option vtkLSDynaPart) * LSDynaPartStorage :=
  match CellIterator st with
  | [] => (None, st)
  | info :: rest =>
      (Some (startId info, numCells info, part info), set_CellIterator st rest)
  end.

(** ** vtkLSDynaPartCollection *)

(** Modelled from the spec: the file family LSDynaFamily is declared in
    LSDynaFamily.h ("skipWords(n), bufferChunk(kind, n) -> chunkSize,
    getBufferAs<T>(), getWordSize() -> {4,8}").  [FamWord] is the position
    in the file, in words; [FileWords] the decoded word at each position;
    [Chunking n] the sizes of the chunks in which a partial chunk buffering
    of [n] words is delivered; [PendingChunks] what is left of them;
    [FamBuffer] the element at each index of the buffer. *)
Record LSDynaFamily : Type := mkFam {
  FamWord : Z;
  GetWordSize : Z;
  FileWords : Z -> Z;
  Chunking : vtkIdType -> list vtkIdType;
  PendingChunks : list vtkIdType;
  FamBuffer : Z -> Z
}.

Definition set_FamWord (f : LSDynaFamily) (w : Z) : LSDynaFamily :=
  {| FamWord := w; GetWordSize := GetWordSize f; FileWords := FileWords f;
     Chunking := Chunking f; PendingChunks := PendingChunks f;
     FamBuffer := FamBuffer f |}.

Definition SkipWords (f : LSDynaFamily) (n : vtkIdType) : LSDynaFamily :=
  set_FamWord f (FamWord f + n).

Definition BufferChunk (f : LSDynaFamily) (n : vtkIdType) : LSDynaFamily :=
  {| FamWord := FamWord f + n; GetWordSize := GetWordSize f;
     FileWords := FileWords f; Chunking := Chunking f;
     PendingChunks := PendingChunks f;
     FamBuffer := fun i => FileWords f (FamWord f + i) |}.

Definition InitPartialChunkBuffering (f : LSDynaFamily) (numTuples : vtkIdType)
  : vtkIdType * LSDynaFamily :=
  let chunks := Chunking f numTuples in
  (Z.of_nat (length chunks),
   {| FamWord := FamWord f; GetWordSize := GetWordSize f;
      FileWords := FileWords f; Chunking := Chunking f;
      PendingChunks := chunks; FamBuffer := FamBuffer f |}).

Definition GetNextChunk (f : LSDynaFamily) : vtkIdType * LSDynaFamily :=
  match PendingChunks f with
  | [] => (0, f)
  | n :: rest =>
      (n, {| FamWord := FamWord f + n; GetWordSize := GetWordSize f;
             FileWords := FileWords f; Chunking := Chunking f;
             PendingChunks := rest;
             FamBuffer := fun i => FileWords f (FamWord f + i) |})
  end.

Definition ClearBuffer (f : LSDynaFamily) : LSDynaFamily :=
  {| FamWord := FamWord f; GetWordSize := GetWordSize f;
     FileWords := FileWords f; Chunking := Chunking f;
     PendingChunks := PendingChunks f; FamBuffer := fun _ => 0 |}.

Record LSDynaMetaData : Type := mkMetaData {
  NumberOfCells : LSDYNA_TYPES -> vtkIdType;
  Fam : LSDynaFamily
}.

Record vtkLSDynaPartCollection : Type := mkCollection {
  MetaData : LSDynaMetaData;
  Storage : LSDynaPartStorage;
  MinIds : LSDYNA_TYPES -> vtkIdType;
  MaxIds : LSDYNA_TYPES -> vtkIdType
}.

Definition set_Storage (c : vtkLSDynaPartCollection) (st : LSDynaPartStorage)
  : vtkLSDynaPartCollection :=
  {| MetaData := MetaData c; Storage := st;
     MinIds := MinIds c; MaxIds := MaxIds c |}.

Definition set_Fam (c : vtkLSDynaPartCollection) (f : LSDynaFamily)
  : vtkLSDynaPartCollection :=
  {| MetaData := {| NumberOfCells := NumberOfCells (MetaData c); Fam := f |};
     Storage := Storage c; MinIds := MinIds c; MaxIds := MaxIds c |}.

(** [SetCellDeadFlags]: the loop takes the blocks of the range one by one,
    as [GetNextCellPart] hands them out, until the range is empty.  The
    result is the calls made and the final value of [dead]. *)
Fixpoint SetCellDeadFlags_loop (range : list PartInfo) (dead : Z)
  : list PartEvent * Z :=
  match range with
  | [] => ([], dead)
  | info :: rest =>
      let ev := call_on (part info) EnableDeadCells
                ++ call_on (part info) (SetCellsDeadState dead (numCells info)) in
      let r := SetCellDeadFlags_loop rest (dead + numCells info) in
      (ev ++ fst r, snd r)
  end.

(** [death] is [None] for a null array, otherwise the array; [dead] starts
    at its element 0.  The result is the storage, the calls made on parts
    and the final value of the pointer [dead]. *)
Definition SetCellDeadFlags (c : vtkLSDynaPartCollection)
  (partType : LSDYNA_TYPES) (death : option (Z -> Z))
  : vtkLSDynaPartCollection * list PartEvent * Z :=
  match death with
  | None => (c, [], 0)
  | Some _ =>
      let st := InitCellIteration (Storage c) partType 0 in
      let r := SetCellDeadFlags_loop (CellIterator st) 0 in
      (set_Storage c (set_CellIterator st []), fst r, snd r)
  end.

(** The loop of [FillCellArray]: calls made, final value of [loc], and the
    range left when the loop ends ([break] leaves the blocks after the one
    just taken). *)
Fixpoint FillCellArray_loop (range : list PartInfo)
  (startId0 nCells : vtkIdType) (numPropertiesInCell : Z) (loc : Z)
  : list PartEvent * Z * list PartInfo :=
  match range with
  | [] => ([], loc, [])
  | info :: rest =>
      let start := Z.max (startId info) startId0 in
      let end_ := Z.min (startId info + numCells info) (startId0 + nCells) in
      if end_ <? start then ([], loc, rest)
      else
        let is_ := end_ - start in
        let ev := call_on (part info)
                          (ReadCellProperties loc is_ numPropertiesInCell) in
        let '(evs, loc', range') :=
          FillCellArray_loop rest startId0 nCells numPropertiesInCell
                             (loc + is_ * numPropertiesInCell) in
        (ev ++ evs, loc', range')
  end.

Definition FillCellArray (c : vtkLSDynaPartCollection) (type : LSDYNA_TYPES)
  (startId0 nCells : vtkIdType) (numPropertiesInCell : Z)
  : vtkLSDynaPartCollection * list PartEvent * Z :=
  let st := InitCellIteration (Storage c) type (to_int startId0) in
  let '(evs, loc, range') :=
    FillCellArray_loop (CellIterator st) startId0 nCells numPropertiesInCell 0 in
  (set_Storage c (set_CellIterator st range'), evs, loc).

Definition FillCellProperties := FillCellArray.

(** [for (i = 0; i < is; ++i) part->SetNextCellUserIds(loc[i])]. *)
Definition SetNextCellUserIds_loop (buffer : Z -> Z) (loc : Z) (is_ : vtkIdType)
  : list PartCall :=
  map (fun i => SetNextCellUserIds (buffer (loc + Z.of_nat i)))
      (seq 0 (Z.to_nat is_)).

Fixpoint FillCellUserIdArray_loop (buffer : Z -> Z) (range : list PartInfo)
  (startId0 nCells : vtkIdType) (loc : Z)
  : list PartEvent * Z * list PartInfo :=
  match range with
  | [] => ([], loc, [])
  | info :: rest =>
      let start := Z.max (startId info) startId0 in
      let end_ := Z.min (startId info + numCells info) (startId0 + nCells) in
      if end_ <? start then ([], loc, rest)
      else
        let is_ := end_ - start in
        let ev :=
          match part info with
          | Some p =>
              (p, EnableCellUserIds)
              :: map (fun k => (p, k)) (SetNextCellUserIds_loop buffer loc is_)
          | None => []
          end in
        let '(evs, loc', range') :=
          FillCellUserIdArray_loop buffer rest startId0 nCells (loc + is_) in
        (ev ++ evs, loc', range')
  end.

Definition FillCellUserIdArray (c : vtkLSDynaPartCollection)
  (buffer : Z -> Z) (type : LSDYNA_TYPES) (startId0 nCells : vtkIdType)
  : vtkLSDynaPartCollection * list PartEvent :=
  let st := InitCellIteration (Storage c) type (to_int startId0) in
  let '(evs, _, range') :=
    FillCellUserIdArray_loop buffer (CellIterator st) startId0 nCells 0 in
  (set_Storage c (set_CellIterator st range'), evs).

Definition FillCellUserId := FillCellUserIdArray.

Definition IsActivePart (c : vtkLSDynaPartCollection) (id : Z) : result bool :=
  PartExists (Storage c) id.

(** [GetPartReadInfo]: the three out-parameters in the order of the
    signature, [(numberOfCells, numCellsToSkipStart, numCellsToSkipEnd)]. *)
Definition GetPartReadInfo (c : vtkLSDynaPartCollection) (partType : LSDYNA_TYPES)
  : vtkIdType * vtkIdType * vtkIdType :=
  let size := MaxIds c partType - MinIds c partType in
  if size <=? 0 then
    (0, NumberOfCells (MetaData c) partType, 0)
  else
    let numberOfCells := size in
    let numCellsToSkipStart := MinIds c partType in
    (numberOfCells, numCellsToSkipStart,
     NumberOfCells (MetaData c) partType - (numberOfCells + numCellsToSkipStart)).

(** The chunk loop of [ReadCellUserIds], [numChunks] times. *)
Fixpoint ReadCellUserIds_loop (numChunks : nat) (c : vtkLSDynaPartCollection)
  (type : LSDYNA_TYPES) (startId0 : vtkIdType)
  : vtkLSDynaPartCollection * list PartEvent :=
  match numChunks with
  | O => (c, [])
  | S n =>
      let '(chunkSize, f) := GetNextChunk (Fam (MetaData c)) in
      let numCellsInChunk := chunkSize in
      let '(c1, ev) :=
        FillCellUserId (set_Fam c f) (FamBuffer f) type startId0 numCellsInChunk in
      let '(c2, evs) :=
        ReadCellUserIds_loop n c1 type (startId0 + numCellsInChunk) in
      (c2, ev ++ evs)
  end.

Definition ReadCellUserIds (c : vtkLSDynaPartCollection) (type : LSDYNA_TYPES)
  (status : Z) : vtkLSDynaPartCollection * list PartEvent :=
  let '(nCells, numSkipStart, numSkipEnd) := GetPartReadInfo c type in
  if status =? 0 then
    (* skip this part type *)
    (set_Fam c (SkipWords (Fam (MetaData c)) (numSkipStart + nCells + numSkipEnd)),
     [])
  else
    let c0 := set_Fam c (SkipWords (Fam (MetaData c)) numSkipStart) in
    let '(numChunks, f1) := InitPartialChunkBuffering (Fam (MetaData c0)) nCells in
    let c1 := set_Fam c0 f1 in
    let '(c2, evs) :=
      if (GetWordSize f1 =? 8) && (0 <? nCells) then
        ReadCellUserIds_loop (Z.to_nat numChunks) c1 type 0
      else if 0 <? nCells then
        ReadCellUserIds_loop (Z.to_nat numChunks) c1 type 0
      else (c1, []) in
    let c3 := set_Fam c2 (SkipWords (Fam (MetaData c2)) numSkipEnd) in
    (set_Fam c3 (ClearBuffer (Fam (MetaData c3))), evs).

(** ** The point-property streamer *)

Definition sortPartsOnGlobalIds (p1 p2 : vtkLSDynaPart) : bool :=
  if GetMinGlobalPointId p1 <? GetMinGlobalPointId p2 then true
  else if GetMaxGlobalPointId p1 <? GetMaxGlobalPointId p2 then true
  else false.

(** [std::list::sort(comp)] is the merge sort of the C++ standard library
    (libstdc++'s [list.tcc]): the elements are taken one at a time into
    [carry], which is merged up a row of counters of doubling size until an
    empty counter takes it; at the end the counters are merged from the
    lowest up.  [l1.merge(l2, comp)] puts the head of [l2] first exactly
    when [comp (head l2) (head l1)] holds. *)
Section ListSort.
Context {A : Type}.
Variable comp : A -> A -> bool.

Fixpoint list_merge (l1 : list A) : list A -> list A :=
  fix into_l1 (l2 : list A) : list A :=
    match l1, l2 with
    | [], _ => l2
    | _, [] => l1
    | a1 :: r1, a2 :: r2 =>
        if comp a2 a1 then a2 :: into_l1 r2
        else a1 :: list_merge r1 l2
    end.

(** The inner [for] loop over the counters, then [carry.swap( *counter)]. *)
Fixpoint sort_carry (carry : list A) (counters : list (list A))
  : list (list A) :=
  match counters with
  | [] => [carry]
  | [] :: rest => carry :: rest
  | counter :: rest => [] :: sort_carry (list_merge counter carry) rest
  end.

(** The [do ... while (!empty())] loop. *)
Fixpoint sort_fill (l : list A) (counters : list (list A)) : list (list A) :=
  match l with
  | [] => counters
  | x :: r => sort_fill r (sort_carry [x] counters)
  end.

(** The final loop: each counter takes the merge of the ones below it. *)
Fixpoint sort_collect (below : list A) (counters : list (list A)) : list A :=
  match counters with
  | [] => below
  | counter :: rest => sort_collect (list_merge counter below) rest
  end.

Definition list_sort (l : list A) : list A :=
  sort_collect [] (sort_fill l []).
End ListSort.

Definition numPointsToRead : vtkIdType := 1048576.

(** The first [while] loop of a chunk: [pop_front] while the front part
    ends before [offset]. *)
Fixpoint ReadPointProperty_evict (sortedParts : list vtkLSDynaPart)
  (offset : vtkIdType) : list vtkLSDynaPart :=
  match sortedParts with
  | [] => []
  | p :: rest =>
      if GetMaxGlobalPointId p <? offset
      then ReadPointProperty_evict rest offset
      else sortedParts
  end.

(** The second [while] loop of a chunk: from the front, the parts are given
    the buffer until one starts at or after the end of the chunk. *)
Fixpoint ReadPointProperty_deliver (range : list vtkLSDynaPart) (chunk : nat)
  (numComps offset : vtkIdType) : list PartEvent :=
  match range with
  | [] => []
  | p :: rest =>
      if GetMinGlobalPointId p <? offset + numPointsToRead
      then (p, ReadPointBasedProperty chunk numPointsToRead numComps offset)
           :: ReadPointProperty_deliver rest chunk numComps offset
      else []
  end.

(** The [for] loop over the full chunks: [loopTimes] iterations left, [j]
    done.  The result is the family, the working set and [offset] after the
    loop, and the calls made. *)
Fixpoint ReadPointProperty_loop (loopTimes : nat) (j : nat) (f : LSDynaFamily)
  (sortedParts : list vtkLSDynaPart) (numComps offset : vtkIdType)
  : LSDynaFamily * list vtkLSDynaPart * vtkIdType * list PartEvent :=
  match loopTimes with
  | O => (f, sortedParts, offset, [])
  | S n =>
      let f1 := BufferChunk f (numPointsToRead * numComps) in
      let working := ReadPointProperty_evict sortedParts offset in
      let ev := ReadPointProperty_deliver working j numComps offset in
      let '(f2, working', offset', evs) :=
        ReadPointProperty_loop n (S j) f1 working numComps
                               (offset + numPointsToRead) in
      (f2, working', offset', ev ++ evs)
  end.

(** [ReadPointProperty<T>]: [parts] is the array range
    [parts, parts + numParts).  [front()] of an empty list is outside the
    allocation. *)
Definition ReadPointProperty (c : vtkLSDynaPartCollection)
  (numTuples numComps : vtkIdType) (parts : list vtkLSDynaPart)
  : result (vtkLSDynaPartCollection * list PartEvent) :=
  let sortedParts := list_sort sortPartsOnGlobalIds parts in
  match sortedParts, back sortedParts with
  | front :: _, Some bk =>
      let minGlobalPoint := GetMinGlobalPointId front in
      let maxGlobalPoint := GetMaxGlobalPointId bk in
      let realNumberOfTuples := maxGlobalPoint - minGlobalPoint in
      let numPointsToSkipStart := minGlobalPoint in
      let numPointsToSkipEnd :=
        numTuples - (realNumberOfTuples + minGlobalPoint) in
      let loopTimes := Z.quot realNumberOfTuples numPointsToRead in
      let leftOver := Z.rem realNumberOfTuples numPointsToRead in
      let f0 := SkipWords (Fam (MetaData c)) (numPointsToSkipStart * numComps) in
      let '(f1, working, offset, evs) :=
        ReadPointProperty_loop (Z.to_nat loopTimes) 0 f0 sortedParts numComps
                               numPointsToSkipStart in
      let f2 := BufferChunk f1 (leftOver * numComps) in
      let evLast :=
        map (fun p => (p, ReadPointBasedProperty (Z.to_nat loopTimes) leftOver
                                                 numComps offset)) working in
      Ok (set_Fam c (SkipWords f2 (numPointsToSkipEnd * numComps)),
          evs ++ evLast)
  | _, _ => OutOfBounds
  end.

(** The chunks a pass reads, as [(index, offset, size)]: [loopTimes] full
    chunks from [first], then the chunk of the remainder. *)
Definition ReadPointProperty_chunks (first : vtkIdType) (loopTimes : nat)
  (leftOver : vtkIdType) : list (nat * vtkIdType * vtkIdType) :=
  map (fun j => (j, first + Z.of_nat j * numPointsToRead, numPointsToRead))
      (seq 0 loopTimes)
  ++ [(loopTimes, first + Z.of_nat loopTimes * numPointsToRead, leftOver)].

(** How many times part [p] was handed the buffer of chunk [chunk]. *)
Definition deliveries (p : vtkLSDynaPart) (chunk : nat) (evs : list PartEvent)
  : nat :=
  length (filter (fun e =>
                    part_eqb (fst e) p &&
                    match snd e with
                    | ReadPointBasedProperty k _ _ _ => Nat.eqb k chunk
                    | _ => false
                    end) evs).

(** The point range [[min, max]] of [p] meets the span
    [[offset, offset + size)]. *)
Definition intersects (p : vtkLSDynaPart) (offset size : vtkIdType) : bool :=
  (GetMinGlobalPointId p <? offset + size) && (offset <=? GetMaxGlobalPointId p).

(** ** Measures on a list of blocks *)

Definition Zsum (l : list Z) : Z := fold_right Z.add 0 l.

(** Total number of cells of a list of blocks. *)
Definition sumCells (blocks : list PartInfo) : Z := Zsum (map numCells blocks).

Definition blocksOf (matId : vtkIdType) (blocks : list PartInfo) : list PartInfo :=
  filter (fun b => partId b =? matId) blocks.

(** The blocks start at [g], each one where the one before ends, and none
    is empty. *)
Fixpoint contiguous (g : Z) (blocks : list PartInfo) : Prop :=
  match blocks with
  | [] => True
  | b :: rest =>
      startId b = g /\ 0 < numCells b /\ contiguous (g + numCells b) rest
  end.

(** The registrations made for type [t], and for the pair [(t, matId)]. *)
Definition callsOfType (t : LSDYNA_TYPES) (calls : list CellReg) : list CellReg :=
  filter (fun c => LSDYNA_TYPES_eqb (regType c) t) calls.

Definition callsOfPart (t : LSDYNA_TYPES) (matId : vtkIdType)
  (calls : list CellReg) : list CellReg :=
  filter (fun c => LSDYNA_TYPES_eqb (regType c) t && (regMatId c =? matId)) calls.

(** A storage in which no cell has been registered yet. *)
Definition unregistered (st : LSDynaPartStorage) : Prop :=
  forall t, Info st t = [].

(** What one registration does to the blocks of its type. *)
Inductive registered (st : LSDynaPartStorage) (t : LSDYNA_TYPES)
  (m npts : vtkIdType) (blocks' : list PartInfo) : Prop :=
| reg_extend pre last :
    Info st t = pre ++ [last] -> partId last = m ->
    blocks' = pre ++ [PartInfo_append last npts] ->
    registered st t m npts blocks'
| reg_push pre last p :
    Info st t = pre ++ [last] -> partId last <> m ->
    array_get (Parts st) m = Ok p ->
    blocks' = pre ++ [last; PartInfo_new p m (startId last + numCells last) npts] ->
    registered st t m npts blocks'
| reg_first p :
    Info st t = [] -> array_get (Parts st) m = Ok p ->
    blocks' = [PartInfo_new p m 0 npts] ->
    registered st t m npts blocks'.


(** ** The cells of a list of blocks, one by one *)

(** The owner of every cell, in global cell order: block after block, each
    block as many times as it has cells. *)
Definition owners (blocks : list PartInfo) : list (option vtkLSDynaPart) :=
  flat_map (fun b => repeat (part b) (Z.to_nat (numCells b))) blocks.

(** The [AddCell] calls that reach the parts when the cells [cells] go, in
    order, to the owners [os]: none for a null owner. *)
Definition AddCell_calls (os : list (option vtkLSDynaPart)) (cells : list Cell)
  : list PartEvent :=
  flat_map (fun oc => call_on (fst oc)
                        (AddCell (cellKind (snd oc)) (cellNpts (snd oc))
                                 (cellConn (snd oc))))
           (combine os cells).

(** The cursor [cur] stands on logical cell [k] of [blocks]: it is inside
    the vector or at its end, the cells of the blocks before it and the
    cells already taken from its block add up to [k], and its block, if
    any, is not exhausted. *)
Definition cursorAt (blocks : list PartInfo) (cur : PartInsertion) (k : Z) : Prop :=
  exists i,
    pIt cur = Some i /\ (i <= length blocks)%nat /\
    sumCells (firstn i blocks) + numCellsInserted cur = k /\
    0 <= numCellsInserted cur /\
    (forall b, nth_error blocks i = Some b -> numCellsInserted cur < numCells b) /\
    (i = length blocks -> numCellsInserted cur = 0).

(** ** Windows of cells *)

(** The number of cells the window [[s, s + n)] shares with the block
    [[startId b, startId b + numCells b)]. *)
Definition overlap (b : PartInfo) (s n : Z) : Z :=
  Z.max 0 (Z.min (startId b + numCells b) (s + n) - Z.max (startId b) s).

(** The number of cells of the window [[s, s + n)] below the global cell
    [g], that is in [[0, g)]. *)
Definition windowBefore (g s n : Z) : Z :=
  Z.max 0 (Z.min g (s + n) - Z.max 0 s).

Definition sumOverlap (blocks : list PartInfo) (s n : Z) : Z :=
  Zsum (map (fun b => overlap b s n) blocks).

(** A position that an [int] holds as it is, and blocks whose cell counts
    are such: on these the [int] of [InitCellIteration] never wraps. *)
Definition fitsInt (z : Z) : Prop := INT_MIN <= z <= INT_MAX.

Definition intBlocks (blocks : list PartInfo) : Prop :=
  Forall (fun b => numCells b <= INT_MAX) blocks.



(** ** Orders on point ranges *)

(** [p] starts no later and ends no later than [q]. *)
Definition rangeLe (p q : vtkLSDynaPart) : Prop :=
  GetMinGlobalPointId p <= GetMinGlobalPointId q /\
  GetMaxGlobalPointId p <= GetMaxGlobalPointId q.

(** The range of [q] lies strictly inside the range of [p]. *)
Definition nested (p q : vtkLSDynaPart) : Prop :=
  GetMinGlobalPointId p < GetMinGlobalPointId q /\
  GetMaxGlobalPointId q < GetMaxGlobalPointId p.

Definition nestFree (parts : list vtkLSDynaPart) : Prop :=
  forall p q, In p parts -> In q parts -> ~ nested p q.

(** What every counter of the list sort holds when the comparator orders
    the input: a sorted run of elements of the input. *)
Definition run {A : Type} (le : A -> A -> Prop) (U : A -> Prop) (l : list A)
  : Prop :=
  StronglySorted le l /\ Forall U l.

(** Only chunks of index from [lo] to below [hi] occur in [evs]. *)
Definition chunksWithin (lo hi : nat) (evs : list PartEvent) : Prop :=
  Forall (fun e => match snd e with
                   | ReadPointBasedProperty c _ _ _ => (lo <= c < hi)%nat
                   | _ => True
                   end) evs.

(** ** A small collection used to exercise the statements

    Three materials: shells in slots 0 and 2, and a solid material in
    slot 1 that the user disabled (a null slot).  Ten shells of material 0
    are registered, then five solids of material 1, then twenty shells of
    material 2. *)
Definition shell0 : vtkLSDynaPart := mkPart 0 SHELL 0 99.
Definition shell2 : vtkLSDynaPart := mkPart 2 SHELL 50 149.

Definition demoStorage : LSDynaPartStorage :=
  match (st <- ConstructPart (LSDynaPartStorage_new 3) 0 shell0 ;;
         ConstructPart st 2 shell2) with
  | Ok st => st
  | OutOfBounds => LSDynaPartStorage_new 3
  end.

Definition demoCalls : list CellReg :=
  repeat (mkCellReg SHELL 0 4) 10
  ++ repeat (mkCellReg SOLID 1 8) 5
  ++ repeat (mkCellReg SHELL 2 4) 20.

(** The storage after the registrations, and thirty quads to insert. *)
Definition demoRegistered : LSDynaPartStorage :=
  match RegisterCells demoStorage demoCalls with
  | Ok st => st
  | OutOfBounds => demoStorage
  end.

Definition demoCells : list Cell := repeat (mkCell 9 4 [0; 1; 2; 3]) 30.

(** The collection around it: thirty shells and five solids in the file,
    all of them requested; a family of 4-byte words that delivers a
    request in chunks of at most sixteen words. *)
Fixpoint chunksOf (fuel : nat) (size n : Z) : list Z :=
  match fuel with
  | O => []
  | S fuel' =>
      if n <=? 0 then []
      else if n <=? size then [n]
      else size :: chunksOf fuel' size (n - size)
  end.

Definition demoFam : LSDynaFamily :=
  {| FamWord := 0; GetWordSize := 4; FileWords := fun w => 1000 + w;
     Chunking := fun n => chunksOf (Z.to_nat n) 16 n;
     PendingChunks := []; FamBuffer := fun _ => 0 |}.

Definition demoNumberOfCells (t : LSDYNA_TYPES) : vtkIdType :=
  match t with
  | SHELL => 30
  | SOLID => 5
  | _ => 0
  end.

Definition demoCollection : vtkLSDynaPartCollection :=
  {| MetaData := {| NumberOfCells := demoNumberOfCells; Fam := demoFam |};
     Storage := demoRegistered;
     MinIds := fun _ => 0;
     MaxIds := demoNumberOfCells |}.

(** A file of 2^31 shells of the first part followed by twenty shells of
    the third, and the blocks their registration leaves. *)
Definition bigCalls : list CellReg :=
  repeat (mkCellReg SHELL 0 4) (Z.to_nat 2147483648)
  ++ repeat (mkCellReg SHELL 2 4) 20.

Definition bigBlocks : list PartInfo :=
  [ {| numCells := 2147483648; startId := 0;
       cellStructureSize := 2147483648 * 4; partId := 0;
       part := Some shell0 |};
    {| numCells := 20; startId := 2147483648;
       cellStructureSize := 20 * 4; partId := 2;
       part := Some shell2 |} ].

(** Three solid parts whose point ranges nest: [partB]'s range lies
    strictly inside [partA]'s, and [partLow] ends before [partB] starts. *)
Definition partLow : vtkLSDynaPart := mkPart 0 SOLID 0 10.
Definition partA : vtkLSDynaPart := mkPart 1 SOLID 1 10000000.
Definition partB : vtkLSDynaPart := mkPart 2 SOLID 5000000 6000000.

(** ** Further measures on the index *)

(** The material of every cell, in global cell order: the run-length
    blocks written out. *)
Definition materials (blocks : list PartInfo) : list vtkIdType :=
  flat_map (fun b => repeat (partId b) (Z.to_nat (numCells b))) blocks.

(** No two neighbouring blocks belong to the same material. *)
Fixpoint coalesced (blocks : list PartInfo) : Prop :=
  match blocks with
  | b :: (b' :: _) as rest => partId b <> partId b' /\ coalesced rest
  | _ => True
  end.

(** The slot of material [m] in the directory, null when [m] is outside
    it. *)
Definition slotOf (ps : list (option vtkLSDynaPart)) (m : vtkIdType)
  : option vtkLSDynaPart :=
  match array_get ps m with
  | Ok p => p
  | OutOfBounds => None
  end.

(** A storage as the constructor leaves it, whatever parts were
    constructed since: no block and singular cursors. *)
Definition pristine (st : LSDynaPartStorage) : Prop :=
  unregistered st /\
  forall t, CellInsertionIterators st t = PartInsertion_default.


(** What a block list keeps through one registration: no empty block,
    every block naming the part of its material's slot, no two neighbours
    of one material. *)
Definition wellKept (ps : list (option vtkLSDynaPart)) (blocks : list PartInfo)
  : Prop :=
  Forall (fun b => 0 < numCells b /\ array_get ps (partId b) = Ok (part b))
         blocks /\
  coalesced blocks.


(** ** The directory walked slot by slot *)

From Stdlib Require String.

(** The calls this file makes on a part outside the streaming passes. *)
Inductive PartSetupCall : Type :=
| AddCellProperty (name : String.string) (offset numComps : Z)
| AddPointProperty (name : String.string) (numComps : vtkIdType)
                   (isProperty isGeometryPoints : bool)
| AllocateCellMemory (nCells cellLength : vtkIdType)
| BuildToplogy
| Delete.

Definition PartSetupEvent : Type := (vtkLSDynaPart * PartSetupCall)%type.

(** The members [PartIterator] and [PartIteratorLoc] of
    LSDynaPartStorage, which only the walk by part type uses. *)
Record PartIteration : Type := mkPartIteration {
  PartIterator : option vtkLSDynaPart;
  PartIteratorLoc : vtkIdType
}.

(** The search both [InitPartIteration] and [GetNextPart] make:
    [for (i = first; i < NumParts; ++i)], [n] slots to go, stopping at the
    first part of type [partType]; none found leaves a null iterator at
    -1. *)
Fixpoint PartIteration_find (ps : list (option vtkLSDynaPart))
  (partType : LSDYNA_TYPES) (i : vtkIdType) (n : nat) : result PartIteration :=
  match n with
  | O => Ok {| PartIterator := None; PartIteratorLoc := -1 |}
  | S n' =>
      slot <- array_get ps i ;;
      match slot with
      | Some p =>
          if LSDYNA_TYPES_eqb (PartType p) partType
          then Ok {| PartIterator := Some p; PartIteratorLoc := i |}
          else PartIteration_find ps partType (i + 1) n'
      | None => PartIteration_find ps partType (i + 1) n'
      end
  end.

Definition InitPartIteration (st : LSDynaPartStorage) (partType : LSDYNA_TYPES)
  : result PartIteration :=
  PartIteration_find (Parts st) partType 0 (Z.to_nat (NumParts st)).

(** [GetNextPart]: [None] for the return value false, otherwise the part
    handed out and the iterator moved to the next part of its type. *)
Definition GetNextPart (st : LSDynaPartStorage) (it : PartIteration)
  : result (option (vtkLSDynaPart * PartIteration)) :=
  match PartIterator it with
  | None => Ok None
  | Some p =>
      let pos := PartIteratorLoc it + 1 in
      it' <- PartIteration_find (Parts st) (PartType p) pos
                                (Z.to_nat (NumParts st - pos)) ;;
      Ok (Some (p, it'))
  end.

(** [while (GetNextPart(part))]: the parts handed out, in order; [None]
    when [fuel] iterations did not reach the end of the walk. *)
Fixpoint GetNextPart_while (fuel : nat) (st : LSDynaPartStorage)
  (it : PartIteration) : result (option (list vtkLSDynaPart)) :=
  match fuel with
  | O => Ok None
  | S fuel' =>
      r <- GetNextPart st it ;;
      match r with
      | None => Ok (Some [])
      | Some (p, it') =>
          rest <- GetNextPart_while fuel' st it' ;;
          Ok (option_map (cons p) rest)
      end
  end.

(** The walk [InitPartIteration(partType); while (GetNextPart(part))]:
    one iteration per slot, and one to see the end, is all it can take. *)
Definition partWalk (st : LSDynaPartStorage) (partType : LSDYNA_TYPES)
  : result (option (list vtkLSDynaPart)) :=
  it <- InitPartIteration st partType ;;
  GetNextPart_while (S (length (Parts st))) st it.

(** The parts of type [partType] in the slots [ps], in slot order. *)
Definition partsOfType (partType : LSDYNA_TYPES)
  (ps : list (option vtkLSDynaPart)) : list vtkLSDynaPart :=
  flat_map (fun slot =>
              match slot with
              | Some p =>
                  if LSDYNA_TYPES_eqb (PartType p) partType then [p] else []
              | None => []
              end) ps.

(** [AddProperty]: [AddCellProperty] on every part the walk hands out. *)
Definition AddProperty (c : vtkLSDynaPartCollection) (type : LSDYNA_TYPES)
  (name : String.string) (offset numComps : Z)
  : result (option (list PartSetupEvent)) :=
  walked <- partWalk (Storage c) type ;;
  Ok (option_map (map (fun p => (p, AddCellProperty name offset numComps)))
                 walked).

(** [AllocateParts]: [for (i = first; i < NumParts; ++i)], [n] slots to
    go. *)
Fixpoint AllocateParts_loop (st : LSDynaPartStorage) (i : vtkIdType) (n : nat)
  : result (list PartSetupEvent) :=
  match n with
  | O => Ok []
  | S n' =>
      slot <- array_get (Parts st) i ;;
      rest <- AllocateParts_loop st (i + 1) n' ;;
      match slot with
      | Some p =>
          let '(nCells, cellLength) :=
            GetMemorySizesForPart st (PartType p) (GetPartId p) in
          Ok ((p, AllocateCellMemory nCells cellLength) :: rest)
      | None => Ok rest
      end
  end.

Definition AllocateParts (st : LSDynaPartStorage) : result (list PartSetupEvent) :=
  AllocateParts_loop st 0 (Z.to_nat (NumParts st)).

(** [FinalizeTopology], on the slots [ps]: [HasCells] is the answer of
    each part to [HasCells()].  A part with cells builds its topology; a
    part without is deleted and its slot set to null. *)
Fixpoint FinalizeTopology_loop (HasCells : vtkLSDynaPart -> bool)
  (ps : list (option vtkLSDynaPart)) (i : vtkIdType) (n : nat)
  : result (list (option vtkLSDynaPart) * list PartSetupEvent) :=
  match n with
  | O => Ok (ps, [])
  | S n' =>
      slot <- array_get ps i ;;
      match slot with
      | Some p =>
          if HasCells p then
            r <- FinalizeTopology_loop HasCells ps (i + 1) n' ;;
            Ok (fst r, (p, BuildToplogy) :: snd r)
          else
            ps' <- array_set ps (Z.to_nat i) None ;;
            r <- FinalizeTopology_loop HasCells ps' (i + 1) n' ;;
            Ok (fst r, (p, Delete) :: snd r)
      | None => FinalizeTopology_loop HasCells ps (i + 1) n'
      end
  end.

Definition FinalizeTopology (HasCells : vtkLSDynaPart -> bool)
  (st : LSDynaPartStorage) : result (LSDynaPartStorage * list PartSetupEvent) :=
  r <- FinalizeTopology_loop HasCells (Parts st) 0 (Z.to_nat (NumParts st)) ;;
  Ok (set_Parts st (fst r), snd r).

(** What [FinalizeTopology] leaves in a slot. *)
Definition pruned (HasCells : vtkLSDynaPart -> bool)
  (slot : option vtkLSDynaPart) : option vtkLSDynaPart :=
  match slot with
  | Some p => if HasCells p then Some p else None
  | None => None
  end.

(** ** The point pass from its public entry *)

Definition validCellTypes : list LSDYNA_TYPES :=
  [PARTICLE; BEAM; SHELL; THICK_SHELL; SOLID].

(** The loops that fill [validParts]: one walk per type. *)
Fixpoint collectParts (st : LSDynaPartStorage) (types : list LSDYNA_TYPES)
  : result (option (list vtkLSDynaPart)) :=
  match types with
  | [] => Ok (Some [])
  | t :: rest =>
      walked <- partWalk st t ;;
      others <- collectParts st rest ;;
      Ok (match walked, others with
          | Some l1, Some l2 => Some (l1 ++ l2)
          | _, _ => None
          end)
  end.

(** The overload of [ReadPointProperty] that takes the name of the
    array.  [validParts] has [NumParts] entries, and a part written past
    them is outside the allocation.  The result holds the calls of
    [AddPointProperty] and the calls of the pass. *)
Definition ReadPointProperty_named (c : vtkLSDynaPartCollection)
  (numTuples numComps : vtkIdType) (name : String.string)
  (isProperty isGeometryPoints isRoadPoints : bool)
  : result (option (vtkLSDynaPartCollection * list PartSetupEvent
                    * list PartEvent)) :=
  if negb isProperty && negb isGeometryPoints && negb isRoadPoints then
    (* don't read arrays the user didn't request, just skip them *)
    Ok (Some (set_Fam c (SkipWords (Fam (MetaData c)) (numTuples * numComps)),
              [], []))
  else
    collected <-
      collectParts (Storage c)
                   (if negb isRoadPoints then validCellTypes
                    else [ROAD_SURFACE]) ;;
    match collected with
    | None => Ok None
    | Some validParts =>
        if Z.of_nat (length validParts) >? NumParts (Storage c)
        then OutOfBounds
        else
          let added :=
            map (fun p => (p, AddPointProperty name numComps isProperty
                                               isGeometryPoints))
                validParts in
          r <- (if GetWordSize (Fam (MetaData c)) =? 8
                then ReadPointProperty c numTuples numComps validParts
                else ReadPointProperty c numTuples numComps validParts) ;;
          Ok (Some (fst r, added, snd r))
    end.

(** The call [AllocateParts] makes for a slot, from the registrations
    [calls] that built the index. *)
Definition allocationOf (calls : list CellReg) (slot : option vtkLSDynaPart)
  : list PartSetupEvent :=
  match slot with
  | Some p =>
      [(p, AllocateCellMemory
             (Z.of_nat (length (callsOfPart (PartType p) (GetPartId p) calls)))
             (Zsum (map regNpts (callsOfPart (PartType p) (GetPartId p) calls))))]
  | None => []
  end.

(** The call [FinalizeTopology] makes for a slot. *)
Definition finalCallOf (HasCells : vtkLSDynaPart -> bool)
  (slot : option vtkLSDynaPart) : list PartSetupEvent :=
  match slot with
  | Some p => [(p, if HasCells p then BuildToplogy else Delete)]
  | None => []
  end.

(** The parts of the types [types] in the slots [ps]: type after type,
    each in slot order. *)
Definition partsOfTypes (types : list LSDYNA_TYPES)
  (ps : list (option vtkLSDynaPart)) : list vtkLSDynaPart :=
  flat_map (fun t => partsOfType t ps) types.

(** ** Cell by cell *)

(** The part that owns global cell [g] of a list of blocks, null when the
    owning block has no part or [g] is no cell of the blocks. *)
Definition ownerAt (blocks : list PartInfo) (g : Z) : option vtkLSDynaPart :=
  if g <? 0 then None
  else match nth_error (owners blocks) (Z.to_nat g) with
       | Some o => o
       | None => None
       end.

(** The calls of a list that hand a user id to a part. *)
Definition idCallsOnly (evs : list PartEvent) : list PartEvent :=
  filter (fun e => match snd e with
                   | SetNextCellUserIds _ => true
                   | _ => false
                   end) evs.

(** The user id read at [word k] reaching the owner of cell [k], for the
    [n] cells from [first] on. *)
Definition idsToOwners (blocks : list PartInfo) (word : Z -> Z)
  (first : Z) (n : nat) : list PartEvent :=
  flat_map (fun k => call_on (ownerAt blocks (Z.of_nat k))
                             (SetNextCellUserIds (word (Z.of_nat k))))
           (seq (Z.to_nat first) n).

(** ** Building the collection *)

(** The members of LSDynaMetaData that [BuildPartInfo] reads: one entry
    per part in each vector. *)
Record LSDynaPartTables : Type := mkPartTables {
  PartIds : list Z;
  PartStatus : list Z;
  PartTypes : list LSDYNA_TYPES;
  PartNames : list String.string;
  PartMaterials : list Z;
  NumberOfNodes : Z
}.

Section BuildingTheCollection.

(** Modelled from the spec: vtkLSDynaPart::InitPart is declared in
    vtkLSDynaPart.h ("initPart(...)" of the part object);
    [InitPart type name index materialId numGlobalNodes wordSize] is the
    part a fresh object becomes. *)
Variable InitPart :
  LSDYNA_TYPES -> String.string -> vtkIdType -> Z -> Z -> Z -> vtkLSDynaPart.

(** The loop of [BuildPartInfo]: the five iterators advance together, [k]
    entries done and [n] to go; the status is read for every entry, the
    other vectors only for an entry that is switched on. *)
Fixpoint BuildPartInfo_loop (tables : LSDynaPartTables) (wordSize : Z)
  (st : LSDynaPartStorage) (k : Z) (n : nat) : result LSDynaPartStorage :=
  match n with
  | O => Ok st
  | S n' =>
      partM <- array_get (PartMaterials tables) k ;;
      status <- array_get (PartStatus tables) k ;;
      if status =? 0 then BuildPartInfo_loop tables wordSize st (k + 1) n'
      else
        type <- array_get (PartTypes tables) k ;;
        name <- array_get (PartNames tables) k ;;
        materialId <- array_get (PartIds tables) k ;;
        (* make the index contain a part *)
        st' <- ConstructPart st (partM - 1)
                 (InitPart type name (partM - 1) materialId
                           (NumberOfNodes tables) wordSize) ;;
        BuildPartInfo_loop tables wordSize st' (k + 1) n'
  end.

Definition BuildPartInfo (tables : LSDynaPartTables) (wordSize : Z)
  (st : LSDynaPartStorage) : result LSDynaPartStorage :=
  BuildPartInfo_loop tables wordSize st 0 (length (PartMaterials tables)).

(** [InitCollection(metaData, mins, maxs)], [metaData] not null (it is
    dereferenced before it is tested); [mins] and [maxs] are [None] for a
    null pointer. *)
Definition InitCollection (metaData : LSDynaMetaData)
  (tables : LSDynaPartTables) (mins maxs : option (LSDYNA_TYPES -> vtkIdType))
  : result vtkLSDynaPartCollection :=
  let storage := LSDynaPartStorage_new (Z.of_nat (length (PartIds tables))) in
  storage' <- BuildPartInfo tables (GetWordSize (Fam metaData)) storage ;;
  Ok {| MetaData := metaData;
        Storage := storage';
        MinIds := (fun i => match mins with
                            | Some a => a i
                            | None => 0
                            end);
        MaxIds := (fun i => match maxs with
                            | Some a => a i
                            | None => NumberOfCells metaData i
                            end) |}.

End BuildingTheCollection.

(** Entry [k] of the tables is switched on and is of material [m]. *)
Definition activeEntry (tables : LSDynaPartTables) (k : nat) (m : Z) : Prop :=
  nth_error (PartMaterials tables) k = Some m /\
  exists s, nth_error (PartStatus tables) k = Some s /\ s <> 0.

(** The vectors of the tables have one entry per part, and every material
    that is switched on has a slot: materials count from 1. *)
Definition tablesOk (tables : LSDynaPartTables) : Prop :=
  length (PartStatus tables) = length (PartIds tables) /\
  length (PartTypes tables) = length (PartIds tables) /\
  length (PartNames tables) = length (PartIds tables) /\
  length (PartMaterials tables) = length (PartIds tables) /\
  forall k m, activeEntry tables k m ->
              1 <= m <= Z.of_nat (length (PartIds tables)).

(** A small file of three parts, the second one switched off; the part an
    entry stands for in the examples carries the slot as its id and every
    point of the file. *)
Definition demoInitPart (type : LSDYNA_TYPES) (name : String.string)
  (index : vtkIdType) (materialId numGlobalNodes wordSize : Z)
  : vtkLSDynaPart :=
  mkPart index type 0 (numGlobalNodes - 1).

Definition demoTables : LSDynaPartTables :=
  {| PartIds := [10; 20; 30];
     PartStatus := [1; 0; 1];
     PartTypes := [SHELL; SOLID; BEAM];
     PartNames := [String.EmptyString; String.EmptyString; String.EmptyString];
     PartMaterials := [1; 2; 3];
     NumberOfNodes := 8 |}.

(** The same file with a third material of 4. *)
Definition demoTablesOutside : LSDynaPartTables :=
  {| PartIds := [10; 20; 30];
     PartStatus := [1; 0; 1];
     PartTypes := [SHELL; SOLID; BEAM];
     PartNames := [String.EmptyString; String.EmptyString; String.EmptyString];
     PartMaterials := [1; 2; 4];
     NumberOfNodes := 8 |}.
(** * Properties *)

Section Basics.

Lemma LSDYNA_TYPES_eqb_eq (a b : LSDYNA_TYPES) :
  LSDYNA_TYPES_eqb a b = true <-> a = b.
Proof. destruct a, b; simpl; split; intro H; congruence. Qed.

Lemma LSDYNA_TYPES_eqb_refl (a : LSDYNA_TYPES) : LSDYNA_TYPES_eqb a a = true.
Proof. now apply LSDYNA_TYPES_eqb_eq. Qed.

Lemma LSDYNA_TYPES_eqb_neq (a b : LSDYNA_TYPES) :
  a <> b -> LSDYNA_TYPES_eqb a b = false.
Proof.
  intro H. destruct (LSDYNA_TYPES_eqb a b) eqn:E; [|reflexivity].
  apply LSDYNA_TYPES_eqb_eq in E. contradiction.
Qed.

Lemma update_same {A : Type} (f : LSDYNA_TYPES -> A) t v : update f t v t = v.
Proof. unfold update. now rewrite LSDYNA_TYPES_eqb_refl. Qed.

Lemma update_other {A : Type} (f : LSDYNA_TYPES -> A) t t' v :
  t <> t' -> update f t v t' = f t'.
Proof. intro H. unfold update. now rewrite LSDYNA_TYPES_eqb_neq. Qed.

Lemma back_snoc {A : Type} (l : list A) (x : A) : back (l ++ [x]) = Some x.
Proof.
  induction l as [|a l IH]; [reflexivity|].
  simpl. destruct (l ++ [x]) eqn:E; [now destruct l|exact IH].
Qed.

Lemma back_Some {A : Type} (l : list A) (x : A) :
  back l = Some x -> l = removelast l ++ [x].
Proof.
  induction l as [|a l IH]; [discriminate|].
  destruct l as [|b l].
  - simpl. now intros [= ->].
  - intro H. change (back (b :: l) = Some x) in H.
    change (a :: b :: l = a :: (removelast (b :: l) ++ [x])).
    f_equal. now apply IH.
Qed.

Lemma back_None {A : Type} (l : list A) : back l = None -> l = [].
Proof.
  induction l as [|a l IH]; [reflexivity|].
  destruct l as [|b l]; [discriminate|].
  intro H. change (back (b :: l) = None) in H. apply IH in H. discriminate.
Qed.

Lemma set_back_snoc {A : Type} (l : list A) (x y : A) :
  set_back (l ++ [x]) y = l ++ [y].
Proof. unfold set_back. now rewrite removelast_last. Qed.

Lemma Zsum_app (l1 l2 : list Z) : Zsum (l1 ++ l2) = Zsum l1 + Zsum l2.
Proof. unfold Zsum. induction l1 as [|a l IH]; simpl; lia. Qed.

Lemma sumCells_app (l1 l2 : list PartInfo) :
  sumCells (l1 ++ l2) = sumCells l1 + sumCells l2.
Proof. unfold sumCells. now rewrite map_app, Zsum_app. Qed.

Lemma sumCells_cons (b : PartInfo) (l : list PartInfo) :
  sumCells (b :: l) = numCells b + sumCells l.
Proof. reflexivity. Qed.

Lemma contiguous_app (l1 l2 : list PartInfo) : forall g,
  contiguous g (l1 ++ l2) <->
  contiguous g l1 /\ contiguous (g + sumCells l1) l2.
Proof.
  induction l1 as [|b l1 IH]; intro g; simpl.
  - unfold sumCells; simpl. rewrite Z.add_0_r. tauto.
  - rewrite IH, sumCells_cons, Z.add_assoc. tauto.
Qed.

End Basics.

(** ** Registration *)

Section Registration.

Lemma RegisterCell_registered st t m npts st' :
  RegisterCell st t m npts = Ok st' ->
  registered st t m npts (Info st' t) /\
  (forall t', t' <> t -> Info st' t' = Info st t') /\
  Parts st' = Parts st /\ NumParts st' = NumParts st.
Proof.
  unfold RegisterCell. intro H.
  destruct (back (Info st t)) as [last|] eqn:Eb.
  - apply back_Some in Eb. set (pre := removelast (Info st t)) in *.
    destruct (partId last =? m) eqn:Em.
    + injection H as <-. simpl. rewrite update_same. repeat split.
      * apply reg_extend with pre last; [exact Eb|now apply Z.eqb_eq|].
        rewrite Eb at 1. apply set_back_snoc.
      * intros t' Ht. now apply update_other.
    + destruct (array_get (Parts st) m) as [p|] eqn:Ep; [|discriminate].
      simpl in H. injection H as <-. simpl. rewrite update_same. repeat split.
      * apply reg_push with pre last p; [exact Eb|now apply Z.eqb_neq|exact Ep|].
        rewrite Eb at 1. now rewrite <- app_assoc.
      * intros t' Ht. now apply update_other.
  - apply back_None in Eb.
    destruct (array_get (Parts st) m) as [p|] eqn:Ep; [|discriminate].
    simpl in H. injection H as <-. simpl. rewrite update_same. repeat split.
    + apply reg_first with p; [exact Eb|exact Ep|]. now rewrite Eb.
    + intros t' Ht. now apply update_other.
Qed.

Lemma registered_contiguous st t m npts blocks' :
  registered st t m npts blocks' ->
  contiguous 0 (Info st t) -> contiguous 0 blocks'.
Proof.
  intros [pre last E _ ->|pre last p E _ _ ->|p E _ ->]; rewrite E.
  - rewrite !contiguous_app. simpl. intuition lia.
  - rewrite !contiguous_app. simpl. intuition lia.
  - intros _. simpl. intuition lia.
Qed.

Lemma registered_sumCells st t m npts blocks' :
  registered st t m npts blocks' -> sumCells blocks' = sumCells (Info st t) + 1.
Proof.
  intros [pre last E _ ->|pre last p E _ _ ->|p E _ ->]; rewrite E;
    rewrite ?sumCells_app; unfold sumCells, Zsum; simpl; lia.
Qed.

Lemma blocksOf_app m (l1 l2 : list PartInfo) :
  blocksOf m (l1 ++ l2) = blocksOf m l1 ++ blocksOf m l2.
Proof. apply filter_app. Qed.

Lemma registered_blocksOf st t m npts blocks' m' :
  registered st t m npts blocks' ->
  sumCells (blocksOf m' blocks') =
    sumCells (blocksOf m' (Info st t)) + (if m =? m' then 1 else 0) /\
  Zsum (map cellStructureSize (blocksOf m' blocks')) =
    Zsum (map cellStructureSize (blocksOf m' (Info st t)))
    + (if m =? m' then npts else 0).
Proof.
  intros [pre last E Hm ->|pre last p E Hm _ ->|p E _ ->]; rewrite E;
    rewrite ?blocksOf_app, ?sumCells_app, ?map_app, ?Zsum_app;
    unfold blocksOf; simpl.
  - subst m. rewrite (Z.eqb_sym (partId last) m').
    destruct (m' =? partId last); unfold sumCells, Zsum; simpl; lia.
  - destruct (partId last =? m') eqn:E1; destruct (m =? m') eqn:E2;
      try (apply Z.eqb_eq in E1, E2; congruence);
      unfold sumCells, Zsum; simpl; lia.
  - destruct (m =? m'); unfold sumCells, Zsum; simpl; lia.
Qed.

Lemma GetMemorySizes_loop_spec m (blocks : list PartInfo) : forall a b,
  GetMemorySizes_loop blocks m a b =
  (a + sumCells (blocksOf m blocks),
   b + Zsum (map cellStructureSize (blocksOf m blocks))).
Proof.
  induction blocks as [|info rest IH]; intros a b; simpl.
  - unfold sumCells, Zsum; simpl. now rewrite !Z.add_0_r.
  - destruct (partId info =? m); rewrite IH; [|reflexivity].
    unfold sumCells, Zsum; simpl. f_equal; lia.
Qed.

(** The invariant a run of registrations maintains, type by type. *)
Lemma RegisterCells_invariant (calls : list CellReg) : forall st0 st t,
  RegisterCells st0 calls = Ok st ->
  (contiguous 0 (Info st0 t) -> contiguous 0 (Info st t)) /\
  sumCells (Info st t) =
    sumCells (Info st0 t) + Z.of_nat (length (callsOfType t calls)) /\
  (forall m,
     sumCells (blocksOf m (Info st t)) =
       sumCells (blocksOf m (Info st0 t))
       + Z.of_nat (length (callsOfPart t m calls)) /\
     Zsum (map cellStructureSize (blocksOf m (Info st t))) =
       Zsum (map cellStructureSize (blocksOf m (Info st0 t)))
       + Zsum (map regNpts (callsOfPart t m calls))) /\
  Parts st = Parts st0.
Proof.
  induction calls as [|c calls IH]; intros st0 st t H.
  - injection H as <-. simpl. unfold Zsum; simpl. repeat split; auto; lia.
  - simpl in H.
    destruct (RegisterCell st0 (regType c) (regMatId c) (regNpts c))
      as [st1|] eqn:E1; [|discriminate].
    simpl in H. destruct (IH st1 st t H) as (IHc & IHs & IHm & IHp).
    destruct (RegisterCell_registered _ _ _ _ _ E1) as (Hreg & Hoth & HP & _).
    unfold callsOfType, callsOfPart. simpl.
    destruct (LSDYNA_TYPES_eqb (regType c) t) eqn:Et.
    + apply LSDYNA_TYPES_eqb_eq in Et. subst t. simpl.
      repeat split.
      * intro Hc. apply IHc. eapply registered_contiguous; eauto.
      * rewrite IHs, (registered_sumCells _ _ _ _ _ Hreg).
        unfold callsOfType. lia.
      * destruct (IHm m) as [-> _].
        destruct (registered_blocksOf _ _ _ _ _ m Hreg) as [-> _].
        unfold callsOfPart. destruct (regMatId c =? m); simpl; lia.
      * destruct (IHm m) as [_ ->].
        destruct (registered_blocksOf _ _ _ _ _ m Hreg) as [_ ->].
        unfold callsOfPart.
        destruct (regMatId c =? m); unfold Zsum; simpl; lia.
      * congruence.
    + assert (Ht : t <> regType c).
      { intros ->. now rewrite LSDYNA_TYPES_eqb_refl in Et. }
      simpl. rewrite <- (Hoth t Ht). repeat split; auto.
      * apply IHm.
      * apply IHm.
      * congruence.
Qed.

Lemma RegisterCells_contiguous calls st0 st t :
  unregistered st0 -> RegisterCells st0 calls = Ok st ->
  contiguous 0 (Info st t).
Proof.
  intros H0 H. apply (RegisterCells_invariant calls st0 st t H).
  rewrite H0. exact I.
Qed.

End Registration.

(** ** Registration: one call, the index, the sizes *)

Section RegistrationIndex.

(** C5.  One call [RegisterCell(partType, matId, npts)]: when the last
    block of the type has [partId = matId], that block gets one more cell
    and [npts] more words and no block is added; otherwise, the slot
    [Parts[matId]] being inside the array, a block with [numCells = 1] and
    [cellStructureSize = npts] is appended, starting where the previous
    last block ends, or at 0 when the type had no block. *)
Theorem RegisterCell_step (st : LSDynaPartStorage) (t : LSDYNA_TYPES)
  (m npts : vtkIdType) :
  (forall pre last,
      Info st t = pre ++ [last] -> partId last = m ->
      exists st', RegisterCell st t m npts = Ok st' /\
        Info st' t =
          pre ++ [mkPartInfo (numCells last + 1) (startId last)
                             (cellStructureSize last + npts)
                             (partId last) (part last)]) /\
  (forall pre last p,
      Info st t = pre ++ [last] -> partId last <> m ->
      array_get (Parts st) m = Ok p ->
      exists st', RegisterCell st t m npts = Ok st' /\
        Info st' t =
          pre ++ [last; mkPartInfo 1 (startId last + numCells last) npts m p]) /\
  (forall p,
      Info st t = [] -> array_get (Parts st) m = Ok p ->
      exists st', RegisterCell st t m npts = Ok st' /\
        Info st' t = [mkPartInfo 1 0 npts m p]).
Proof.
  unfold RegisterCell. repeat split.
  - intros pre last E Hm. rewrite E, back_snoc.
    apply Z.eqb_eq in Hm. rewrite Hm. eexists. split; [reflexivity|].
    simpl. rewrite update_same. apply set_back_snoc.
  - intros pre last p E Hm Hp. rewrite E, back_snoc.
    apply Z.eqb_neq in Hm. rewrite Hm, Hp. eexists. split; [reflexivity|].
    simpl. rewrite update_same. now rewrite <- app_assoc.
  - intros p E Hp. rewrite E. simpl. rewrite Hp. eexists.
    split; [reflexivity|]. simpl. now rewrite update_same.
Qed.

Lemma contiguous_ge (blocks : list PartInfo) : forall g i b,
  contiguous g blocks -> nth_error blocks i = Some b ->
  g <= startId b /\ 0 < numCells b.
Proof.
  induction blocks as [|a rest IH]; intros g i b Hc Hn.
  - now destruct i.
  - destruct Hc as (Hs & Hpos & Hrest). destruct i as [|i].
    + injection Hn as <-. lia.
    + apply (IH _ _ _ Hrest) in Hn. lia.
Qed.

Lemma contiguous_next (blocks : list PartInfo) : forall g i b b',
  contiguous g blocks ->
  nth_error blocks i = Some b -> nth_error blocks (S i) = Some b' ->
  startId b' = startId b + numCells b.
Proof.
  induction blocks as [|a rest IH]; intros g i b b' Hc Hi Hj.
  - now destruct i.
  - destruct Hc as (Hs & Hpos & Hrest). destruct i as [|i].
    + injection Hi as <-. simpl in Hj.
      destruct rest as [|a' rest']; [discriminate|].
      injection Hj as <-. destruct Hrest as (-> & _). lia.
    + exact (IH _ _ _ _ Hrest Hi Hj).
Qed.

Lemma contiguous_before (blocks : list PartInfo) : forall g i j b b',
  contiguous g blocks -> (i < j)%nat ->
  nth_error blocks i = Some b -> nth_error blocks j = Some b' ->
  startId b + numCells b <= startId b'.
Proof.
  induction blocks as [|a rest IH]; intros g i j b b' Hc Hij Hi Hj.
  - now destruct i.
  - destruct Hc as (Hs & Hpos & Hrest).
    destruct j as [|j]; [lia|]. destruct i as [|i].
    + injection Hi as <-. simpl in Hj.
      apply (contiguous_ge _ _ _ _ Hrest) in Hj. lia.
    + apply (IH _ i j b b' Hrest); [lia|assumption|assumption].
Qed.

(** C3.  After any run of [RegisterCell] calls on a storage that had no
    block, the blocks of every type start at 0, each block starts where
    the block before it ends, the blocks are strictly increasing and do
    not overlap, and their [numCells] add up to the number of calls made
    for the type. *)
Theorem RegisterCells_index_invariant (calls : list CellReg)
  (st0 st : LSDynaPartStorage) (t : LSDYNA_TYPES) :
  unregistered st0 -> RegisterCells st0 calls = Ok st ->
  (forall b, nth_error (Info st t) 0 = Some b -> startId b = 0) /\
  (forall i b b',
      nth_error (Info st t) i = Some b ->
      nth_error (Info st t) (S i) = Some b' ->
      startId b' = startId b + numCells b) /\
  (forall i j b b',
      (i < j)%nat ->
      nth_error (Info st t) i = Some b -> nth_error (Info st t) j = Some b' ->
      startId b < startId b' /\ startId b + numCells b <= startId b') /\
  sumCells (Info st t) = Z.of_nat (length (callsOfType t calls)).
Proof.
  intros H0 H.
  pose proof (RegisterCells_contiguous calls st0 st t H0 H) as Hc.
  split; [|split; [|split]].
  - intros b Hb. destruct (Info st t) as [|a rest]; [discriminate|].
    injection Hb as <-. now destruct Hc.
  - intros i b b'. now apply contiguous_next with 0.
  - intros i j b b' Hij Hi Hj.
    pose proof (contiguous_ge _ _ _ _ Hc Hi) as Hp.
    pose proof (contiguous_before _ _ _ _ _ _ Hc Hij Hi Hj). lia.
  - destruct (RegisterCells_invariant calls st0 st t H) as (_ & -> & _).
    rewrite H0. unfold sumCells, Zsum; simpl. lia.
Qed.

(** C6.  [GetMemorySizesForPart(partType, matId)] returns as [numCells]
    the number of [RegisterCell] calls made with that pair, and as
    [cellArrayLength] the sum of their [npts]. *)
Theorem GetMemorySizesForPart_counts (calls : list CellReg)
  (st0 st : LSDynaPartStorage) (t : LSDYNA_TYPES) (m : vtkIdType) :
  unregistered st0 -> RegisterCells st0 calls = Ok st ->
  GetMemorySizesForPart st t m =
    (Z.of_nat (length (callsOfPart t m calls)),
     Zsum (map regNpts (callsOfPart t m calls))).
Proof.
  intros H0 H. unfold GetMemorySizesForPart.
  rewrite GetMemorySizes_loop_spec.
  destruct (RegisterCells_invariant calls st0 st t H) as (_ & _ & Hm & _).
  destruct (Hm m) as [-> ->]. rewrite H0. reflexivity.
Qed.

End RegistrationIndex.

(** ** The insertion cursor *)

Section InsertionCursor.

Lemma contiguous_positive (blocks : list PartInfo) : forall g,
  contiguous g blocks -> Forall (fun b => 0 < numCells b) blocks.
Proof.
  induction blocks as [|a rest IH]; intros g Hc; constructor.
  - apply Hc.
  - apply (IH (g + numCells a)), Hc.
Qed.

Lemma sumCells_nonneg (blocks : list PartInfo) :
  Forall (fun b => 0 < numCells b) blocks -> 0 <= sumCells blocks.
Proof.
  induction 1 as [|a rest Ha _ IH]; [easy|]. rewrite sumCells_cons. lia.
Qed.

Lemma positive_firstn (blocks : list PartInfo) : forall i,
  Forall (fun b => 0 < numCells b) blocks ->
  Forall (fun b => 0 < numCells b) (firstn i blocks).
Proof.
  induction blocks as [|a rest IH]; intros i H; destruct i; simpl; auto.
  inversion H; subst. constructor; auto.
Qed.

Lemma sumCells_firstn_S (blocks : list PartInfo) : forall i b,
  nth_error blocks i = Some b ->
  sumCells (firstn (S i) blocks) = sumCells (firstn i blocks) + numCells b.
Proof.
  induction blocks as [|a rest IH]; intros i b Hn; [now destruct i|].
  destruct i as [|i].
  - injection Hn as <-. unfold sumCells, Zsum; simpl. lia.
  - change (firstn (S (S i)) (a :: rest)) with (a :: firstn (S i) rest).
    change (firstn (S i) (a :: rest)) with (a :: firstn i rest).
    rewrite !sumCells_cons, (IH i b Hn). lia.
Qed.


Lemma owners_nth (blocks : list PartInfo) : forall i b n,
  Forall (fun b => 0 < numCells b) blocks ->
  nth_error blocks i = Some b -> 0 <= n < numCells b ->
  nth_error (owners blocks) (Z.to_nat (sumCells (firstn i blocks) + n))
  = Some (part b).
Proof.
  induction blocks as [|a rest IH]; intros i b n Hpos Hn Hb;
    [now destruct i|].
  inversion Hpos as [|? ? Ha Hrest]; subst.
  unfold owners. simpl. fold (owners rest). destruct i as [|i].
  - injection Hn as <-. unfold sumCells, Zsum; simpl.
    rewrite nth_error_app1 by (rewrite repeat_length; lia).
    apply nth_error_repeat. lia.
  - change (firstn (S i) (a :: rest)) with (a :: firstn i rest).
    rewrite sumCells_cons.
    assert (Hf : 0 <= sumCells (firstn i rest)).
    { apply sumCells_nonneg. now apply positive_firstn. }
    rewrite nth_error_app2 by (rewrite repeat_length; lia).
    rewrite repeat_length.
    replace (Z.to_nat (numCells a + sumCells (firstn i rest) + n)
             - Z.to_nat (numCells a))%nat
      with (Z.to_nat (sumCells (firstn i rest) + n)) by lia.
    now apply IH.
Qed.

Lemma skipn_nth_error {A : Type} (l : list A) : forall k x,
  nth_error l k = Some x -> skipn k l = x :: skipn (S k) l.
Proof.
  induction l as [|a l IH]; intros k x Hk; [now destruct k|].
  destruct k as [|k]; [now injection Hk as <-|].
  now apply IH.
Qed.

Lemma cursorAt_inside blocks cur k :
  Forall (fun b => 0 < numCells b) blocks ->
  cursorAt blocks cur k -> k < sumCells blocks ->
  exists i b, pIt cur = Some i /\ nth_error blocks i = Some b /\
    sumCells (firstn i blocks) + numCellsInserted cur = k /\
    0 <= numCellsInserted cur < numCells b.
Proof.
  intros Hpos (i & Hi & Hle & Hk & Hn & Hb & Hend) Hlt.
  destruct (nth_error blocks i) as [b|] eqn:E.
  - exists i, b. specialize (Hb b eq_refl). repeat split; auto; lia.
  - apply nth_error_None in E.
    rewrite firstn_all2 in Hk by exact E. lia.
Qed.

(** One [InsertCell] on a cursor that is not at the end. *)
Lemma InsertCell_step st t c k :
  Forall (fun b => 0 < numCells b) (Info st t) ->
  cursorAt (Info st t) (CellInsertionIterators st t) k ->
  k < sumCells (Info st t) ->
  exists st' o,
    InsertCell st t c = Ok (st', call_on o (AddCell (cellKind c) (cellNpts c)
                                                    (cellConn c))) /\
    nth_error (owners (Info st t)) (Z.to_nat k) = Some o /\
    Info st' = Info st /\
    cursorAt (Info st t) (CellInsertionIterators st' t) (k + 1).
Proof.
  intros Hpos Hcur Hlt.
  pose proof Hcur as (i0 & _ & _ & _ & Hge & _).
  destruct (cursorAt_inside _ _ _ Hpos Hcur Hlt) as (i & b & Hi & Hb & Hk & Hn).
  unfold InsertCell. rewrite Hi, Hb.
  eexists. exists (part b). split; [reflexivity|]. split.
  { rewrite <- Hk. now apply owners_nth. }
  split; [reflexivity|]. simpl. rewrite update_same. unfold inc.
  pose proof (sumCells_firstn_S _ _ _ Hb) as HS.
  assert (Hlen : (i < length (Info st t))%nat).
  { apply nth_error_Some. congruence. }
  destruct (numCells b =? numCellsInserted (CellInsertionIterators st t) + 1)
    eqn:E.
  - apply Z.eqb_eq in E. exists (S i). cbn [pIt numCellsInserted].
    split; [reflexivity|]. split; [lia|]. split; [lia|]. split; [lia|].
    split; [|reflexivity].
    intros b' Hb'. apply nth_error_In in Hb'.
    rewrite Forall_forall in Hpos. now apply Hpos.
  - apply Z.eqb_neq in E. exists i. cbn [pIt numCellsInserted].
    split; [reflexivity|]. split; [lia|]. split; [lia|]. split; [lia|].
    split; [|lia].
    intros b' Hb'. rewrite Hb in Hb'. injection Hb' as <-. lia.
Qed.

Lemma InsertCells_run (cells : list Cell) : forall st t k,
  Forall (fun b => 0 < numCells b) (Info st t) ->
  cursorAt (Info st t) (CellInsertionIterators st t) k -> 0 <= k ->
  k + Z.of_nat (length cells) <= sumCells (Info st t) ->
  exists st',
    InsertCells st t cells =
      Ok (st', AddCell_calls (skipn (Z.to_nat k) (owners (Info st t))) cells) /\
    Info st' = Info st /\
    cursorAt (Info st t) (CellInsertionIterators st' t)
             (k + Z.of_nat (length cells)).
Proof.
  induction cells as [|c cells IH]; intros st t k Hpos Hcur Hk Hlen.
  - exists st. simpl. unfold AddCell_calls. rewrite combine_nil, Z.add_0_r.
    auto.
  - simpl length in *.
    destruct (InsertCell_step st t c k Hpos Hcur) as (st1 & o & E1 & Ho & HI & Hc1);
      [lia|].
    assert (HI' : Info st1 t = Info st t) by now rewrite HI.
    destruct (IH st1 t (k + 1)) as (st2 & E2 & HI2 & Hc2);
      rewrite ?HI'; auto; try lia.
    exists st2. simpl. rewrite E1. simpl. rewrite E2. simpl.
    split; [|split].
    + rewrite (skipn_nth_error _ _ _ Ho), HI'.
      replace (S (Z.to_nat k)) with (Z.to_nat (k + 1)) by lia.
      reflexivity.
    + congruence.
    + replace (k + Z.pos (Pos.of_succ_nat (length cells)))
        with (k + 1 + Z.of_nat (length cells)) by lia.
      now rewrite <- HI'.
Qed.

Lemma InitCellInsertion_cursor st t :
  Forall (fun b => 0 < numCells b) (Info st t) -> Info st t <> [] ->
  cursorAt (Info st t) (CellInsertionIterators (InitCellInsertion st) t) 0.
Proof.
  intros Hpos Hne. simpl. destruct (Info st t) as [|a rest] eqn:E;
    [contradiction|].
  exists 0%nat. simpl.
  split; [reflexivity|]. split; [lia|]. split; [reflexivity|]. split; [lia|].
  split; [|discriminate].
  intros b [= <-]. now inversion Hpos.
Qed.

End InsertionCursor.

Section InsertionPass.

Lemma InsertCells_prefix (st : LSDynaPartStorage) (t : LSDYNA_TYPES)
  (cells : list Cell) :
  Forall (fun b => 0 < numCells b) (Info st t) ->
  Z.of_nat (length cells) <= sumCells (Info st t) ->
  exists st',
    InsertCells (InitCellInsertion st) t cells =
      Ok (st', AddCell_calls (owners (Info st t)) cells) /\
    Info st' = Info st /\
    (Info st t <> [] ->
     cursorAt (Info st t) (CellInsertionIterators st' t)
              (Z.of_nat (length cells))).
Proof.
  intros Hpos Hlen. destruct (Info st t) as [|a rest] eqn:E.
  - unfold sumCells, Zsum in Hlen. simpl in Hlen.
    destruct cells as [|c cells]; [|simpl in Hlen; lia].
    exists (InitCellInsertion st). simpl. repeat split. now intros [].
  - destruct (InsertCells_run cells (InitCellInsertion st) t 0)
      as (st' & E' & HI & Hc); simpl Info; rewrite ?E; try lia; auto.
    + rewrite <- E. apply InitCellInsertion_cursor; rewrite E; easy.
    + exists st'. simpl in E'. rewrite E in E'. split; [exact E'|].
      split; [exact HI|]. intros _. simpl in Hc. now rewrite E in Hc.
Qed.


End InsertionPass.

(** ** Walking the index: dead cells and cell properties *)

Section IntPositions.

Lemma to_int_fits (z : Z) : fitsInt z -> to_int z = z.
Proof.
  unfold fitsInt, to_int, INT_MIN, INT_MAX. intro H.
  rewrite Z.mod_small by lia. lia.
Qed.

Lemma to_int_range (z : Z) : fitsInt (to_int z).
Proof.
  unfold fitsInt, to_int, INT_MIN, INT_MAX.
  pose proof (Z.mod_pos_bound (z - -2147483648) 4294967296 eq_refl). lia.
Qed.

End IntPositions.

Section Walks.




End Walks.

(** ** Clipped-overlap streaming *)

Section ClippedOverlap.

Variables s n k : Z.

Lemma contiguous_Forall (blocks : list PartInfo) : forall g,
  contiguous g blocks ->
  Forall (fun b => g <= startId b /\ 0 < numCells b) blocks.
Proof.
  induction blocks as [|a rest IH]; intros g Hc; constructor.
  - destruct Hc as (-> & Hp & _). lia.
  - destruct Hc as (Hs & Hp & Hr). apply IH in Hr.
    eapply Forall_impl; [|exact Hr]. simpl. intros b Hb. lia.
Qed.

Lemma sumOverlap_app (l1 l2 : list PartInfo) :
  sumOverlap (l1 ++ l2) s n = sumOverlap l1 s n + sumOverlap l2 s n.
Proof. unfold sumOverlap. now rewrite map_app, Zsum_app. Qed.

Lemma sumOverlap_zero (l : list PartInfo) :
  Forall (fun b => overlap b s n = 0) l -> sumOverlap l s n = 0.
Proof.
  induction 1 as [|a rest Ha _ IH]; [reflexivity|].
  unfold sumOverlap, Zsum in *. simpl. lia.
Qed.

(** The cells of the window below the end of a contiguous run are those
    below its start and those inside its blocks. *)
Lemma windowBefore_contiguous (blocks : list PartInfo) : forall g,
  contiguous g blocks -> 0 <= g ->
  windowBefore (g + sumCells blocks) s n
  = windowBefore g s n + sumOverlap blocks s n.
Proof.
  induction blocks as [|a rest IH]; intros g Hc Hg.
  - unfold sumCells, sumOverlap, Zsum. simpl. now rewrite !Z.add_0_r.
  - destruct Hc as (Hs & Hp & Hr).
    rewrite sumCells_cons, Z.add_assoc, (IH _ Hr) by lia.
    unfold sumOverlap, Zsum. simpl. unfold windowBefore, overlap. lia.
Qed.

(** Where [InitCellIteration] leaves the iterator when its [int] does
    not wrap: the blocks it passed end before the window starts, and the
    block it stands on does not. *)
Lemma InitCellIteration_loop_spec (blocks : list PartInfo) : forall g,
  contiguous g blocks -> intBlocks blocks -> s - g <= INT_MAX ->
  exists skipped,
    blocks = skipped ++ InitCellIteration_loop blocks (s - g) /\
    Forall (fun b => startId b + numCells b < s) skipped /\
    contiguous (g + sumCells skipped) (InitCellIteration_loop blocks (s - g)) /\
    (forall b rest,
        InitCellIteration_loop blocks (s - g) = b :: rest ->
        s <= startId b + numCells b).
Proof.
  induction blocks as [|a rest IH]; intros g Hc Hint Hpos.
  - exists []. simpl. repeat split; auto. discriminate.
  - pose proof Hc as (Hs & Hp & Hr). apply Forall_cons_iff in Hint as [Ha Hrest].
    cbn [InitCellIteration_loop].
    destruct (0 <? s - g) eqn:E1.
    + apply Z.ltb_lt in E1.
      rewrite to_int_fits by (unfold fitsInt, INT_MIN, INT_MAX in *; lia).
      destruct (0 <? s - g - numCells a) eqn:E2.
      * destruct (IH (g + numCells a) Hr Hrest)
          as (sk & Heq & Hsk & Hcont & Hhead); [lia|].
        replace (s - (g + numCells a)) with (s - g - numCells a) in * by lia.
        exists (a :: sk). split; [simpl; now f_equal|]. split; [|split].
        -- constructor; [|exact Hsk]. apply Z.ltb_lt in E2. lia.
        -- rewrite sumCells_cons, Z.add_assoc. exact Hcont.
        -- exact Hhead.
      * exists []. split; [reflexivity|]. split; [constructor|]. split.
        -- change (sumCells []) with 0. now rewrite Z.add_0_r.
        -- intros b r [= <- _]. apply Z.ltb_ge in E2. lia.
    + exists []. split; [reflexivity|]. split; [constructor|]. split.
      * change (sumCells []) with 0. now rewrite Z.add_0_r.
      * intros b r [= <- _]. apply Z.ltb_ge in E1. lia.
Qed.


End ClippedOverlap.

Section ClippedOverlapPass.


End ClippedOverlapPass.

(** ** A window that starts beyond what an [int] holds *)

Section NarrowedStart.

Lemma RegisterCells_app (a b : list CellReg) : forall st,
  RegisterCells st (a ++ b) = (st' <- RegisterCells st a ;; RegisterCells st' b).
Proof.
  induction a as [|c a IH]; intro st; [reflexivity|].
  cbn [app RegisterCells].
  destruct (RegisterCell st (regType c) (regMatId c) (regNpts c)) as [st1|];
    [|reflexivity].
  cbn [bind]. apply IH.
Qed.

(** More cells of the material of the last block only make it longer. *)
Lemma RegisterCells_continue (t : LSDYNA_TYPES) (m npts : vtkIdType) :
  forall n st pre last,
    Info st t = pre ++ [last] -> partId last = m ->
    exists st',
      RegisterCells st (repeat (mkCellReg t m npts) n) = Ok st' /\
      Info st' t =
        pre ++ [ {| numCells := numCells last + Z.of_nat n;
                    startId := startId last;
                    cellStructureSize :=
                      cellStructureSize last + Z.of_nat n * npts;
                    partId := partId last; part := part last |} ] /\
      Parts st' = Parts st.
Proof.
  induction n as [|n IH]; intros st pre last HI Hm.
  - exists st. split; [reflexivity|]. split; [|reflexivity].
    rewrite HI. do 2 f_equal. destruct last.
    cbn [numCells startId cellStructureSize partId part]. f_equal; lia.
  - cbn [repeat RegisterCells regType regMatId regNpts].
    unfold RegisterCell at 1. rewrite HI, back_snoc.
    replace (partId last =? m) with true by (symmetry; now apply Z.eqb_eq).
    cbn [bind]. rewrite set_back_snoc.
    destruct (IH (set_Info st t (pre ++ [PartInfo_append last npts])) pre
                 (PartInfo_append last npts))
      as (st' & E & HI' & HP); [cbn [Info set_Info]; apply update_same|exact Hm|].
    exists st'. split; [exact E|]. split; [|exact HP].
    rewrite HI'. do 2 f_equal. unfold PartInfo_append, PartInfo_new;
      cbn [numCells startId cellStructureSize partId part].
    f_equal; lia.
Qed.

(** A run of [n] cells of a material other than that of the last block
    makes one block of [n] cells. *)
Lemma RegisterCells_block (t : LSDYNA_TYPES) (m npts : vtkIdType) (n : nat)
  (st : LSDynaPartStorage) (p : option vtkLSDynaPart) (start : vtkIdType) :
  (0 < n)%nat ->
  array_get (Parts st) m = Ok p ->
  (Info st t = [] /\ start = 0) \/
  (exists pre last, Info st t = pre ++ [last] /\ partId last <> m /\
                    start = startId last + numCells last) ->
  exists st',
    RegisterCells st (repeat (mkCellReg t m npts) n) = Ok st' /\
    Info st' t =
      Info st t ++ [ {| numCells := Z.of_nat n; startId := start;
                        cellStructureSize := Z.of_nat n * npts;
                        partId := m; part := p |} ] /\
    Parts st' = Parts st.
Proof.
  intros Hn Hp Hcase. destruct n as [|n]; [lia|].
  cbn [repeat RegisterCells regType regMatId regNpts].
  unfold RegisterCell at 1.
  destruct Hcase as [[HI ->]|(pre & last & HI & Hne & ->)].
  - rewrite HI. cbn [back]. rewrite Hp. cbn [bind app].
    destruct (RegisterCells_continue t m npts n
                (set_Info st t [PartInfo_new p m 0 npts]) []
                (PartInfo_new p m 0 npts))
      as (st' & E & HI' & HP); [cbn [Info set_Info]; apply update_same|reflexivity|].
    exists st'. split; [exact E|]. split; [|exact HP].
    rewrite HI'. unfold PartInfo_append, PartInfo_new;
      cbn [numCells startId cellStructureSize partId part].
    cbn [app]. do 2 f_equal; lia.
  - rewrite HI, back_snoc.
    replace (partId last =? m) with false by (symmetry; now apply Z.eqb_neq).
    rewrite Hp. cbn [bind].
    destruct (RegisterCells_continue t m npts n
                (set_Info st t
                   ((pre ++ [last])
                    ++ [PartInfo_new p m (startId last + numCells last) npts]))
                (pre ++ [last])
                (PartInfo_new p m (startId last + numCells last) npts))
      as (st' & E & HI' & HP); [cbn [Info set_Info]; apply update_same|reflexivity|].
    exists st'. split; [exact E|]. split; [|exact HP].
    rewrite HI'. unfold PartInfo_append, PartInfo_new;
      cbn [numCells startId cellStructureSize partId part].
    do 3 f_equal; lia.
Qed.

(** C2, on the code.  Registering 2^31 shells of the first part and
    twenty of the third leaves two blocks; the window of the ten cells
    from cell 2^31 + 5 lies inside the second block, which shares ten
    cells with it.  [InitCellIteration] receives the start of the window
    as the [int] -2^31 + 5 and leaves the cursor on the first block, which
    ends before the window starts: [FillCellArray] breaks at once, no part
    gets [ReadCellProperties] and the pointer does not move. *)
Theorem FillCellArray_narrows_startId :
  exists st,
    RegisterCells demoStorage bigCalls = Ok st /\
    Info st SHELL = bigBlocks /\
    forall c, Storage c = st ->
      2147483653 + 10 <= sumCells (Info (Storage c) SHELL) /\
      map (fun b => (part b, overlap b 2147483653 10)) (Info (Storage c) SHELL)
        = [(Some shell0, 0); (Some shell2, 10)] /\
      snd (fst (FillCellArray c SHELL 2147483653 10 2)) = [] /\
      snd (FillCellArray c SHELL 2147483653 10 2) = 0.
Proof.
  unfold bigCalls.
  destruct (RegisterCells_block SHELL 0 4 (Z.to_nat 2147483648) demoStorage
              (Some shell0) 0)
    as (st1 & E1 & HI1 & HP1); [lia|reflexivity|now left|].
  rewrite Z2Nat.id in HI1 by lia.
  change (Info demoStorage SHELL) with (@nil PartInfo) in HI1.
  cbn [app] in HI1.
  destruct (RegisterCells_block SHELL 2 4 20 st1 (Some shell2) 2147483648)
    as (st2 & E2 & HI2 & HP2); [lia|now rewrite HP1| |].
  { right. eexists [], _. split; [exact HI1|]. split; [discriminate|].
    reflexivity. }
  exists st2. rewrite RegisterCells_app, E1. cbn [bind].
  split; [exact E2|].
  assert (HI : Info st2 SHELL = bigBlocks) by (rewrite HI2, HI1; reflexivity).
  split; [exact HI|].
  intros c Hc. unfold FillCellArray, InitCellIteration.
  rewrite Hc. cbn [CellIterator set_CellIterator]. rewrite HI.
  split; [vm_compute; discriminate|].
  split; [reflexivity|]. split; vm_compute; reflexivity.
Qed.

End NarrowedStart.

(** ** The part directory *)

Section PartDirectory.

(** What [PartExists] does on the storage the constructor builds. *)
Lemma PartExists_spec (st : LSDynaPartStorage) (index : vtkIdType) :
  length (Parts st) = Z.to_nat (NumParts st) -> 0 <= NumParts st ->
  (index < 0 \/ NumParts st < index -> PartExists st index = Ok false) /\
  (0 <= index < NumParts st ->
   exists p, nth_error (Parts st) (Z.to_nat index) = Some p /\
             PartExists st index = Ok (is_part p)) /\
  (index = NumParts st -> PartExists st index = OutOfBounds).
Proof.
  intros Hlen Hn. unfold PartExists, array_get. split; [|split].
  - intros [H|H].
    + apply Z.ltb_lt in H. now rewrite H.
    + apply Z.gtb_lt in H. rewrite H. now rewrite orb_true_r.
  - intros [H1 H2].
    destruct (nth_error (Parts st) (Z.to_nat index)) as [p|] eqn:E.
    + exists p. split; [reflexivity|].
      replace (index <? 0) with false by (symmetry; apply Z.ltb_ge; lia).
      replace (index >? NumParts st) with false
        by (symmetry; rewrite Z.gtb_ltb; apply Z.ltb_ge; lia).
      reflexivity.
    + apply nth_error_None in E. lia.
  - intros ->.
    replace (NumParts st <? 0) with false by (symmetry; apply Z.ltb_ge; lia).
    replace (NumParts st >? NumParts st) with false
      by (symmetry; rewrite Z.gtb_ltb; apply Z.ltb_ge; lia).
    simpl.
    destruct (nth_error (Parts st) (Z.to_nat (NumParts st))) as [p|] eqn:E;
      [|reflexivity].
    assert (nth_error (Parts st) (Z.to_nat (NumParts st)) <> None) by congruence.
    apply nth_error_Some in H. lia.
Qed.

(** C9, on the code.  On a storage of [numMaterials] slots, the index
    [numMaterials] passes the guard [index < 0 || index > NumParts] of
    [PartExists], and the slot array is read one past its end; so is it
    through [IsActivePart]. *)
Theorem PartExists_reads_past_the_end (numMaterials : nat)
  (c : vtkLSDynaPartCollection) :
  PartExists (LSDynaPartStorage_new (Z.of_nat numMaterials))
             (Z.of_nat numMaterials) = OutOfBounds /\
  IsActivePart (set_Storage c (LSDynaPartStorage_new (Z.of_nat numMaterials)))
               (Z.of_nat numMaterials) = OutOfBounds.
Proof.
  assert (H : PartExists (LSDynaPartStorage_new (Z.of_nat numMaterials))
                         (Z.of_nat numMaterials) = OutOfBounds).
  { apply PartExists_spec; simpl; try lia. now rewrite repeat_length. }
  split; [exact H|]. unfold IsActivePart. simpl. exact H.
Qed.

End PartDirectory.

(** ** Read planning *)

Section ReadPlanning.

Lemma FillCellUserIdArray_MetaData c buffer t s n :
  MetaData (fst (FillCellUserIdArray c buffer t s n)) = MetaData c.
Proof.
  unfold FillCellUserIdArray.
  destruct (FillCellUserIdArray_loop _ _ _ _ _) as [[evs loc] range'].
  reflexivity.
Qed.

(** The chunk loop moves the file over the chunks it takes and leaves the
    cell counts alone. *)
Lemma ReadCellUserIds_loop_Fam (pending : list vtkIdType) : forall c t s,
  PendingChunks (Fam (MetaData c)) = pending ->
  let c' := fst (ReadCellUserIds_loop (length pending) c t s) in
  FamWord (Fam (MetaData c')) = FamWord (Fam (MetaData c)) + Zsum pending /\
  NumberOfCells (MetaData c') = NumberOfCells (MetaData c).
Proof.
  induction pending as [|x pending IH]; intros c t s Hp; simpl.
  - unfold Zsum. simpl. split; [lia|reflexivity].
  - unfold GetNextChunk. rewrite Hp. unfold FillCellUserId.
    match goal with
    | |- context [FillCellUserIdArray ?a ?b ?d ?e ?f] =>
        pose proof (FillCellUserIdArray_MetaData a b d e f) as HM;
        destruct (FillCellUserIdArray a b d e f) as [c1 ev] eqn:E1
    end.
    simpl in HM.
    specialize (IH c1 t (s + x)). rewrite HM in IH. simpl in IH.
    specialize (IH eq_refl).
    destruct (ReadCellUserIds_loop (length pending) c1 t (s + x)) as [c2 evs].
    simpl in *. destruct IH as [-> ->]. unfold Zsum. simpl.
    split; [lia|reflexivity].
Qed.

(** C10.  The three outputs of [GetPartReadInfo] add up to the number of
    cells of the type, in both branches; hence [ReadCellUserIds] leaves
    the file that many words further: when the type is skipped, and when
    it is read, the family delivering the words it was asked for. *)
Theorem GetPartReadInfo_conserves (c : vtkLSDynaPartCollection)
  (t : LSDYNA_TYPES) (status : Z) :
  let numberOfCells := fst (fst (GetPartReadInfo c t)) in
  let numCellsToSkipStart := snd (fst (GetPartReadInfo c t)) in
  let numCellsToSkipEnd := snd (GetPartReadInfo c t) in
  numCellsToSkipStart + numberOfCells + numCellsToSkipEnd
    = NumberOfCells (MetaData c) t /\
  ((status <> 0 -> 0 < numberOfCells ->
    Zsum (Chunking (Fam (MetaData c)) numberOfCells) = numberOfCells) ->
   FamWord (Fam (MetaData (fst (ReadCellUserIds c t status))))
     = FamWord (Fam (MetaData c)) + NumberOfCells (MetaData c) t).
Proof.
  intros nCells skipStart skipEnd.
  assert (Hsum : skipStart + nCells + skipEnd = NumberOfCells (MetaData c) t).
  { subst nCells skipStart skipEnd. unfold GetPartReadInfo.
    destruct (MaxIds c t - MinIds c t <=? 0); simpl; lia. }
  split; [exact Hsum|]. intro Hfam.
  unfold ReadCellUserIds.
  destruct (GetPartReadInfo c t) as [[n0 s0] e0] eqn:EG.
  simpl in nCells, skipStart, skipEnd. subst nCells skipStart skipEnd.
  destruct (status =? 0) eqn:Es.
  - simpl. lia.
  - apply Z.eqb_neq in Es. simpl.
    set (c1 := set_Fam _ _).
    assert (Hloop : 0 < n0 ->
      let c2 := fst (ReadCellUserIds_loop
                       (Z.to_nat (Z.of_nat (length (Chunking (Fam (MetaData c)) n0))))
                       c1 t 0) in
      FamWord (Fam (MetaData c2)) = FamWord (Fam (MetaData c)) + s0 + n0).
    { intro Hn. rewrite Nat2Z.id. cbv zeta.
      pose proof (ReadCellUserIds_loop_Fam (Chunking (Fam (MetaData c)) n0)
                    c1 t 0 eq_refl) as [Hw _].
      rewrite Hw. simpl. rewrite (Hfam Es Hn). lia. }
    destruct (0 <? n0) eqn:En.
    + apply Z.ltb_lt in En. specialize (Hloop En).
      destruct (GetWordSize (Fam (MetaData c)) =? 8); simpl;
        destruct (ReadCellUserIds_loop _ c1 t 0) as [c2 evs];
        simpl in *; lia.
    + rewrite andb_false_r. simpl.
      assert (n0 = 0).
      { unfold GetPartReadInfo in EG. apply Z.ltb_ge in En.
        destruct (MaxIds c t - MinIds c t <=? 0) eqn:E;
          injection EG as <- <- <-; [reflexivity|].
        apply Z.leb_gt in E. lia. }
      lia.
Qed.

End ReadPlanning.

(** ** The point-property streamer *)

Section PointProperties.

(** C8.  [sortPartsOnGlobalIds] is not asymmetric: it holds in both
    directions for two parts of which the first starts before the second
    and the second ends before the first, and such parts exist. *)
Theorem sortPartsOnGlobalIds_not_asymmetric :
  (forall p1 p2,
      GetMinGlobalPointId p1 < GetMinGlobalPointId p2 ->
      GetMaxGlobalPointId p2 < GetMaxGlobalPointId p1 ->
      sortPartsOnGlobalIds p1 p2 = true /\ sortPartsOnGlobalIds p2 p1 = true) /\
  (exists p1 p2,
      sortPartsOnGlobalIds p1 p2 = true /\ sortPartsOnGlobalIds p2 p1 = true).
Proof.
  assert (H : forall p1 p2,
      GetMinGlobalPointId p1 < GetMinGlobalPointId p2 ->
      GetMaxGlobalPointId p2 < GetMaxGlobalPointId p1 ->
      sortPartsOnGlobalIds p1 p2 = true /\ sortPartsOnGlobalIds p2 p1 = true).
  { intros p1 p2 Hmin Hmax. unfold sortPartsOnGlobalIds.
    apply Z.ltb_lt in Hmin, Hmax. rewrite Hmin, Hmax.
    split; [reflexivity|].
    now destruct (GetMinGlobalPointId p2 <? GetMinGlobalPointId p1). }
  split; [exact H|]. exists partA, partB. apply H; simpl; lia.
Qed.

End PointProperties.


(** ** The list sort under a comparator that orders its input *)

Section ListSortCorrect.

Context {A : Type}.
Variable comp : A -> A -> bool.
Variable le : A -> A -> Prop.
Variable U : A -> Prop.
Hypothesis le_trans : forall x y z, le x y -> le y z -> le x z.
Hypothesis comp_false : forall a b, U a -> U b -> comp b a = false -> le a b.
Hypothesis comp_true : forall a b, U a -> U b -> comp b a = true -> le b a.

Lemma list_merge_nil_l (l2 : list A) : list_merge comp [] l2 = l2.
Proof. now destruct l2. Qed.

Lemma list_merge_nil_r (l1 : list A) : list_merge comp l1 [] = l1.
Proof. now destruct l1. Qed.

Lemma list_merge_cons (a1 a2 : A) (r1 r2 : list A) :
  list_merge comp (a1 :: r1) (a2 :: r2) =
  if comp a2 a1 then a2 :: list_merge comp (a1 :: r1) r2
  else a1 :: list_merge comp r1 (a2 :: r2).
Proof. reflexivity. Qed.

Lemma list_merge_perm (l1 : list A) : forall l2,
  Permutation (list_merge comp l1 l2) (l1 ++ l2).
Proof.
  induction l1 as [|a1 r1 IH1]; intro l2.
  - now rewrite list_merge_nil_l.
  - induction l2 as [|a2 r2 IH2].
    + now rewrite list_merge_nil_r, app_nil_r.
    + rewrite list_merge_cons. destruct (comp a2 a1).
      * now apply (Permutation_cons_app (a1 :: r1)).
      * simpl. now constructor.
Qed.

Lemma list_merge_sorted (l1 : list A) : forall l2,
  StronglySorted le l1 -> StronglySorted le l2 ->
  Forall U l1 -> Forall U l2 ->
  StronglySorted le (list_merge comp l1 l2).
Proof.
  induction l1 as [|a1 r1 IH1]; intros l2 S1 S2 U1 U2.
  - now rewrite list_merge_nil_l.
  - induction l2 as [|a2 r2 IH2].
    + now rewrite list_merge_nil_r.
    + rewrite list_merge_cons.
      apply StronglySorted_inv in S1 as [S1 L1].
      pose proof S2 as S2'. apply StronglySorted_inv in S2' as [S2r L2].
      inversion U1 as [|? ? Ua1 Ur1]; subst.
      inversion U2 as [|? ? Ua2 Ur2]; subst.
      destruct (comp a2 a1) eqn:E.
      * pose proof (comp_true a1 a2 Ua1 Ua2 E) as Hle.
        constructor; [now apply IH2|].
        apply (Permutation_Forall (Permutation_sym (list_merge_perm _ _))).
        apply Forall_app. split; [|exact L2].
        constructor; [exact Hle|].
        eapply Forall_impl; [|exact L1]. intros x Hx. now apply le_trans with a1.
      * pose proof (comp_false a1 a2 Ua1 Ua2 E) as Hle.
        constructor; [now apply IH1|].
        apply (Permutation_Forall (Permutation_sym (list_merge_perm _ _))).
        apply Forall_app. split; [exact L1|].
        constructor; [exact Hle|].
        eapply Forall_impl; [|exact L2]. intros x Hx. now apply le_trans with a2.
Qed.

Local Abbreviation run := (run le U).

Lemma run_merge (l1 l2 : list A) : run l1 -> run l2 -> run (list_merge comp l1 l2).
Proof.
  intros [S1 U1] [S2 U2]. split; [now apply list_merge_sorted|].
  apply (Permutation_Forall (Permutation_sym (list_merge_perm _ _))).
  now apply Forall_app.
Qed.

Lemma sort_carry_spec (counters : list (list A)) : forall carry,
  run carry -> Forall run counters ->
  Forall run (sort_carry comp carry counters) /\
  Permutation (concat (sort_carry comp carry counters))
              (carry ++ concat counters).
Proof.
  induction counters as [|c rest IH]; intros carry Hc Hr.
  - simpl. rewrite app_nil_r. split; [now constructor|reflexivity].
  - inversion Hr as [|? ? Hc0 Hrest]; subst. destruct c as [|x c].
    + simpl. split; [now constructor|reflexivity].
    + change (sort_carry comp carry ((x :: c) :: rest))
        with ([] :: sort_carry comp (list_merge comp (x :: c) carry) rest).
      destruct (IH (list_merge comp (x :: c) carry)) as [IHr IHp];
        [now apply run_merge|exact Hrest|].
      split.
      * constructor; [|exact IHr]. split; constructor.
      * change (concat ([] :: sort_carry comp (list_merge comp (x :: c) carry) rest))
          with (concat (sort_carry comp (list_merge comp (x :: c) carry) rest)).
        change (concat ((x :: c) :: rest)) with ((x :: c) ++ concat rest).
        rewrite IHp, list_merge_perm, (app_assoc carry).
        apply Permutation_app_tail, Permutation_app_comm.
Qed.

Lemma sort_fill_spec (l : list A) : forall counters,
  Forall U l -> Forall run counters ->
  Forall run (sort_fill comp l counters) /\
  Permutation (concat (sort_fill comp l counters)) (l ++ concat counters).
Proof.
  induction l as [|x r IH]; intros counters Hl Hr.
  - split; [exact Hr|reflexivity].
  - inversion Hl as [|? ? Hx Hrl]; subst. simpl.
    destruct (sort_carry_spec counters [x]) as [Hc Hp]; [|exact Hr|].
    { split; [repeat constructor|now constructor]. }
    destruct (IH _ Hrl Hc) as [IHr IHp]. split; [exact IHr|].
    rewrite IHp, Hp. simpl. symmetry. apply Permutation_middle.
Qed.

Lemma sort_collect_spec (counters : list (list A)) : forall below,
  run below -> Forall run counters ->
  run (sort_collect comp below counters) /\
  Permutation (sort_collect comp below counters) (below ++ concat counters).
Proof.
  induction counters as [|c rest IH]; intros below Hb Hr.
  - simpl. rewrite app_nil_r. split; [exact Hb|reflexivity].
  - inversion Hr as [|? ? Hc Hrest]; subst. simpl.
    destruct (IH (list_merge comp c below)) as [IHr IHp];
      [now apply run_merge|exact Hrest|].
    split; [exact IHr|].
    rewrite IHp, list_merge_perm, (app_assoc below).
    apply Permutation_app_tail, Permutation_app_comm.
Qed.

Lemma list_sort_spec (l : list A) :
  Forall U l ->
  StronglySorted le (list_sort comp l) /\ Permutation (list_sort comp l) l.
Proof.
  intro Hl. unfold list_sort.
  destruct (sort_fill_spec l [] Hl) as [Hf Hp]; [constructor|].
  destruct (sort_collect_spec (sort_fill comp l []) []) as [[Hs _] Hq];
    [split; constructor|exact Hf|].
  split; [exact Hs|]. rewrite Hq, Hp. simpl. now rewrite app_nil_r.
Qed.

End ListSortCorrect.

(** ** The chunk loops on a working set in ascending order *)

Section AscendingWorkingSet.

Lemma part_eqb_eq (p q : vtkLSDynaPart) : part_eqb p q = true <-> p = q.
Proof.
  destruct p, q. unfold part_eqb. simpl.
  rewrite !andb_true_iff, !Z.eqb_eq, LSDYNA_TYPES_eqb_eq. split.
  - intros [[[-> ->] ->] ->]. reflexivity.
  - intros [= -> -> -> ->]. auto.
Qed.

Lemma part_eqb_refl (p : vtkLSDynaPart) : part_eqb p p = true.
Proof. now apply part_eqb_eq. Qed.

Lemma part_eqb_neq (p q : vtkLSDynaPart) : p <> q -> part_eqb p q = false.
Proof.
  intro H. destruct (part_eqb p q) eqn:E; [|reflexivity].
  apply part_eqb_eq in E. contradiction.
Qed.

Lemma deliveries_app p k (e1 e2 : list PartEvent) :
  deliveries p k (e1 ++ e2) = (deliveries p k e1 + deliveries p k e2)%nat.
Proof. unfold deliveries. now rewrite filter_app, length_app. Qed.

Lemma deliveries_cons_call p k q c a b d (e : list PartEvent) :
  deliveries p k ((q, ReadPointBasedProperty c a b d) :: e) =
  ((if part_eqb q p && Nat.eqb c k then 1 else 0) + deliveries p k e)%nat.
Proof.
  unfold deliveries. simpl. now destruct (part_eqb q p && Nat.eqb c k).
Qed.

Lemma deliveries_outside p k lo hi (evs : list PartEvent) :
  chunksWithin lo hi evs -> (k < lo \/ hi <= k)%nat -> deliveries p k evs = 0%nat.
Proof.
  intros H Hk. induction H as [|[q call] evs Hc _ IH]; [reflexivity|].
  unfold deliveries in *. simpl.
  destruct call; simpl in *; rewrite ?andb_false_r; try exact IH.
  replace (Nat.eqb chunk k) with false by (symmetry; apply Nat.eqb_neq; lia).
  now rewrite andb_false_r.
Qed.

Lemma deliver_chunksWithin range chunk numComps offset :
  chunksWithin chunk (S chunk)
               (ReadPointProperty_deliver range chunk numComps offset).
Proof.
  induction range as [|q rest IH]; simpl; [constructor|].
  destruct (GetMinGlobalPointId q <? offset + numPointsToRead);
    constructor; [simpl; lia|exact IH].
Qed.

Lemma deliver_absent p range chunk numComps offset :
  ~ In p range ->
  deliveries p chunk (ReadPointProperty_deliver range chunk numComps offset)
  = 0%nat.
Proof.
  induction range as [|q rest IH]; intro Hn; [reflexivity|]. simpl.
  destruct (GetMinGlobalPointId q <? offset + numPointsToRead); [|reflexivity].
  rewrite deliveries_cons_call, IH by (intro; apply Hn; now right).
  rewrite part_eqb_neq; [reflexivity|]. intros ->. apply Hn. now left.
Qed.

(** The second loop of a chunk reaches every part of the working set that
    starts before the end of the chunk, once. *)
Lemma deliver_once p range chunk numComps offset :
  StronglySorted rangeLe range -> NoDup range -> In p range ->
  GetMinGlobalPointId p < offset + numPointsToRead ->
  deliveries p chunk (ReadPointProperty_deliver range chunk numComps offset)
  = 1%nat.
Proof.
  induction range as [|q rest IH]; intros Hs Hd Hin Hmin; [contradiction|].
  apply StronglySorted_inv in Hs as [Hs Hq].
  inversion Hd as [|? ? Hnq Hdr]; subst. simpl.
  assert (Hqmin : (GetMinGlobalPointId q <? offset + numPointsToRead) = true).
  { apply Z.ltb_lt. destruct Hin as [->|Hin]; [exact Hmin|].
    rewrite Forall_forall in Hq. destruct (Hq p Hin). lia. }
  rewrite Hqmin, deliveries_cons_call, Nat.eqb_refl, andb_true_r.
  destruct Hin as [->|Hin].
  - rewrite part_eqb_refl, deliver_absent by exact Hnq. reflexivity.
  - rewrite part_eqb_neq by (intros ->; contradiction).
    now rewrite IH.
Qed.

(** The first loop of a chunk drops a front of the working set, all of it
    parts that end before the chunk starts. *)
Lemma evict_spec (working : list vtkLSDynaPart) (offset : vtkIdType) :
  exists gone,
    working = gone ++ ReadPointProperty_evict working offset /\
    Forall (fun p => GetMaxGlobalPointId p < offset) gone.
Proof.
  induction working as [|q rest (gone & Heq & Hg)]; [now exists []|]. simpl.
  destruct (GetMaxGlobalPointId q <? offset) eqn:E.
  - exists (q :: gone). split; [simpl; now f_equal|].
    constructor; [now apply Z.ltb_lt|exact Hg].
  - now exists [].
Qed.

Lemma evict_keeps p working offset :
  In p working -> offset <= GetMaxGlobalPointId p ->
  In p (ReadPointProperty_evict working offset).
Proof.
  intros Hin Hmax. destruct (evict_spec working offset) as (gone & Heq & Hg).
  rewrite Heq in Hin. apply in_app_or in Hin as [Hin|Hin]; [|exact Hin].
  rewrite Forall_forall in Hg. apply Hg in Hin. lia.
Qed.

Lemma evict_sorted working offset :
  StronglySorted rangeLe working ->
  StronglySorted rangeLe (ReadPointProperty_evict working offset).
Proof.
  induction working as [|q rest IH]; intro Hs; [constructor|]. simpl.
  destruct (GetMaxGlobalPointId q <? offset); [|exact Hs].
  apply IH. now apply StronglySorted_inv in Hs.
Qed.

Lemma evict_NoDup working offset :
  NoDup working -> NoDup (ReadPointProperty_evict working offset).
Proof.
  induction working as [|q rest IH]; intro Hd; [constructor|]. simpl.
  destruct (GetMaxGlobalPointId q <? offset); [|exact Hd].
  apply IH. now inversion Hd.
Qed.

Lemma ReadPointProperty_loop_S n j f working numComps offset :
  ReadPointProperty_loop (S n) j f working numComps offset =
  let working1 := ReadPointProperty_evict working offset in
  let r := ReadPointProperty_loop n (S j)
             (BufferChunk f (numPointsToRead * numComps)) working1 numComps
             (offset + numPointsToRead) in
  (fst (fst (fst r)), snd (fst (fst r)), snd (fst r),
   ReadPointProperty_deliver working1 j numComps offset ++ snd r).
Proof.
  simpl. now destruct (ReadPointProperty_loop _ _ _ _ _ _) as [[[f2 w] o] evs].
Qed.

(** The loop over the full chunks: where it leaves [offset] and the
    working set, and which chunks its calls are about. *)
Lemma ReadPointProperty_loop_frame (n : nat) : forall j f working numComps offset,
  let r := ReadPointProperty_loop n j f working numComps offset in
  snd (fst r) = offset + Z.of_nat n * numPointsToRead /\
  chunksWithin j (j + n) (snd r) /\
  (StronglySorted rangeLe working -> StronglySorted rangeLe (snd (fst (fst r)))) /\
  (NoDup working -> NoDup (snd (fst (fst r)))) /\
  (forall p, In p working ->
             offset + Z.of_nat n * numPointsToRead <= GetMaxGlobalPointId p ->
             In p (snd (fst (fst r)))).
Proof.
  assert (HN : 0 < numPointsToRead) by reflexivity.
  induction n as [|n IH]; intros j f working numComps offset.
  - simpl. split; [lia|]. split; [constructor|]. auto.
  - cbv zeta. rewrite ReadPointProperty_loop_S. cbv zeta.
    specialize (IH (S j) (BufferChunk f (numPointsToRead * numComps))
                   (ReadPointProperty_evict working offset) numComps
                   (offset + numPointsToRead)).
    cbv zeta in IH. destruct IH as (Ho & Hc & Hs & Hd & Hk).
    cbn [fst snd]. split; [rewrite Ho; lia|]. split; [|split; [|split]].
    + apply Forall_app. split.
      * eapply Forall_impl; [|apply deliver_chunksWithin].
        intros [q call]; destruct call; simpl; auto. lia.
      * eapply Forall_impl; [|exact Hc].
        intros [q call]; destruct call; simpl; auto. lia.
    + intro H. now apply Hs, evict_sorted.
    + intro H. now apply Hd, evict_NoDup.
    + intros p Hin Hmax. apply Hk; [apply evict_keeps; [exact Hin|lia]|lia].
Qed.

(** On a working set in ascending order without repetition, the loop over
    the full chunks hands every chunk, once, to every part whose range
    meets it. *)
Lemma ReadPointProperty_loop_ascending (n : nat) :
  forall j f working numComps offset p k,
  StronglySorted rangeLe working -> NoDup working -> In p working ->
  (k < n)%nat ->
  intersects p (offset + Z.of_nat k * numPointsToRead) numPointsToRead = true ->
  deliveries p (j + k)
             (snd (ReadPointProperty_loop n j f working numComps offset))
  = 1%nat.
Proof.
  assert (HN : 0 < numPointsToRead) by reflexivity.
  induction n as [|n IH]; intros j f working numComps offset p k Hs Hd Hin Hk Hint;
    [lia|].
  rewrite ReadPointProperty_loop_S. cbv zeta. cbn [snd].
  rewrite deliveries_app.
  unfold intersects in Hint. apply andb_true_iff in Hint as [Hmin Hmax].
  apply Z.ltb_lt in Hmin. apply Z.leb_le in Hmax.
  assert (Hin' : In p (ReadPointProperty_evict working offset)).
  { apply evict_keeps; [exact Hin|lia]. }
  destruct k as [|k].
  - rewrite Nat.add_0_r. simpl in Hmin.
    rewrite deliver_once;
      [|now apply evict_sorted|now apply evict_NoDup|exact Hin'|lia].
    rewrite (deliveries_outside p j (S j) (S j + n)); [reflexivity| |lia].
    apply ReadPointProperty_loop_frame.
  - rewrite (deliveries_outside p (j + S k) j (S j));
      [|apply deliver_chunksWithin|lia].
    replace (j + S k)%nat with (S j + k)%nat by lia.
    apply IH; [now apply evict_sorted|now apply evict_NoDup|exact Hin'|lia|].
    unfold intersects. apply andb_true_iff. split.
    + apply Z.ltb_lt. lia.
    + apply Z.leb_le. lia.
Qed.

Lemma last_chunk_absent p k a b d (working : list vtkLSDynaPart) :
  ~ In p working ->
  deliveries p k (map (fun q => (q, ReadPointBasedProperty k a b d)) working)
  = 0%nat.
Proof.
  induction working as [|q rest IH]; intro Hn; [reflexivity|]. simpl.
  rewrite deliveries_cons_call, IH by (intro; apply Hn; now right).
  rewrite part_eqb_neq; [reflexivity|]. intros ->. apply Hn. now left.
Qed.

Lemma last_chunk_once p k a b d (working : list vtkLSDynaPart) :
  NoDup working -> In p working ->
  deliveries p k (map (fun q => (q, ReadPointBasedProperty k a b d)) working)
  = 1%nat.
Proof.
  induction working as [|q rest IH]; intros Hd Hin; [contradiction|].
  inversion Hd as [|? ? Hnq Hdr]; subst. simpl.
  rewrite deliveries_cons_call, Nat.eqb_refl, andb_true_r.
  destruct Hin as [->|Hin].
  - now rewrite part_eqb_refl, last_chunk_absent.
  - rewrite part_eqb_neq by (intros ->; contradiction). now rewrite IH.
Qed.

Lemma last_chunk_within k a b d (working : list vtkLSDynaPart) :
  chunksWithin k (S k)
    (map (fun q => (q, ReadPointBasedProperty k a b d)) working).
Proof. induction working; constructor; [simpl; lia|assumption]. Qed.

Lemma rangeLe_trans p q r : rangeLe p q -> rangeLe q r -> rangeLe p r.
Proof. unfold rangeLe. lia. Qed.

(** On parts none of which is nested in another, the comparator decides
    [rangeLe]. *)
Lemma sortPartsOnGlobalIds_orders (parts : list vtkLSDynaPart) :
  nestFree parts ->
  (forall a b, In a parts -> In b parts ->
               sortPartsOnGlobalIds b a = false -> rangeLe a b) /\
  (forall a b, In a parts -> In b parts ->
               sortPartsOnGlobalIds b a = true -> rangeLe b a).
Proof.
  intro Hn. split; intros a b Ha Hb; unfold sortPartsOnGlobalIds, rangeLe.
  - destruct (GetMinGlobalPointId b <? GetMinGlobalPointId a) eqn:E1;
      [discriminate|].
    destruct (GetMaxGlobalPointId b <? GetMaxGlobalPointId a) eqn:E2;
      [discriminate|].
    apply Z.ltb_ge in E1, E2. lia.
  - pose proof (Hn a b Ha Hb) as Hab. pose proof (Hn b a Hb Ha) as Hba.
    unfold nested in Hab, Hba.
    destruct (GetMinGlobalPointId b <? GetMinGlobalPointId a) eqn:E1.
    + apply Z.ltb_lt in E1. lia.
    + destruct (GetMaxGlobalPointId b <? GetMaxGlobalPointId a) eqn:E2;
        [|discriminate].
      apply Z.ltb_ge in E1. apply Z.ltb_lt in E2. lia.
Qed.

Lemma back_nonempty {A : Type} (l : list A) : l <> [] -> exists x, back l = Some x.
Proof.
  intro H. destruct (back l) as [x|] eqn:E; [now exists x|].
  apply back_None in E. contradiction.
Qed.

(** What the pass does by design: on parts with no repetition and none
    nested in another, the sort yields an ascending working set and every
    chunk of the pass, the last partial one included, reaches every part
    whose range meets it exactly once. *)
Lemma ReadPointProperty_nestFree (c : vtkLSDynaPartCollection)
  (numTuples numComps : vtkIdType) (parts : list vtkLSDynaPart) :
  parts <> [] -> NoDup parts -> nestFree parts ->
  exists front bk c' evs,
    hd_error (list_sort sortPartsOnGlobalIds parts) = Some front /\
    back (list_sort sortPartsOnGlobalIds parts) = Some bk /\
    ReadPointProperty c numTuples numComps parts = Ok (c', evs) /\
    forall p chunk offset size,
      In p parts ->
      In (chunk, offset, size)
         (ReadPointProperty_chunks
            (GetMinGlobalPointId front)
            (Z.to_nat (Z.quot (GetMaxGlobalPointId bk - GetMinGlobalPointId front)
                              numPointsToRead))
            (Z.rem (GetMaxGlobalPointId bk - GetMinGlobalPointId front)
                   numPointsToRead)) ->
      intersects p offset size = true ->
      deliveries p chunk evs = 1%nat.
Proof.
  intros Hne Hd Hn.
  destruct (sortPartsOnGlobalIds_orders parts Hn) as [Hf Ht].
  destruct (list_sort_spec sortPartsOnGlobalIds rangeLe (fun x => In x parts)
              rangeLe_trans Hf Ht parts) as [Hs Hp].
  { now apply Forall_forall. }
  set (sorted := list_sort sortPartsOnGlobalIds parts) in *.
  assert (Hds : NoDup sorted).
  { apply (Permutation_NoDup (Permutation_sym Hp)), Hd. }
  destruct sorted as [|front tl] eqn:Es.
  { apply Permutation_nil in Hp. contradiction. }
  destruct (back_nonempty (front :: tl)) as [bk Hb]; [discriminate|].
  unfold ReadPointProperty. fold sorted. rewrite Es, Hb.
  set (first := GetMinGlobalPointId front).
  set (real := GetMaxGlobalPointId bk - first).
  set (loopTimes := Z.to_nat (Z.quot real numPointsToRead)).
  set (f0 := SkipWords _ _).
  pose proof (ReadPointProperty_loop_frame loopTimes 0 f0 (front :: tl)
                numComps first) as Hframe.
  pose proof (ReadPointProperty_loop_ascending loopTimes 0 f0 (front :: tl)
                numComps first) as Hasc.
  cbv zeta in Hframe.
  destruct (ReadPointProperty_loop loopTimes 0 f0 (front :: tl) numComps first)
    as [[[f1 working] offset'] evs] eqn:EL.
  cbn [fst snd] in Hframe, Hasc.
  destruct Hframe as (Ho & Hc & _ & Hdw & Hk). specialize (Hdw Hds).
  exists front, bk. eexists. eexists.
  split; [reflexivity|]. split; [reflexivity|]. split; [reflexivity|].
  intros p chunk offset size Hin Hchunk Hint.
  assert (Hin' : In p (front :: tl)).
  { apply (Permutation_in p (Permutation_sym Hp)), Hin. }
  unfold ReadPointProperty_chunks in Hchunk.
  rewrite deliveries_app.
  apply in_app_or in Hchunk as [Hfull|Hlast].
  - apply in_map_iff in Hfull as (j & [= <- <- <-] & Hj).
    apply in_seq in Hj.
    assert (Hj' : (j < loopTimes)%nat) by (subst loopTimes real first; lia).
    pose proof (Hasc p j Hs Hds Hin' Hj' Hint) as Hone. simpl in Hone.
    rewrite Hone.
    rewrite (deliveries_outside p j loopTimes (S loopTimes));
      [reflexivity|apply last_chunk_within|lia].
  - destruct Hlast as [[= <- <- <-]|[]].
    rewrite (deliveries_outside p loopTimes 0 (0 + loopTimes));
      [|exact Hc|lia].
    apply last_chunk_once; [exact Hdw|].
    apply Hk; [exact Hin'|].
    unfold intersects in Hint. apply andb_true_iff in Hint as [_ Hmax].
    now apply Z.leb_le in Hmax.
Qed.

End AscendingWorkingSet.

(** ** The pass on nested parts *)

Section PointPropertyStream.

(** C1, on the code.  [partA] holds the points 1 to 10000000, [partB],
    nested in it, the points 5000000 to 6000000.  The comparator puts
    each of the two before the other, and the sort leaves [partB] in front
    of [partA]; the first chunk, the points 0 to 1048575, reaches
    [partLow], the loop stops at [partB], which starts after the chunk,
    and [partA], which has points in the chunk, is never handed it. *)
Theorem ReadPointProperty_misses_nested_part :
  list_sort sortPartsOnGlobalIds [partLow; partA; partB]
    = [partLow; partB; partA] /\
  exists c' evs,
    ReadPointProperty demoCollection 10000001 3 [partLow; partA; partB]
      = Ok (c', evs) /\
    In (partLow, ReadPointBasedProperty 0 numPointsToRead 3 0) evs /\
    intersects partA 0 numPointsToRead = true /\
    deliveries partA 0 evs = 0%nat.
Proof.
  split; [reflexivity|].
  eexists. eexists. split; [reflexivity|].
  split; [left; reflexivity|]. split; reflexivity.
Qed.

End PointPropertyStream.


(** * Further properties *)

(** ** The index as a run-length encoding *)

Section RunLength.

Lemma materials_app (l1 l2 : list PartInfo) :
  materials (l1 ++ l2) = materials l1 ++ materials l2.
Proof. unfold materials. apply flat_map_app. Qed.

Lemma coalesced_snoc_same (pre : list PartInfo) (last last' : PartInfo) :
  partId last' = partId last ->
  coalesced (pre ++ [last]) -> coalesced (pre ++ [last']).
Proof.
  intro He. induction pre as [|a pre IH]; [auto|].
  destruct pre as [|a' pre]; simpl in *.
  - intros [H _]. split; [congruence|exact I].
  - intros [H Hr]. split; [exact H|]. now apply IH.
Qed.

Lemma coalesced_push (pre : list PartInfo) (last new : PartInfo) :
  partId last <> partId new ->
  coalesced (pre ++ [last]) -> coalesced (pre ++ [last; new]).
Proof.
  intro Hn. induction pre as [|a pre IH].
  - simpl. auto.
  - destruct pre as [|a' pre]; simpl in *.
    + intros [H _]. auto.
    + intros [H Hr]. split; [exact H|]. now apply IH.
Qed.

Lemma registered_wellKept st t m npts blocks' :
  registered st t m npts blocks' ->
  wellKept (Parts st) (Info st t) ->
  wellKept (Parts st) blocks' /\
  materials blocks' = materials (Info st t) ++ [m].
Proof.
  intros [pre last E Hm ->|pre last p E Hm Hp ->|p E Hp ->]; rewrite E;
    intros [Hf Hc].
  - apply Forall_app in Hf as [Hpre Hlast].
    inversion Hlast as [|? ? [Hpos Hslot] _]; subst.
    split; [split|].
    + apply Forall_app. split; [exact Hpre|]. constructor; [|constructor].
      simpl. split; [lia|exact Hslot].
    + now apply coalesced_snoc_same with last.
    + rewrite !materials_app, <- app_assoc. f_equal.
      unfold materials. simpl. rewrite !app_nil_r.
      replace (Z.to_nat (numCells last + 1)) with (Z.to_nat (numCells last) + 1)%nat
        by lia.
      now rewrite repeat_app.
  - split; [split|].
    + replace (pre ++ [last; PartInfo_new p m (startId last + numCells last) npts])
        with ((pre ++ [last])
              ++ [PartInfo_new p m (startId last + numCells last) npts])
        by now rewrite <- app_assoc.
      apply Forall_app. split; [exact Hf|]. constructor; [|constructor].
      simpl. split; [lia|exact Hp].
    + now apply coalesced_push.
    + replace (pre ++ [last; PartInfo_new p m (startId last + numCells last) npts])
        with ((pre ++ [last])
              ++ [PartInfo_new p m (startId last + numCells last) npts])
        by now rewrite <- app_assoc.
      now rewrite materials_app.
  - split; [split|].
    + constructor; [|constructor]. simpl. split; [lia|exact Hp].
    + exact I.
    + reflexivity.
Qed.

Lemma RegisterCells_wellKept (calls : list CellReg) : forall st0 st t,
  RegisterCells st0 calls = Ok st ->
  wellKept (Parts st0) (Info st0 t) ->
  wellKept (Parts st0) (Info st t) /\
  materials (Info st t) =
    materials (Info st0 t) ++ map regMatId (callsOfType t calls) /\
  CellInsertionIterators st = CellInsertionIterators st0.
Proof.
  induction calls as [|c calls IH]; intros st0 st t H Hw.
  - injection H as <-. simpl. now rewrite app_nil_r.
  - simpl in H.
    destruct (RegisterCell st0 (regType c) (regMatId c) (regNpts c))
      as [st1|] eqn:E1; [|discriminate].
    simpl in H.
    destruct (RegisterCell_registered _ _ _ _ _ E1) as (Hreg & Hoth & HP & _).
    assert (Hcur : CellInsertionIterators st1 = CellInsertionIterators st0).
    { unfold RegisterCell in E1.
      destruct (back (Info st0 (regType c))) as [info|];
        [destruct (partId info =? regMatId c)|];
        try (destruct (array_get (Parts st0) (regMatId c)); [|discriminate]);
        simpl in E1; injection E1 as <-; reflexivity. }
    unfold callsOfType. simpl.
    destruct (LSDYNA_TYPES_eqb (regType c) t) eqn:Et.
    + apply LSDYNA_TYPES_eqb_eq in Et. subst t.
      destruct (registered_wellKept _ _ _ _ _ Hreg Hw) as [Hw1 Hm1].
      rewrite <- HP in Hw1.
      destruct (IH st1 st (regType c) H Hw1) as (Hw2 & Hm2 & Hc2).
      rewrite HP in Hw2. split; [exact Hw2|]. split; [|congruence].
      rewrite Hm2, Hm1, <- app_assoc. reflexivity.
    + assert (Ht : t <> regType c).
      { intros ->. now rewrite LSDYNA_TYPES_eqb_refl in Et. }
      rewrite <- (Hoth t Ht), <- HP in Hw.
      destruct (IH st1 st t H Hw) as (Hw2 & Hm2 & Hc2).
      rewrite HP in Hw2. rewrite (Hoth t Ht) in Hm2.
      split; [exact Hw2|]. split; [exact Hm2|congruence].
Qed.

(** X1.  The index is the run-length encoding of the registrations:
    written out block by block, the blocks of a type give back the
    material of every [RegisterCell] call made for the type, in call
    order, and no two neighbouring blocks are of the same material. *)
Theorem RegisterCells_run_length (calls : list CellReg)
  (st0 st : LSDynaPartStorage) (t : LSDYNA_TYPES) :
  unregistered st0 -> RegisterCells st0 calls = Ok st ->
  materials (Info st t) = map regMatId (callsOfType t calls) /\
  coalesced (Info st t).
Proof.
  intros H0 H.
  destruct (RegisterCells_wellKept calls st0 st t H) as ([_ Hc] & Hm & _).
  { rewrite H0. split; [constructor|exact I]. }
  rewrite H0 in Hm. now split.
Qed.

End RunLength.

(** ** From registration to insertion *)

Section RegisterThenInsert.


Lemma wellKept_positive ps blocks :
  wellKept ps blocks -> Forall (fun b => 0 < numCells b) blocks.
Proof.
  intros [Hf _]. eapply Forall_impl; [|exact Hf]. simpl. tauto.
Qed.

Lemma unregistered_wellKept st0 t : unregistered st0 ->
  wellKept (Parts st0) (Info st0 t).
Proof. intro H0. rewrite H0. split; [constructor|exact I]. Qed.


Lemma InsertCells_snoc_fault (cells : list Cell) : forall st t c st1 evs,
  InsertCells st t cells = Ok (st1, evs) ->
  InsertCell st1 t c = OutOfBounds ->
  InsertCells st t (cells ++ [c]) = OutOfBounds.
Proof.
  induction cells as [|c0 cells IH]; intros st t c st1 evs H Hc.
  - injection H as <- <-. simpl. now rewrite Hc.
  - simpl in *. destruct (InsertCell st t c0) as [[st2 e2]|]; [|discriminate].
    simpl in *.
    destruct (InsertCells st2 t cells) as [[st3 e3]|] eqn:E3; [|discriminate].
    simpl in H. injection H as <- <-.
    now rewrite (IH st2 t c st3 e3 E3 Hc).
Qed.

Lemma cursorAt_end blocks cur :
  Forall (fun b => 0 < numCells b) blocks ->
  cursorAt blocks cur (sumCells blocks) ->
  pIt cur = Some (length blocks).
Proof.
  intros Hpos (i & Hi & Hle & Hk & Hn & Hb & Hend).
  destruct (nth_error blocks i) as [b|] eqn:Eb.
  - specialize (Hb b eq_refl).
    pose proof (sumCells_firstn_S _ _ _ Eb) as HS.
    assert (Hsk : 0 <= sumCells (skipn (S i) blocks)).
    { apply sumCells_nonneg. rewrite <- (firstn_skipn (S i)) in Hpos.
      now apply Forall_app in Hpos. }
    pose proof (sumCells_app (firstn (S i) blocks) (skipn (S i) blocks)) as Happ.
    rewrite firstn_skipn in Happ. lia.
  - apply nth_error_None in Eb. rewrite Hi. f_equal. lia.
Qed.

(** X3.  One cell too many: after as many [InsertCell] calls as the type
    has registered cells, one more call dereferences the cursor at the end
    of the block list; for a type without any registered cell the very
    first call dereferences the singular iterator the constructor left. *)
Theorem InsertCell_one_too_many (calls : list CellReg)
  (st0 st : LSDynaPartStorage) (t : LSDYNA_TYPES) (cells : list Cell) (c : Cell) :
  pristine st0 -> RegisterCells st0 calls = Ok st ->
  length cells = length (callsOfType t calls) ->
  InsertCells (InitCellInsertion st) t (cells ++ [c]) = OutOfBounds.
Proof.
  intros [H0 Hcur] H Hlen.
  destruct (RegisterCells_wellKept calls st0 st t H
              (unregistered_wellKept st0 t H0)) as (Hw & _ & Hc).
  apply wellKept_positive in Hw.
  destruct (RegisterCells_invariant calls st0 st t H) as (_ & Hsum & _).
  rewrite H0 in Hsum. change (sumCells []) with 0 in Hsum.
  destruct (InsertCells_prefix st t cells Hw) as (st' & E & HI & Hat); [lia|].
  apply (InsertCells_snoc_fault _ _ _ _ _ _ E).
  unfold InsertCell. destruct (Info st t) as [|b rest] eqn:Eb.
  - destruct cells as [|c0 cells].
    + simpl in E. injection E as <-. simpl. rewrite Eb, Hc, Hcur. reflexivity.
    + unfold sumCells, Zsum in Hsum. simpl in *. lia.
  - assert (Hne : b :: rest <> []) by discriminate.
    specialize (Hat Hne).
    replace (Z.of_nat (length cells)) with (sumCells (b :: rest)) in Hat by lia.
    rewrite (cursorAt_end _ _ Hw Hat), HI, Eb.
    now rewrite (proj2 (nth_error_None (b :: rest) (length (b :: rest))))
      by lia.
Qed.

End RegisterThenInsert.

(** ** The read cursor *)

Section ReadCursor.

Lemma contiguous_end_le (blocks : list PartInfo) : forall g b rest,
  contiguous g (b :: rest) ->
  blocks = b :: rest ->
  startId b + numCells b <= g + sumCells blocks.
Proof.
  intros g b rest Hc ->. destruct Hc as (Hs & Hp & Hr).
  rewrite sumCells_cons.
  pose proof (sumCells_nonneg rest (contiguous_positive _ _ Hr)). lia.
Qed.

(** X4.  Where [InitCellIteration(partType, pos)] leaves the read cursor
    for an [int] [pos] on a registered index none of whose blocks has
    more cells than an [int] holds: on the first block for [pos <= 0]; for
    [0 < pos] up to the number of cells, on the block that holds cell
    [pos - 1], so that a [pos] on a block boundary stays on the block that
    ends there; past the last block beyond that.  [GetNextCellPart] then
    hands out that block. *)
Theorem InitCellIteration_position (calls : list CellReg)
  (st0 st : LSDynaPartStorage) (t : LSDYNA_TYPES) (pos : Z) :
  unregistered st0 -> RegisterCells st0 calls = Ok st ->
  fitsInt pos -> intBlocks (Info st t) ->
  (pos <= 0 -> CellIterator (InitCellIteration st t pos) = Info st t) /\
  (0 < pos <= sumCells (Info st t) ->
   exists passed b rest,
     Info st t = passed ++ b :: rest /\
     CellIterator (InitCellIteration st t pos) = b :: rest /\
     startId b < pos <= startId b + numCells b /\
     fst (GetNextCellPart (InitCellIteration st t pos))
       = Some (startId b, numCells b, part b)) /\
  (sumCells (Info st t) < pos ->
   CellIterator (InitCellIteration st t pos) = [] /\
   fst (GetNextCellPart (InitCellIteration st t pos)) = None).
Proof.
  intros H0 H Hfit Hint.
  pose proof (RegisterCells_contiguous calls st0 st t H0 H) as Hc.
  destruct (InitCellIteration_loop_spec pos _ 0 Hc Hint)
    as (passed & Heq & Hpassed & Hcont & Hhead);
    [unfold fitsInt in Hfit; lia|].
  rewrite Z.sub_0_r in *. simpl in Hcont.
  assert (Hcp : contiguous 0 passed).
  { rewrite Heq in Hc. now apply contiguous_app in Hc. }
  assert (Htot : sumCells (Info st t)
                 = sumCells passed
                   + sumCells (InitCellIteration_loop (Info st t) pos)).
  { rewrite Heq at 1. apply sumCells_app. }
  assert (Hpe : passed <> [] -> sumCells passed < pos).
  { intro Hne. destruct (exists_last Hne) as (pre & lst & ->).
    apply Forall_app in Hpassed as [_ Hl]. inversion Hl as [|? ? Hlt _]; subst.
    apply contiguous_app in Hcp as [_ Hcl]. destruct Hcl as (Hs & _ & _).
    rewrite sumCells_app. unfold sumCells at 2. unfold Zsum. simpl. lia. }
  unfold InitCellIteration, GetNextCellPart. simpl.
  split; [|split].
  - intro Hpos. destruct (Info st t) as [|a rest]; [reflexivity|]. simpl.
    now replace (0 <? pos) with false by (symmetry; apply Z.ltb_ge; lia).
  - intros [Hlo Hhi].
    destruct (InitCellIteration_loop (Info st t) pos) as [|b rest] eqn:E.
    + exfalso. change (sumCells []) with 0 in Htot.
      destruct passed as [|p0 passed']; [simpl in Heq|].
      * rewrite Heq in Hhi. change (sumCells []) with 0 in Hhi. lia.
      * assert (sumCells (p0 :: passed') < pos) by (apply Hpe; discriminate).
        lia.
    + exists passed, b, rest. split; [exact Heq|]. split; [reflexivity|].
      split; [|reflexivity].
      specialize (Hhead b rest eq_refl). destruct Hcont as (Hs & Hp & _).
      split; [|exact Hhead].
      destruct passed as [|p0 passed'].
      * change (sumCells []) with 0 in Hs. lia.
      * assert (sumCells (p0 :: passed') < pos) by (apply Hpe; discriminate).
        lia.
  - intro Hgt.
    destruct (InitCellIteration_loop (Info st t) pos) as [|b rest] eqn:E;
      [now split|].
    exfalso. specialize (Hhead b rest eq_refl).
    pose proof (contiguous_end_le _ _ _ _ Hcont eq_refl). lia.
Qed.



End ReadCursor.

(** ** The part directory, once more *)

Section Directory.

Lemma array_set_spec {A : Type} (a : list A) : forall i x,
  (i < length a)%nat ->
  exists a', array_set a i x = Ok a' /\ length a' = length a /\
             nth_error a' i = Some x /\
             forall j, j <> i -> nth_error a' j = nth_error a j.
Proof.
  induction a as [|y a IH]; intros i x Hi; [simpl in Hi; lia|].
  destruct i as [|i].
  - exists (x :: a). repeat split. intros [|j] Hj; [contradiction|reflexivity].
  - destruct (IH i x) as (a' & E & Hl & Hn & Ho); [simpl in Hi; lia|].
    exists (y :: a'). simpl. rewrite E. simpl. repeat split; auto.
    intros [|j] Hj; [reflexivity|]. simpl. apply Ho. congruence.
Qed.

Lemma array_set_outside {A : Type} (a : list A) : forall i x,
  (length a <= i)%nat -> array_set a i x = OutOfBounds.
Proof.
  induction a as [|y a IH]; intros i x Hi; [now destruct i|].
  destruct i as [|i]; [simpl in Hi; lia|].
  simpl. rewrite IH; [reflexivity|simpl in Hi; lia].
Qed.

Lemma PartExists_is_part (st : LSDynaPartStorage) (index : vtkIdType) :
  length (Parts st) = Z.to_nat (NumParts st) -> 0 <= NumParts st ->
  index <> NumParts st ->
  PartExists st index = Ok (is_part (slotOf (Parts st) index)).
Proof.
  intros Hlen Hn Hi.
  destruct (PartExists_spec st index Hlen Hn) as (Hout & Hin & _).
  unfold slotOf, array_get.
  destruct (Z_lt_ge_dec index 0) as [Hneg|Hpos].
  - rewrite Hout by lia. now replace (index <? 0) with true
      by (symmetry; apply Z.ltb_lt; lia).
  - replace (index <? 0) with false by (symmetry; apply Z.ltb_ge; lia).
    destruct (Z_lt_ge_dec index (NumParts st)) as [Hlt|Hge].
    + destruct Hin as (p & Hp & ->); [lia|]. now rewrite Hp.
    + rewrite Hout by lia.
      now rewrite (proj2 (nth_error_None (Parts st) (Z.to_nat index))) by lia.
Qed.

(** X6.  [PartExists] away from the index [NumParts]: it answers whether
    the slot holds a part, and false for every index outside the
    directory, without leaving the slot array. *)
Theorem PartExists_slot (st : LSDynaPartStorage) (index : vtkIdType) :
  length (Parts st) = Z.to_nat (NumParts st) -> 0 <= NumParts st ->
  index <> NumParts st ->
  PartExists st index = Ok (is_part (slotOf (Parts st) index)).
Proof. exact (PartExists_is_part st index). Qed.

(** X7.  [ConstructPart] and [PartExists]: constructing a part at an index
    of the directory makes [PartExists] true there and changes its answer
    nowhere else, and leaves the index of blocks alone; at an index outside
    the directory the slot array is written outside its allocation. *)
Theorem ConstructPart_then_PartExists (st : LSDynaPartStorage)
  (index : vtkIdType) (p : vtkLSDynaPart) :
  length (Parts st) = Z.to_nat (NumParts st) ->
  (0 <= index < NumParts st ->
   exists st',
     ConstructPart st index p = Ok st' /\
     PartExists st' index = Ok true /\
     (forall j, j <> index -> PartExists st' j = PartExists st j) /\
     Info st' = Info st /\ NumParts st' = NumParts st /\
     length (Parts st') = length (Parts st)) /\
  (index < 0 \/ NumParts st <= index ->
   ConstructPart st index p = OutOfBounds).
Proof.
  intro Hlen. unfold ConstructPart. split.
  - intros [Hlo Hhi].
    replace (index <? 0) with false by (symmetry; apply Z.ltb_ge; lia).
    destruct (array_set_spec (Parts st) (Z.to_nat index) (Some p))
      as (ps & E & Hl & Hn & Ho); [lia|].
    rewrite E. simpl. eexists. split; [reflexivity|].
    split; [|split; [|repeat split; exact Hl]].
    + unfold PartExists, array_get. simpl.
      replace (index <? 0) with false by (symmetry; apply Z.ltb_ge; lia).
      replace (index >? NumParts st) with false
        by (symmetry; rewrite Z.gtb_ltb; apply Z.ltb_ge; lia).
      simpl. now rewrite Hn.
    + intros j Hj. unfold PartExists, array_get. simpl.
      destruct ((j <? 0) || (j >? NumParts st)) eqn:Eg; [reflexivity|].
      apply orb_false_iff in Eg as [Ej _]. rewrite Ej.
      apply Z.ltb_ge in Ej. rewrite Ho; [reflexivity|]. lia.
  - intros [Hneg|Hge].
    + now replace (index <? 0) with true by (symmetry; apply Z.ltb_lt; lia).
    + destruct (index <? 0); [reflexivity|].
      rewrite array_set_outside; [reflexivity|]. lia.
Qed.

End Directory.

(** ** The point pass and the file *)

Section PointPassFile.

Lemma ReadPointProperty_loop_FamWord (n : nat) : forall j f working numComps offset,
  FamWord (fst (fst (fst (ReadPointProperty_loop n j f working numComps offset))))
  = FamWord f + Z.of_nat n * (numPointsToRead * numComps).
Proof.
  induction n as [|n IH]; intros j f working numComps offset.
  - simpl. lia.
  - rewrite ReadPointProperty_loop_S. cbv zeta. cbn [fst snd].
    rewrite IH. cbn [BufferChunk FamWord]. lia.
Qed.

(** X8.  File-position conservation of the point pass: whatever the parts
    and however the chunks fall, [ReadPointProperty<T>] leaves the file
    exactly [numTuples * numComps] words further, provided the part at the
    front of the sorted working set does not start after the part at its
    back ends. *)
Theorem ReadPointProperty_conserves (c : vtkLSDynaPartCollection)
  (numTuples numComps : vtkIdType) (parts : list vtkLSDynaPart)
  (front bk : vtkLSDynaPart) :
  hd_error (list_sort sortPartsOnGlobalIds parts) = Some front ->
  back (list_sort sortPartsOnGlobalIds parts) = Some bk ->
  GetMinGlobalPointId front <= GetMaxGlobalPointId bk ->
  exists c' evs,
    ReadPointProperty c numTuples numComps parts = Ok (c', evs) /\
    FamWord (Fam (MetaData c'))
      = FamWord (Fam (MetaData c)) + numTuples * numComps.
Proof.
  intros Hf Hb Hle. unfold ReadPointProperty.
  destruct (list_sort sortPartsOnGlobalIds parts) as [|x tl] eqn:Es;
    [discriminate|].
  injection Hf as ->. rewrite Hb.
  set (first := GetMinGlobalPointId front) in *.
  set (real := GetMaxGlobalPointId bk - first).
  set (f0 := SkipWords _ _).
  pose proof (ReadPointProperty_loop_FamWord
                (Z.to_nat (Z.quot real numPointsToRead)) 0 f0 (front :: tl)
                numComps first) as HW.
  destruct (ReadPointProperty_loop _ 0 f0 (front :: tl) numComps first)
    as [[[f1 working] offset'] evs].
  cbn [fst snd] in HW.
  eexists. eexists. split; [reflexivity|].
  cbn [set_Fam MetaData Fam SkipWords set_FamWord BufferChunk FamWord].
  rewrite HW. subst f0. cbn [SkipWords set_FamWord FamWord].
  assert (HN : 0 < numPointsToRead) by reflexivity.
  assert (Hr : 0 <= real) by (subst real; lia).
  pose proof (Z.quot_pos real numPointsToRead Hr HN) as Hq.
  pose proof (Z.quot_rem' real numPointsToRead) as Hqr.
  rewrite Z2Nat.id by exact Hq.
  set (q := Z.quot real numPointsToRead) in *.
  set (r := Z.rem real numPointsToRead) in *.
  replace (numTuples - (real + first)) with (numTuples - (numPointsToRead * q + r + first))
    by (rewrite <- Hqr; reflexivity).
  ring.
Qed.

(** X9.  The comparator of the point pass is irreflexive, and it fails
    in both directions only between parts of the same point range: two
    parts whose ranges differ are always ordered one way or the other,
    or both. *)
Theorem sortPartsOnGlobalIds_ties (p q : vtkLSDynaPart) :
  sortPartsOnGlobalIds p p = false /\
  (sortPartsOnGlobalIds p q = false /\ sortPartsOnGlobalIds q p = false <->
   GetMinGlobalPointId p = GetMinGlobalPointId q /\
   GetMaxGlobalPointId p = GetMaxGlobalPointId q).
Proof.
  unfold sortPartsOnGlobalIds. split.
  - now rewrite !Z.ltb_irrefl.
  - destruct (GetMinGlobalPointId p <? GetMinGlobalPointId q) eqn:E1;
    destruct (GetMaxGlobalPointId p <? GetMaxGlobalPointId q) eqn:E2;
    destruct (GetMinGlobalPointId q <? GetMinGlobalPointId p) eqn:E3;
    destruct (GetMaxGlobalPointId q <? GetMaxGlobalPointId p) eqn:E4;
    rewrite ?Z.ltb_lt, ?Z.ltb_ge in *;
    split; intros [H1 H2]; try discriminate; try lia; auto.
Qed.

(** Every part the loop over the full chunks drops from the working set
    ends before the start of a chunk the loop has reached. *)
Lemma ReadPointProperty_loop_gone (n : nat) : forall j f working numComps offset,
  exists gone,
    working =
      gone ++ snd (fst (fst (ReadPointProperty_loop n j f working numComps offset)))
    /\
    Forall (fun p => exists i, (i < n)%nat /\
              GetMaxGlobalPointId p < offset + Z.of_nat i * numPointsToRead)
           gone.
Proof.
  induction n as [|n IH]; intros j f working numComps offset.
  - exists []. simpl. split; [reflexivity|constructor].
  - rewrite ReadPointProperty_loop_S. cbv zeta. cbn [fst snd].
    destruct (evict_spec working offset) as (g1 & E1 & H1).
    destruct (IH (S j) (BufferChunk f (numPointsToRead * numComps))
                 (ReadPointProperty_evict working offset) numComps
                 (offset + numPointsToRead)) as (g2 & E2 & H2).
    exists (g1 ++ g2). split.
    + rewrite <- app_assoc, <- E2. exact E1.
    + apply Forall_app. split.
      * eapply Forall_impl; [|exact H1]. intros p Hp. cbv beta in Hp.
        exists 0%nat. split; [lia|]. unfold numPointsToRead. lia.
      * eapply Forall_impl; [|exact H2]. intros p (i & Hi & Hp).
        exists (S i). split; [lia|]. unfold numPointsToRead in *. lia.
Qed.

(** X10.  Eviction in the point pass: the working set only ever loses
    parts from its front, and every part it loses has its
    [GetMaxGlobalPointId] strictly below the start of a chunk already
    reached; a part whose range reaches the offset after the last full
    chunk is still in the working set then. *)
Theorem ReadPointProperty_eviction (n j : nat) (f : LSDynaFamily)
  (working : list vtkLSDynaPart) (numComps offset : vtkIdType) :
  let kept :=
    snd (fst (fst (ReadPointProperty_loop n j f working numComps offset))) in
  exists gone,
    working = gone ++ kept /\
    Forall (fun p => exists i, (i < n)%nat /\
              GetMaxGlobalPointId p < offset + Z.of_nat i * numPointsToRead)
           gone /\
    forall p, In p working ->
              offset + Z.of_nat n * numPointsToRead <= GetMaxGlobalPointId p ->
              In p kept.
Proof.
  cbv zeta. destruct (ReadPointProperty_loop_gone n j f working numComps offset)
    as (gone & E & Hg).
  exists gone. split; [exact E|]. split; [exact Hg|].
  intros p Hin Hmax. rewrite E in Hin at 1.
  apply in_app_or in Hin as [Hin|Hin]; [|exact Hin].
  rewrite Forall_forall in Hg. destruct (Hg p Hin) as (i & Hi & Hp).
  unfold numPointsToRead in *. lia.
Qed.

(** X11.  On parts without repetition of which none is nested in
    another, the point pass reads every chunk, the last partial one
    included, into every part whose point range meets the chunk, exactly
    once. *)
Theorem ReadPointProperty_exactly_once (c : vtkLSDynaPartCollection)
  (numTuples numComps : vtkIdType) (parts : list vtkLSDynaPart) :
  parts <> [] -> NoDup parts -> nestFree parts ->
  exists front bk c' evs,
    hd_error (list_sort sortPartsOnGlobalIds parts) = Some front /\
    back (list_sort sortPartsOnGlobalIds parts) = Some bk /\
    ReadPointProperty c numTuples numComps parts = Ok (c', evs) /\
    forall p chunk offset size,
      In p parts ->
      In (chunk, offset, size)
         (ReadPointProperty_chunks
            (GetMinGlobalPointId front)
            (Z.to_nat (Z.quot (GetMaxGlobalPointId bk - GetMinGlobalPointId front)
                              numPointsToRead))
            (Z.rem (GetMaxGlobalPointId bk - GetMinGlobalPointId front)
                   numPointsToRead)) ->
      intersects p offset size = true ->
      deliveries p chunk evs = 1%nat.
Proof. exact (ReadPointProperty_nestFree c numTuples numComps parts). Qed.

End PointPassFile.

(** ** Walking the directory by part type *)

Section PartWalk.

Lemma array_get_middle {A : Type} (done : list A) (x : A) (todo : list A) :
  array_get (done ++ x :: todo) (Z.of_nat (length done)) = Ok x.
Proof.
  unfold array_get.
  replace (Z.of_nat (length done) <? 0) with false
    by (symmetry; apply Z.ltb_ge; lia).
  rewrite Nat2Z.id, nth_error_app2, Nat.sub_diag by lia. reflexivity.
Qed.

Lemma partsOfType_app t (l1 l2 : list (option vtkLSDynaPart)) :
  partsOfType t (l1 ++ l2) = partsOfType t l1 ++ partsOfType t l2.
Proof. apply flat_map_app. Qed.

Lemma length_partsOfType t (ps : list (option vtkLSDynaPart)) :
  (length (partsOfType t ps) <= length ps)%nat.
Proof.
  induction ps as [|[p|] ps IH]; simpl; [lia| |lia].
  destruct (LSDYNA_TYPES_eqb (PartType p) t); simpl; lia.
Qed.

(** The search stops at the first part of the type, if there is one. *)
Lemma PartIteration_find_spec t (todo : list (option vtkLSDynaPart)) :
  forall done,
  (partsOfType t todo = [] /\
   PartIteration_find (done ++ todo) t (Z.of_nat (length done)) (length todo)
   = Ok {| PartIterator := None; PartIteratorLoc := -1 |}) \/
  (exists skip p rest,
     todo = skip ++ Some p :: rest /\ partsOfType t skip = [] /\
     LSDYNA_TYPES_eqb (PartType p) t = true /\
     PartIteration_find (done ++ todo) t (Z.of_nat (length done)) (length todo)
     = Ok {| PartIterator := Some p;
             PartIteratorLoc := Z.of_nat (length (done ++ skip)) |}).
Proof.
  induction todo as [|slot todo IH]; intro done.
  - left. now split.
  - simpl PartIteration_find. rewrite array_get_middle. simpl bind.
    assert (Hnext : forall r,
      PartIteration_find (done ++ slot :: todo) t (Z.of_nat (length done) + 1)
                         (length todo) = r ->
      PartIteration_find ((done ++ [slot]) ++ todo) t
                         (Z.of_nat (length (done ++ [slot]))) (length todo) = r).
    { intros r <-. rewrite <- app_assoc, length_app. simpl.
      f_equal. lia. }
    assert (Hskip : partsOfType t [slot] = [] ->
      (partsOfType t (slot :: todo) = [] /\
       PartIteration_find (done ++ slot :: todo) t (Z.of_nat (length done) + 1)
                          (length todo)
       = Ok {| PartIterator := None; PartIteratorLoc := -1 |}) \/
      (exists skip p rest,
         slot :: todo = skip ++ Some p :: rest /\ partsOfType t skip = [] /\
         LSDYNA_TYPES_eqb (PartType p) t = true /\
         PartIteration_find (done ++ slot :: todo) t
                            (Z.of_nat (length done) + 1) (length todo)
         = Ok {| PartIterator := Some p;
                 PartIteratorLoc := Z.of_nat (length (done ++ skip)) |})).
    { intro Hs. destruct (IH (done ++ [slot])) as [[Hn E]|(skip & p & rest & Ht & Hk & Hp & E)].
      - left. split.
        + change (slot :: todo) with ([slot] ++ todo).
          now rewrite partsOfType_app, Hs, Hn.
        + rewrite <- E. symmetry. now apply Hnext.
      - right. exists (slot :: skip), p, rest. split; [now rewrite Ht|].
        split.
        + change (slot :: skip) with ([slot] ++ skip).
          now rewrite partsOfType_app, Hs, Hk.
        + split; [exact Hp|].
          replace (done ++ slot :: skip) with ((done ++ [slot]) ++ skip)
            by now rewrite <- app_assoc.
          rewrite <- E. symmetry. now apply Hnext. }
    destruct slot as [p|]; [|now apply Hskip].
    destruct (LSDYNA_TYPES_eqb (PartType p) t) eqn:Ep.
    + right. exists [], p, todo. rewrite app_nil_r. auto.
    + apply Hskip. simpl. now rewrite Ep.
Qed.

Lemma GetNextPart_while_spec (st : LSDynaPartStorage) t (fuel : nat) :
  forall done p rest,
  Parts st = done ++ Some p :: rest ->
  length (Parts st) = Z.to_nat (NumParts st) ->
  LSDYNA_TYPES_eqb (PartType p) t = true ->
  (length (partsOfType t rest) + 1 < fuel)%nat ->
  GetNextPart_while fuel st
    {| PartIterator := Some p; PartIteratorLoc := Z.of_nat (length done) |}
  = Ok (Some (p :: partsOfType t rest)).
Proof.
  induction fuel as [|fuel IH]; intros done p rest Hps Hlen Hp Hfuel; [lia|].
  simpl. unfold GetNextPart. simpl.
  apply LSDYNA_TYPES_eqb_eq in Hp as Hpt.
  assert (Hn : Z.to_nat (NumParts st - (Z.of_nat (length done) + 1))
               = length rest).
  { rewrite Hps, length_app in Hlen. simpl in Hlen. lia. }
  rewrite Hn, Hps, Hpt.
  replace (done ++ Some p :: rest) with ((done ++ [Some p]) ++ rest)
    by now rewrite <- app_assoc.
  replace (Z.of_nat (length done) + 1) with (Z.of_nat (length (done ++ [Some p])))
    by (rewrite length_app; simpl; lia).
  destruct (PartIteration_find_spec t rest (done ++ [Some p]))
    as [[Hnone ->]|(skip & p' & rest' & Hr & Hk & Hp' & ->)]; simpl.
  - rewrite Hnone. destruct fuel as [|fuel]; [simpl in Hfuel; lia|].
    reflexivity.
  - rewrite (IH ((done ++ [Some p]) ++ skip) p' rest').
    + simpl. rewrite Hr, partsOfType_app, Hk. simpl. now rewrite Hp'.
    + rewrite Hps, Hr, <- !app_assoc. reflexivity.
    + exact Hlen.
    + exact Hp'.
    + rewrite Hr, partsOfType_app, Hk in Hfuel. simpl in Hfuel.
      rewrite Hp' in Hfuel. simpl in Hfuel. lia.
Qed.

Lemma partWalk_spec (st : LSDynaPartStorage) (t : LSDYNA_TYPES) :
  length (Parts st) = Z.to_nat (NumParts st) ->
  partWalk st t = Ok (Some (partsOfType t (Parts st))).
Proof.
  intro Hlen. unfold partWalk, InitPartIteration. rewrite <- Hlen.
  destruct (PartIteration_find_spec t (Parts st) [])
    as [[Hnone E]|(skip & p & rest & Hr & Hk & Hp & E)];
    simpl in E; rewrite E; unfold bind at 1.
  - now rewrite Hnone.
  - rewrite (GetNextPart_while_spec st t _ skip p rest Hr Hlen Hp).
    + rewrite Hr, partsOfType_app, Hk. simpl. now rewrite Hp.
    + pose proof (length_partsOfType t rest). rewrite Hr, length_app. simpl.
      lia.
Qed.

(** X12.  The walk by part type, [InitPartIteration] followed by
    [GetNextPart] until it returns false, ends within one step per slot
    and hands out exactly the parts of the type that are in the
    directory, each once, in slot order; null slots and parts of other
    types are passed over. *)
Theorem partWalk_partsOfType (st : LSDynaPartStorage) (t : LSDYNA_TYPES) :
  length (Parts st) = Z.to_nat (NumParts st) ->
  partWalk st t = Ok (Some (partsOfType t (Parts st))).
Proof. exact (partWalk_spec st t). Qed.

(** X13.  [AddProperty] calls [AddCellProperty] once on every part of the
    type in the directory, in slot order, and on no other part. *)
Theorem AddProperty_calls (c : vtkLSDynaPartCollection) (type : LSDYNA_TYPES)
  (name : String.string) (offset numComps : Z) :
  length (Parts (Storage c)) = Z.to_nat (NumParts (Storage c)) ->
  AddProperty c type name offset numComps =
    Ok (Some (map (fun p => (p, AddCellProperty name offset numComps))
                  (partsOfType type (Parts (Storage c))))).
Proof.
  intro Hlen. unfold AddProperty. now rewrite partWalk_spec.
Qed.

End PartWalk.

(** ** Allocation and finalization *)

Section AllocateFinalize.

Lemma AllocateParts_loop_spec (st : LSDynaPartStorage)
  (todo : list (option vtkLSDynaPart)) : forall done,
  Parts st = done ++ todo ->
  AllocateParts_loop st (Z.of_nat (length done)) (length todo) =
  Ok (flat_map (fun slot =>
                  match slot with
                  | Some p =>
                      [(p, AllocateCellMemory
                             (fst (GetMemorySizesForPart st (PartType p) (GetPartId p)))
                             (snd (GetMemorySizesForPart st (PartType p) (GetPartId p))))]
                  | None => []
                  end) todo).
Proof.
  induction todo as [|slot todo IH]; intros done Hps; [reflexivity|].
  simpl AllocateParts_loop. rewrite Hps at 1. rewrite array_get_middle.
  simpl bind.
  replace (Z.of_nat (length done) + 1) with (Z.of_nat (length (done ++ [slot])))
    by (rewrite length_app; simpl; lia).
  rewrite (IH (done ++ [slot])) by (now rewrite <- app_assoc).
  simpl bind. destruct slot as [p|]; [|reflexivity].
  simpl flat_map.
  now destruct (GetMemorySizesForPart st (PartType p) (GetPartId p)).
Qed.

(** X14.  Allocation follows registration: [AllocateParts] calls
    [AllocateCellMemory] once on every part of the directory, in slot
    order, with the number of cells registered for the part's type and id
    and the sum of their point counts; a null slot gets no call. *)
Theorem AllocateParts_sizes (calls : list CellReg) (st0 st : LSDynaPartStorage) :
  unregistered st0 -> RegisterCells st0 calls = Ok st ->
  length (Parts st) = Z.to_nat (NumParts st) ->
  AllocateParts st = Ok (flat_map (allocationOf calls) (Parts st)).
Proof.
  intros H0 H Hlen. unfold AllocateParts. rewrite <- Hlen.
  pose proof (AllocateParts_loop_spec st (Parts st) [] eq_refl) as E.
  simpl in E. rewrite E. f_equal. apply flat_map_ext. intros [p|]; [|reflexivity].
  unfold allocationOf, GetMemorySizesForPart.
  rewrite GetMemorySizes_loop_spec.
  destruct (RegisterCells_invariant calls st0 st (PartType p) H)
    as (_ & _ & Hm & _).
  destruct (Hm (GetPartId p)) as [-> ->]. rewrite H0. reflexivity.
Qed.

Lemma array_set_middle {A : Type} (done : list A) (x y : A) (todo : list A) :
  array_set (done ++ x :: todo) (length done) y = Ok (done ++ y :: todo).
Proof.
  induction done as [|a done IH]; [reflexivity|]. simpl. now rewrite IH.
Qed.

Lemma FinalizeTopology_loop_spec (HasCells : vtkLSDynaPart -> bool)
  (todo : list (option vtkLSDynaPart)) : forall done,
  FinalizeTopology_loop HasCells (done ++ todo) (Z.of_nat (length done))
                        (length todo) =
  Ok (done ++ map (pruned HasCells) todo, flat_map (finalCallOf HasCells) todo).
Proof.
  induction todo as [|slot todo IH]; intro done;
    [simpl; now rewrite app_nil_r|].
  simpl FinalizeTopology_loop. rewrite array_get_middle. simpl bind.
  assert (Hnext : forall x,
    FinalizeTopology_loop HasCells (done ++ x :: todo)
                          (Z.of_nat (length done) + 1) (length todo) =
    Ok (done ++ x :: map (pruned HasCells) todo,
        flat_map (finalCallOf HasCells) todo)).
  { intro x. specialize (IH (done ++ [x])).
    rewrite <- app_assoc, length_app in IH. simpl in IH.
    replace (Z.of_nat (length done) + 1) with (Z.of_nat (length done + 1))
      by lia.
    rewrite IH. now rewrite <- app_assoc. }
  destruct slot as [p|]; simpl; [|apply Hnext].
  destruct (HasCells p) eqn:Ep.
  - now rewrite Hnext.
  - rewrite Nat2Z.id, array_set_middle. simpl bind. now rewrite Hnext.
Qed.

Lemma slotOf_map (f : option vtkLSDynaPart -> option vtkLSDynaPart)
  (ps : list (option vtkLSDynaPart)) (index : vtkIdType) :
  f None = None -> slotOf (map f ps) index = f (slotOf ps index).
Proof.
  intro Hf. unfold slotOf, array_get.
  destruct (index <? 0); [now rewrite Hf|].
  rewrite nth_error_map.
  destruct (nth_error ps (Z.to_nat index)) as [x|]; simpl; now rewrite ?Hf.
Qed.

(** X15.  [FinalizeTopology] prunes the directory: a part that has cells
    builds its topology and stays, a part that has none is deleted and its
    slot set to null; afterwards [PartExists] is true exactly at the slots
    that held a part with cells, and running it again changes no slot. *)
Theorem FinalizeTopology_prunes (HasCells : vtkLSDynaPart -> bool)
  (st : LSDynaPartStorage) :
  length (Parts st) = Z.to_nat (NumParts st) -> 0 <= NumParts st ->
  exists st',
    FinalizeTopology HasCells st =
      Ok (st', flat_map (finalCallOf HasCells) (Parts st)) /\
    Parts st' = map (pruned HasCells) (Parts st) /\
    Info st' = Info st /\
    (forall index, index <> NumParts st ->
       PartExists st' index =
         Ok (match slotOf (Parts st) index with
             | Some p => HasCells p
             | None => false
             end)) /\
    (exists evs, FinalizeTopology HasCells st' = Ok (st', evs)).
Proof.
  intros Hlen Hn. unfold FinalizeTopology. rewrite <- Hlen.
  pose proof (FinalizeTopology_loop_spec HasCells (Parts st) []) as E.
  simpl in E. rewrite E. simpl bind.
  eexists. split; [reflexivity|]. split; [reflexivity|].
  split; [reflexivity|]. split.
  - intros index Hi.
    destruct (PartExists_spec (set_Parts st (map (pruned HasCells) (Parts st)))
                index) as (Hout & Hin & _);
      [simpl; now rewrite length_map|exact Hn|].
    simpl in Hout, Hin.
    assert (Hs : PartExists (set_Parts st (map (pruned HasCells) (Parts st)))
                            index
                 = Ok (is_part (slotOf (map (pruned HasCells) (Parts st)) index))).
    { unfold slotOf, array_get.
      destruct (Z_lt_ge_dec index 0) as [Hneg|Hpos].
      - rewrite Hout by lia.
        now replace (index <? 0) with true by (symmetry; apply Z.ltb_lt; lia).
      - replace (index <? 0) with false by (symmetry; apply Z.ltb_ge; lia).
        destruct (Z_lt_ge_dec index (NumParts st)) as [Hlt|Hge].
        + destruct Hin as (p & Hp & ->); [lia|]. now rewrite Hp.
        + rewrite Hout by lia.
          rewrite (proj2 (nth_error_None _ (Z.to_nat index)));
            [reflexivity|rewrite length_map; lia]. }
    rewrite Hs, slotOf_map by reflexivity.
    destruct (slotOf (Parts st) index) as [p|]; [|reflexivity].
    simpl. now destruct (HasCells p).
  - simpl. rewrite <- Hlen, <- (length_map (pruned HasCells)).
    pose proof (FinalizeTopology_loop_spec HasCells
                  (map (pruned HasCells) (Parts st)) []) as E2.
    simpl in E2. rewrite E2. simpl bind. eexists. f_equal. f_equal.
    unfold set_Parts. simpl. f_equal. rewrite map_map. apply map_ext.
    intros [p|]; [|reflexivity]. simpl.
    destruct (HasCells p) eqn:Ep; simpl; now rewrite ?Ep.
Qed.

End AllocateFinalize.

(** ** The point pass from its public entry *)

Section NamedPointPass.

Lemma collectParts_spec (st : LSDynaPartStorage) (types : list LSDYNA_TYPES) :
  length (Parts st) = Z.to_nat (NumParts st) ->
  collectParts st types = Ok (Some (partsOfTypes types (Parts st))).
Proof.
  intro Hlen. induction types as [|t types IH]; [reflexivity|].
  simpl. rewrite (partWalk_spec st t Hlen). simpl bind. now rewrite IH.
Qed.

Lemma partsOfTypes_cons (t : LSDYNA_TYPES) (types : list LSDYNA_TYPES)
  (ps : list (option vtkLSDynaPart)) :
  partsOfTypes (t :: types) ps = partsOfType t ps ++ partsOfTypes types ps.
Proof. reflexivity. Qed.

Lemma partsOfType_one (t : LSDYNA_TYPES) (p : vtkLSDynaPart) :
  partsOfType t [Some p] =
  if LSDYNA_TYPES_eqb (PartType p) t then [p] else [].
Proof. unfold partsOfType. simpl. now rewrite app_nil_r. Qed.

Lemma partsOfTypes_null (types : list LSDYNA_TYPES) :
  partsOfTypes types [None] = [].
Proof. induction types as [|t types IH]; [reflexivity|]. exact IH. Qed.

Lemma partsOfTypes_nil (types : list LSDYNA_TYPES) : partsOfTypes types [] = [].
Proof. induction types as [|t types IH]; [reflexivity|]. exact IH. Qed.

Lemma partsOfType_absent (p : vtkLSDynaPart) (types : list LSDYNA_TYPES) :
  ~ In (PartType p) types -> partsOfTypes types [Some p] = [].
Proof.
  induction types as [|t types IH]; intro Hn; [reflexivity|].
  rewrite partsOfTypes_cons, partsOfType_one.
  rewrite LSDYNA_TYPES_eqb_neq by (intro E; apply Hn; now left).
  apply IH. intro H. apply Hn. now right.
Qed.

Lemma length_partsOfTypes_one (slot : option vtkLSDynaPart)
  (types : list LSDYNA_TYPES) :
  NoDup types -> (length (partsOfTypes types [slot]) <= 1)%nat.
Proof.
  intro Hd. destruct slot as [p|]; [|rewrite partsOfTypes_null; simpl; lia].
  induction Hd as [|t types Ht _ IH]; [simpl; lia|].
  rewrite partsOfTypes_cons, partsOfType_one.
  destruct (LSDYNA_TYPES_eqb (PartType p) t) eqn:E; [|exact IH].
  apply LSDYNA_TYPES_eqb_eq in E. subst t.
  rewrite (partsOfType_absent p types Ht). simpl. lia.
Qed.

Lemma length_partsOfTypes_cons (slot : option vtkLSDynaPart)
  (ps : list (option vtkLSDynaPart)) (types : list LSDYNA_TYPES) :
  length (partsOfTypes types (slot :: ps)) =
  (length (partsOfTypes types [slot]) + length (partsOfTypes types ps))%nat.
Proof.
  induction types as [|t types IH]; [reflexivity|].
  rewrite !partsOfTypes_cons.
  change (slot :: ps) with ([slot] ++ ps) at 1.
  rewrite partsOfType_app, !length_app, IH. lia.
Qed.

(** Every part has one type: the parts collected for distinct types are
    no more than the slots. *)
Lemma length_partsOfTypes (ps : list (option vtkLSDynaPart))
  (types : list LSDYNA_TYPES) :
  NoDup types -> (length (partsOfTypes types ps) <= length ps)%nat.
Proof.
  intro Hd. induction ps as [|slot ps IH].
  - rewrite partsOfTypes_nil. simpl. lia.
  - rewrite length_partsOfTypes_cons. simpl.
    pose proof (length_partsOfTypes_one slot types Hd). lia.
Qed.

Lemma NoDup_validCellTypes : NoDup validCellTypes.
Proof.
  unfold validCellTypes.
  repeat (constructor; [simpl; intuition discriminate|]). constructor.
Qed.

Lemma ReadPointProperty_named_spec (c : vtkLSDynaPartCollection)
  (numTuples numComps : vtkIdType) (name : String.string)
  (isProperty isGeometryPoints isRoadPoints : bool) :
  length (Parts (Storage c)) = Z.to_nat (NumParts (Storage c)) ->
  0 <= NumParts (Storage c) ->
  isProperty || isGeometryPoints || isRoadPoints = true ->
  let validParts :=
    partsOfTypes (if isRoadPoints then [ROAD_SURFACE] else validCellTypes)
                 (Parts (Storage c)) in
  ReadPointProperty_named c numTuples numComps name isProperty
                          isGeometryPoints isRoadPoints =
  (r <- ReadPointProperty c numTuples numComps validParts ;;
   Ok (Some (fst r,
             map (fun p => (p, AddPointProperty name numComps isProperty
                                                isGeometryPoints)) validParts,
             snd r))).
Proof.
  intros Hlen Hn Hreq validParts. unfold ReadPointProperty_named.
  replace (negb isProperty && negb isGeometryPoints && negb isRoadPoints)
    with false
    by (destruct isProperty, isGeometryPoints, isRoadPoints;
        simpl in *; congruence).
  rewrite (collectParts_spec _ _ Hlen). simpl bind.
  replace (if negb isRoadPoints then validCellTypes else [ROAD_SURFACE])
    with (if isRoadPoints then [ROAD_SURFACE] else validCellTypes)
    by now destruct isRoadPoints.
  fold validParts.
  assert (Hfit : (length validParts <= length (Parts (Storage c)))%nat).
  { apply length_partsOfTypes. destruct isRoadPoints.
    - repeat constructor. simpl. tauto.
    - apply NoDup_validCellTypes. }
  replace (Z.of_nat (length validParts) >? NumParts (Storage c)) with false
    by (symmetry; rewrite Z.gtb_ltb; apply Z.ltb_ge; lia).
  now destruct (GetWordSize (Fam (MetaData c)) =? 8).
Qed.

(** X16.  A requested point array: the public [ReadPointProperty] gathers
    the parts of the directory of the types PARTICLE, BEAM, SHELL,
    THICK_SHELL and SOLID, in that order of types and in slot order within
    a type (for road points, the ROAD_SURFACE parts), never more than
    [validParts] has room for; each gets [AddPointProperty] once, and the
    pass is run on exactly these parts. *)
Theorem ReadPointProperty_named_requested (c : vtkLSDynaPartCollection)
  (numTuples numComps : vtkIdType) (name : String.string)
  (isProperty isGeometryPoints isRoadPoints : bool) :
  length (Parts (Storage c)) = Z.to_nat (NumParts (Storage c)) ->
  0 <= NumParts (Storage c) ->
  isProperty || isGeometryPoints || isRoadPoints = true ->
  let validParts :=
    partsOfTypes (if isRoadPoints then [ROAD_SURFACE] else validCellTypes)
                 (Parts (Storage c)) in
  ReadPointProperty_named c numTuples numComps name isProperty
                          isGeometryPoints isRoadPoints =
  (r <- ReadPointProperty c numTuples numComps validParts ;;
   Ok (Some (fst r,
             map (fun p => (p, AddPointProperty name numComps isProperty
                                                isGeometryPoints)) validParts,
             snd r))).
Proof.
  exact (ReadPointProperty_named_spec c numTuples numComps name isProperty
           isGeometryPoints isRoadPoints).
Qed.

Lemma partsOfTypes_none (types : list LSDYNA_TYPES)
  (ps : list (option vtkLSDynaPart)) :
  (forall p, In (Some p) ps -> ~ In (PartType p) types) ->
  partsOfTypes types ps = [].
Proof.
  intro Hn. apply length_zero_iff_nil.
  induction ps as [|slot ps IH]; [now rewrite partsOfTypes_nil|].
  rewrite length_partsOfTypes_cons, IH by (intros p Hp; apply Hn; now right).
  destruct slot as [p|].
  - rewrite partsOfType_absent; [reflexivity|]. apply Hn. now left.
  - now rewrite partsOfTypes_null.
Qed.

(** X17.  The two ends of the public [ReadPointProperty]: an array nobody
    asked for is skipped, the file moving [numTuples * numComps] words and
    no part being touched; an array that was asked for while the
    directory holds no part of the types it applies to makes the pass take
    [front()] of an empty list. *)
Theorem ReadPointProperty_named_edges (c : vtkLSDynaPartCollection)
  (numTuples numComps : vtkIdType) (name : String.string)
  (isProperty isGeometryPoints isRoadPoints : bool) :
  length (Parts (Storage c)) = Z.to_nat (NumParts (Storage c)) ->
  0 <= NumParts (Storage c) ->
  (isProperty || isGeometryPoints || isRoadPoints = false ->
   ReadPointProperty_named c numTuples numComps name isProperty
                           isGeometryPoints isRoadPoints =
   Ok (Some (set_Fam c (SkipWords (Fam (MetaData c)) (numTuples * numComps)),
             [], []))) /\
  (isProperty || isGeometryPoints || isRoadPoints = true ->
   (forall p, In (Some p) (Parts (Storage c)) ->
              ~ In (PartType p)
                   (if isRoadPoints then [ROAD_SURFACE] else validCellTypes)) ->
   ReadPointProperty_named c numTuples numComps name isProperty
                           isGeometryPoints isRoadPoints = OutOfBounds).
Proof.
  intros Hlen Hn. split.
  - intro Hno. unfold ReadPointProperty_named.
    destruct isProperty, isGeometryPoints, isRoadPoints; simpl in *;
      congruence.
  - intros Hreq Hnone.
    pose proof (ReadPointProperty_named_spec c numTuples numComps name
                  isProperty isGeometryPoints isRoadPoints Hlen Hn Hreq) as E.
    cbv zeta in E. rewrite E, (partsOfTypes_none _ _ Hnone). reflexivity.
Qed.

End NamedPointPass.

(** ** User ids, cell by cell *)

Section UserIds.

Variable buffer : Z -> Z.
Variables s n : Z.
Variable owner : Z -> option vtkLSDynaPart.

(** The user id at place [k] of the buffer reaching the owner of cell
    [s + k]. *)
Let toOwner (k : nat) : list PartEvent :=
  call_on (owner (s + Z.of_nat k)) (SetNextCellUserIds (buffer (Z.of_nat k))).

Lemma idCallsOnly_app (e1 e2 : list PartEvent) :
  idCallsOnly (e1 ++ e2) = idCallsOnly e1 ++ idCallsOnly e2.
Proof. apply filter_app. Qed.

Lemma sumOverlap_nonneg (blocks : list PartInfo) : 0 <= sumOverlap blocks s n.
Proof.
  induction blocks as [|b rest IH]; [easy|].
  unfold sumOverlap, Zsum in *. simpl. unfold overlap at 1. lia.
Qed.

(** The calls of one block of the window. *)
Lemma block_ids (b : PartInfo) (loc : Z) :
  0 <= loc ->
  (forall i, 0 <= i < overlap b s n -> owner (s + loc + i) = part b) ->
  idCallsOnly
    match part b with
    | Some p =>
        (p, EnableCellUserIds)
        :: map (fun call => (p, call))
               (SetNextCellUserIds_loop buffer loc (overlap b s n))
    | None => []
    end
  = flat_map toOwner (seq (Z.to_nat loc) (Z.to_nat (overlap b s n))).
Proof.
  intros Hloc Hown.
  assert (Hgen : forall m (base : nat),
    (forall i, (base <= i < base + m)%nat ->
               owner (s + loc + Z.of_nat i) = part b) ->
    idCallsOnly
      match part b with
      | Some p =>
          map (fun call => (p, call))
              (map (fun i => SetNextCellUserIds (buffer (loc + Z.of_nat i)))
                   (seq base m))
      | None => []
      end
    = flat_map toOwner (seq (Z.to_nat loc + base) m)).
  { induction m as [|m IH]; intros base Ho.
    - simpl. now destruct (part b).
    - simpl seq. simpl flat_map.
      replace (S (Z.to_nat loc + base)) with (Z.to_nat loc + S base)%nat by lia.
      rewrite <- (IH (S base)) by (intros i Hi; apply Ho; lia).
      unfold toOwner.
      replace (s + Z.of_nat (Z.to_nat loc + base)) with (s + loc + Z.of_nat base)
        by lia.
      rewrite Ho by lia.
      replace (Z.of_nat (Z.to_nat loc + base)) with (loc + Z.of_nat base) by lia.
      destruct (part b); reflexivity. }
  specialize (Hgen (Z.to_nat (overlap b s n)) 0%nat).
  rewrite Nat.add_0_r in Hgen. rewrite <- Hgen.
  - unfold SetNextCellUserIds_loop. now destruct (part b).
  - intros i Hi. apply Hown. lia.
Qed.

Lemma FillCellUserIdArray_loop_ids (range : list PartInfo) : forall g,
  contiguous g range -> 0 <= g -> 0 <= s ->
  (forall b rest, range = b :: rest -> s <= startId b + numCells b) ->
  Forall (fun b => forall x, startId b <= x < startId b + numCells b ->
                             owner x = part b) range ->
  exists evs loc' range',
    FillCellUserIdArray_loop buffer range s n (windowBefore g s n)
      = (evs, loc', range') /\
    idCallsOnly evs =
      flat_map toOwner (seq (Z.to_nat (windowBefore g s n))
                            (Z.to_nat (sumOverlap range s n))).
Proof.
  induction range as [|a rest IH]; intros g Hc Hg Hs Hhead Hown.
  - exists [], (windowBefore g s n), []. now split.
  - pose proof Hc as (Hst & Hp & Hr). specialize (Hhead a rest eq_refl).
    inversion Hown as [|? ? Ha Hrest]; subst.
    simpl FillCellUserIdArray_loop.
    destruct (Z.min (startId a + numCells a) (s + n) <? Z.max (startId a) s)
      eqn:E.
    + apply Z.ltb_lt in E. eexists. eexists. eexists. split; [reflexivity|].
      assert (Hz : sumOverlap (a :: rest) s n = 0).
      { apply sumOverlap_zero. constructor; [unfold overlap; lia|].
        apply contiguous_Forall in Hr.
        eapply Forall_impl; [|exact Hr]. simpl. intros b Hb.
        unfold overlap. lia. }
      rewrite Hz. reflexivity.
    + apply Z.ltb_ge in E.
      assert (Hov : Z.min (startId a + numCells a) (s + n) - Z.max (startId a) s
                    = overlap a s n) by (unfold overlap; lia).
      assert (Hnext : windowBefore (startId a + numCells a) s n
                      = windowBefore (startId a) s n + overlap a s n).
      { unfold windowBefore, overlap. lia. }
      destruct (IH (startId a + numCells a) Hr) as (evs & loc' & rng & Hloop & Hids);
        [lia|exact Hs| |exact Hrest|].
      { intros b r ->. destruct Hr as (Hb & Hpb & _). lia. }
      rewrite Hov, <- Hnext, Hloop.
      eexists. eexists. eexists. split; [reflexivity|].
      rewrite idCallsOnly_app, Hids, block_ids.
      * pose proof (sumOverlap_nonneg rest).
        assert (Ho : 0 <= overlap a s n) by (unfold overlap; lia).
        assert (Hw : 0 <= windowBefore (startId a) s n)
          by (unfold windowBefore; lia).
        change (sumOverlap (a :: rest) s n)
          with (overlap a s n + sumOverlap rest s n).
        rewrite Hnext, !Z2Nat.inj_add, seq_app, flat_map_app by lia.
        reflexivity.
      * unfold windowBefore. lia.
      * intros i Hi. apply Ha. unfold windowBefore, overlap in *. lia.
Qed.

End UserIds.

Section UserIdPass.

Lemma contiguous_startId (blocks : list PartInfo) : forall g i b,
  contiguous g blocks -> nth_error blocks i = Some b ->
  startId b = g + sumCells (firstn i blocks).
Proof.
  induction blocks as [|a rest IH]; intros g i b Hc Hn; [now destruct i|].
  destruct Hc as (Hs & Hp & Hr). destruct i as [|i].
  - injection Hn as <-. change (sumCells (firstn 0 (a :: rest))) with 0. lia.
  - change (firstn (S i) (a :: rest)) with (a :: firstn i rest).
    rewrite sumCells_cons, (IH _ _ _ Hr Hn). lia.
Qed.

Lemma ownerAt_block (blocks : list PartInfo) (b : PartInfo) (x : Z) :
  contiguous 0 blocks -> In b blocks ->
  startId b <= x < startId b + numCells b ->
  ownerAt blocks x = part b.
Proof.
  intros Hc Hin Hx. apply In_nth_error in Hin as [i Hi].
  pose proof (contiguous_startId _ _ _ _ Hc Hi) as Hs. simpl in Hs.
  pose proof (contiguous_positive _ _ Hc) as Hpos.
  assert (H0 : 0 <= sumCells (firstn i blocks)).
  { apply sumCells_nonneg. now apply positive_firstn. }
  unfold ownerAt.
  replace (x <? 0) with false by (symmetry; apply Z.ltb_ge; lia).
  replace x with (sumCells (firstn i blocks) + (x - startId b)) by lia.
  rewrite (owners_nth blocks i b (x - startId b) Hpos Hi); [reflexivity|lia].
Qed.

Lemma flat_map_seq_shift {B : Type} (f : nat -> list B) (a : nat) : forall m b,
  flat_map (fun k => f (a + k)%nat) (seq b m) = flat_map f (seq (a + b) m).
Proof.
  induction m as [|m IH]; intro b; [reflexivity|].
  simpl. rewrite IH. now replace (a + S b)%nat with (S (a + b)) by lia.
Qed.

(** One chunk, on a contiguous index that covers its window, when the
    [int] of [InitCellIteration] does not wrap. *)
Lemma FillCellUserIdArray_ids_contiguous (c : vtkLSDynaPartCollection)
  (buffer : Z -> Z) (t : LSDYNA_TYPES) (s n : Z) :
  contiguous 0 (Info (Storage c) t) -> intBlocks (Info (Storage c) t) ->
  0 <= s <= INT_MAX -> 0 <= n -> s + n <= sumCells (Info (Storage c) t) ->
  idCallsOnly (snd (FillCellUserIdArray c buffer t s n)) =
    idsToOwners (Info (Storage c) t) (fun g => buffer (g - s)) s (Z.to_nat n) /\
  Info (Storage (fst (FillCellUserIdArray c buffer t s n))) = Info (Storage c).
Proof.
  intros Hc Hint [Hs Hmax] Hn Hcov.
  assert (Hfit : fitsInt s) by (unfold fitsInt, INT_MIN, INT_MAX in *; lia).
  destruct (InitCellIteration_loop_spec s _ 0 Hc Hint)
    as (skipped & Heq & Hsk & Hcont & Hhead); [lia|].
  rewrite Z.sub_0_r in *. simpl in Hcont.
  set (range := InitCellIteration_loop (Info (Storage c) t) s) in *.
  assert (Hskz : Forall (fun b => overlap b s n = 0) skipped).
  { eapply Forall_impl; [|exact Hsk]. simpl. intros b Hb. unfold overlap. lia. }
  assert (Hcs : contiguous 0 skipped).
  { rewrite Heq in Hc. now apply contiguous_app in Hc. }
  assert (Hg : 0 <= sumCells skipped).
  { apply sumCells_nonneg. now apply contiguous_positive with 0. }
  assert (Hw0 : windowBefore 0 s n = 0) by (unfold windowBefore; lia).
  assert (Hwsk : windowBefore (sumCells skipped) s n = 0).
  { pose proof (windowBefore_contiguous s n skipped 0 Hcs) as Hw.
    simpl in Hw. rewrite Hw, Hw0, (sumOverlap_zero s n skipped Hskz); lia. }
  assert (Hown : Forall (fun b => forall x,
                    startId b <= x < startId b + numCells b ->
                    ownerAt (Info (Storage c) t) x = part b) range).
  { apply Forall_forall. intros b Hb x Hx. apply ownerAt_block; auto.
    rewrite Heq. apply in_or_app. now right. }
  destruct (FillCellUserIdArray_loop_ids buffer s n (ownerAt (Info (Storage c) t))
              range (sumCells skipped) Hcont Hg Hs Hhead Hown)
    as (evs & loc' & range' & Hloop & Hids).
  rewrite Hwsk in Hloop, Hids.
  assert (Htot : sumOverlap range s n = n).
  { pose proof (windowBefore_contiguous s n _ 0 Hc) as Hw. simpl in Hw.
    rewrite Hw0 in Hw. rewrite Heq in Hw at 2.
    rewrite sumOverlap_app, (sumOverlap_zero s n skipped Hskz) in Hw.
    unfold windowBefore in Hw. lia. }
  unfold FillCellUserIdArray. rewrite (to_int_fits s Hfit). simpl.
  fold range. rewrite Hloop. simpl.
  split; [|reflexivity].
  rewrite Hids, Htot. unfold idsToOwners.
  rewrite <- (Nat.add_0_r (Z.to_nat s)), <- flat_map_seq_shift.
  change (Z.to_nat 0) with 0%nat.
  apply flat_map_ext. intro k.
  replace (Z.of_nat (Z.to_nat s + k)) with (s + Z.of_nat k) by lia.
  do 3 f_equal. lia.
Qed.

(** X18.  One chunk of user ids: on a registered index that covers the
    window and has no block of more cells than an [int] holds, for a
    window whose start an [int] holds, [FillCellUserIdArray] hands the id
    at place [g - startId] of
    the buffer to the part that owns global cell [g], for every cell [g]
    of the window in order; the ids of cells whose material has no part
    are passed over. *)
Theorem FillCellUserIdArray_ids (calls : list CellReg) (st0 : LSDynaPartStorage)
  (c : vtkLSDynaPartCollection) (buffer : Z -> Z) (t : LSDYNA_TYPES) (s n : Z) :
  unregistered st0 -> RegisterCells st0 calls = Ok (Storage c) ->
  intBlocks (Info (Storage c) t) ->
  0 <= s <= INT_MAX -> 0 <= n -> s + n <= sumCells (Info (Storage c) t) ->
  idCallsOnly (snd (FillCellUserIdArray c buffer t s n)) =
    idsToOwners (Info (Storage c) t) (fun g => buffer (g - s)) s (Z.to_nat n).
Proof.
  intros H0 H Hint Hs Hn Hcov.
  apply FillCellUserIdArray_ids_contiguous; auto.
  now apply RegisterCells_contiguous with calls st0.
Qed.

End UserIdPass.

Section UserIdWholePass.

Lemma Zsum_nonneg (l : list Z) : Forall (fun x => 0 <= x) l -> 0 <= Zsum l.
Proof. induction 1 as [|x l Hx _ IH]; unfold Zsum in *; simpl; lia. Qed.

Lemma idsToOwners_app blocks word (first : Z) (m1 m2 : nat) :
  0 <= first ->
  idsToOwners blocks word first (m1 + m2) =
  idsToOwners blocks word first m1
  ++ idsToOwners blocks word (first + Z.of_nat m1) m2.
Proof.
  intro Hf. unfold idsToOwners. rewrite seq_app, flat_map_app.
  now replace (Z.to_nat (first + Z.of_nat m1)) with (Z.to_nat first + m1)%nat
    by lia.
Qed.

Lemma idsToOwners_ext blocks (w1 w2 : Z -> Z) first m :
  (forall g, w1 g = w2 g) ->
  idsToOwners blocks w1 first m = idsToOwners blocks w2 first m.
Proof.
  intro H. unfold idsToOwners. apply flat_map_ext. intro k. now rewrite H.
Qed.

(** The chunk loop: the words of the file go, cell after cell, to the
    owners of the cells. *)
Lemma ReadCellUserIds_loop_ids (t : LSDYNA_TYPES) (pending : list vtkIdType) :
  forall c s0,
  PendingChunks (Fam (MetaData c)) = pending ->
  Forall (fun x => 0 <= x) pending ->
  contiguous 0 (Info (Storage c) t) -> intBlocks (Info (Storage c) t) ->
  0 <= s0 -> s0 + Zsum pending <= sumCells (Info (Storage c) t) ->
  s0 + Zsum pending <= INT_MAX ->
  idCallsOnly (snd (ReadCellUserIds_loop (length pending) c t s0)) =
    idsToOwners (Info (Storage c) t)
      (fun g => FileWords (Fam (MetaData c))
                          (FamWord (Fam (MetaData c)) + (g - s0)))
      s0 (Z.to_nat (Zsum pending)).
Proof.
  induction pending as [|x pending IH]; intros c s0 Hp Hnn Hc Hint Hs Hcov Hmax;
    [reflexivity|].
  inversion Hnn as [|? ? Hx Hrest]; subst.
  pose proof (Zsum_nonneg pending Hrest) as Hsum.
  change (Zsum (x :: pending)) with (x + Zsum pending) in *.
  simpl ReadCellUserIds_loop. unfold GetNextChunk. rewrite Hp.
  unfold FillCellUserId.
  set (f' := {| FamWord := FamWord (Fam (MetaData c)) + x;
                GetWordSize := GetWordSize (Fam (MetaData c));
                FileWords := FileWords (Fam (MetaData c));
                Chunking := Chunking (Fam (MetaData c));
                PendingChunks := pending;
                FamBuffer := fun i => FileWords (Fam (MetaData c))
                                        (FamWord (Fam (MetaData c)) + i) |}).
  destruct (FillCellUserIdArray_ids_contiguous (set_Fam c f') (FamBuffer f')
              t s0 x) as [Hids HI]; simpl Storage; auto; [lia|lia|].
  pose proof (FillCellUserIdArray_MetaData (set_Fam c f') (FamBuffer f') t s0 x)
    as HM.
  destruct (FillCellUserIdArray (set_Fam c f') (FamBuffer f') t s0 x)
    as [c1 ev] eqn:E1.
  simpl in Hids, HI, HM.
  specialize (IH c1 (s0 + x)).
  rewrite HI, HM in IH. simpl in IH.
  specialize (IH eq_refl Hrest Hc Hint).
  destruct (ReadCellUserIds_loop (length pending) c1 t (s0 + x)) as [c2 evs].
  simpl in IH |- *.
  rewrite idCallsOnly_app, Hids, IH by lia.
  rewrite Z2Nat.inj_add, idsToOwners_app by lia.
  rewrite Z2Nat.id by lia.
  f_equal. apply idsToOwners_ext. intro g. f_equal. lia.
Qed.

(** X19.  The whole user-id pass: when the type is read, the index covers
    the cells asked for, the number of cells asked for and the cell count
    of every block are such as an [int] holds, and the family delivers
    the cells in chunks of any sizes, [ReadCellUserIds] hands the word of the file at place
    [numCellsToSkipStart + g] after the starting position to the part that
    owns global cell [g], for every cell in order, whatever the chunking;
    cells of a material without part are passed over. *)
Theorem ReadCellUserIds_ids (calls : list CellReg) (st0 : LSDynaPartStorage)
  (c : vtkLSDynaPartCollection) (t : LSDYNA_TYPES) (status : Z) :
  let numberOfCells := fst (fst (GetPartReadInfo c t)) in
  let numCellsToSkipStart := snd (fst (GetPartReadInfo c t)) in
  let chunks := Chunking (Fam (MetaData c)) numberOfCells in
  unregistered st0 -> RegisterCells st0 calls = Ok (Storage c) ->
  status <> 0 ->
  Forall (fun x => 0 <= x) chunks -> Zsum chunks = numberOfCells ->
  numberOfCells <= sumCells (Info (Storage c) t) ->
  numberOfCells <= INT_MAX -> intBlocks (Info (Storage c) t) ->
  idCallsOnly (snd (ReadCellUserIds c t status)) =
    idsToOwners (Info (Storage c) t)
      (fun g => FileWords (Fam (MetaData c))
                  (FamWord (Fam (MetaData c)) + numCellsToSkipStart + g))
      0 (Z.to_nat numberOfCells).
Proof.
  cbv zeta. intros H0 H Hst Hnn Hsum Hcov Hmax Hint.
  pose proof (RegisterCells_contiguous calls st0 (Storage c) t H0 H) as Hc.
  unfold ReadCellUserIds.
  destruct (GetPartReadInfo c t) as [[n0 s1] e0] eqn:EG.
  cbn [fst snd] in *.
  set (chunks := Chunking (Fam (MetaData c)) n0) in *.
  replace (status =? 0) with false by (symmetry; now apply Z.eqb_neq).
  simpl.
  set (c1 := set_Fam _ _).
  assert (Hloop : 0 < n0 ->
    idCallsOnly (snd (ReadCellUserIds_loop
                        (Z.to_nat (Z.of_nat (length chunks))) c1 t 0)) =
    idsToOwners (Info (Storage c) t)
      (fun g => FileWords (Fam (MetaData c))
                  (FamWord (Fam (MetaData c)) + s1 + g))
      0 (Z.to_nat n0)).
  { intro Hn. rewrite Nat2Z.id.
    rewrite (ReadCellUserIds_loop_ids t chunks c1 0 eq_refl Hnn Hc Hint)
      by (try lia; subst c1; simpl; lia).
    rewrite Hsum. subst c1. simpl. apply idsToOwners_ext. intro g.
    f_equal. lia. }
  fold chunks.
  destruct (0 <? n0) eqn:En.
  - apply Z.ltb_lt in En. specialize (Hloop En).
    destruct (GetWordSize (Fam (MetaData c)) =? 8); simpl;
      destruct (ReadCellUserIds_loop _ c1 t 0) as [c2 evs];
      simpl in *; exact Hloop.
  - rewrite andb_false_r. simpl.
    assert (Hz : n0 = 0).
    { unfold GetPartReadInfo in EG. apply Z.ltb_ge in En.
      destruct (MaxIds c t - MinIds c t <=? 0) eqn:E;
        injection EG as <- <- <-; [reflexivity|].
      apply Z.leb_gt in E. lia. }
    rewrite Hz. reflexivity.
Qed.

End UserIdWholePass.

(** ** When registration faults *)

Section RegistrationFaults.

Lemma array_get_inside {A : Type} (a : list A) (i : Z) :
  0 <= i < Z.of_nat (length a) -> exists x, array_get a i = Ok x.
Proof.
  intros [Hlo Hhi]. unfold array_get.
  replace (i <? 0) with false by (symmetry; apply Z.ltb_ge; lia).
  destruct (nth_error a (Z.to_nat i)) as [x|] eqn:E; [now exists x|].
  apply nth_error_None in E. lia.
Qed.

Lemma array_get_outside {A : Type} (a : list A) (i : Z) :
  i < 0 \/ Z.of_nat (length a) <= i -> array_get a i = OutOfBounds.
Proof.
  intros H. unfold array_get. destruct (i <? 0) eqn:E; [reflexivity|].
  apply Z.ltb_ge in E.
  now rewrite (proj2 (nth_error_None a (Z.to_nat i))) by lia.
Qed.

(** X20.  The one fault of [RegisterCell]: it reads the slot of the
    material only to start a new block, so on a directory of [NumParts]
    slots it leaves the slot array exactly when the material index is
    outside the directory and the cell does not continue the last block
    of its type. *)
Theorem RegisterCell_fault (st : LSDynaPartStorage) (t : LSDYNA_TYPES)
  (m npts : vtkIdType) :
  length (Parts st) = Z.to_nat (NumParts st) -> 0 <= NumParts st ->
  (RegisterCell st t m npts = OutOfBounds <->
   (m < 0 \/ NumParts st <= m) /\
   forall last, back (Info st t) = Some last -> partId last <> m).
Proof.
  intros Hlen Hn. unfold RegisterCell.
  destruct (Z_lt_ge_dec m 0) as [Hneg|Hpos];
    [|destruct (Z_lt_ge_dec m (NumParts st)) as [Hin|Hout]].
  - rewrite (array_get_outside (Parts st) m) by lia.
    destruct (back (Info st t)) as [last|]; simpl.
    + destruct (partId last =? m) eqn:E.
      * apply Z.eqb_eq in E. split; [discriminate|].
        intros [_ H]. now specialize (H last eq_refl).
      * apply Z.eqb_neq in E. split; [|reflexivity].
        intros _. split; [lia|]. now intros l [= <-].
    + split; [|reflexivity]. intros _. split; [lia|discriminate].
  - destruct (array_get_inside (Parts st) m) as [p Hp]; [lia|]. rewrite Hp.
    destruct (back (Info st t)) as [last|]; simpl;
      [destruct (partId last =? m)|]; (split; [discriminate|lia]).
  - rewrite (array_get_outside (Parts st) m) by lia.
    destruct (back (Info st t)) as [last|]; simpl.
    + destruct (partId last =? m) eqn:E.
      * apply Z.eqb_eq in E. split; [discriminate|].
        intros [_ H]. now specialize (H last eq_refl).
      * apply Z.eqb_neq in E. split; [|reflexivity].
        intros _. split; [lia|]. now intros l [= <-].
    + split; [|reflexivity]. intros _. split; [lia|discriminate].
Qed.

(** X21.  A run of registrations whose material indices all lie inside
    the directory never faults, and it leaves the directory as it was. *)
Theorem RegisterCells_inside (calls : list CellReg) (st0 : LSDynaPartStorage) :
  length (Parts st0) = Z.to_nat (NumParts st0) ->
  forallb (fun c => (0 <=? regMatId c) && (regMatId c <? NumParts st0)) calls
    = true ->
  exists st,
    RegisterCells st0 calls = Ok st /\
    Parts st = Parts st0 /\ NumParts st = NumParts st0.
Proof.
  revert st0. induction calls as [|c calls IH]; intros st0 Hlen Hall.
  - now exists st0.
  - simpl in Hall. apply andb_true_iff in Hall as [Hc Hall].
    apply andb_true_iff in Hc as [Hlo Hhi].
    apply Z.leb_le in Hlo. apply Z.ltb_lt in Hhi.
    destruct (RegisterCell st0 (regType c) (regMatId c) (regNpts c))
      as [st1|] eqn:E1.
    + destruct (RegisterCell_registered _ _ _ _ _ E1) as (_ & _ & HP & HN).
      destruct (IH st1) as (st & E & HP2 & HN2);
        [now rewrite HP, HN|now rewrite HN|].
      exists st. simpl. rewrite E1. simpl. rewrite E.
      repeat split; congruence.
    + exfalso. unfold RegisterCell in E1.
      destruct (array_get_inside (Parts st0) (regMatId c)) as [p Hp]; [lia|].
      rewrite Hp in E1.
      destruct (back (Info st0 (regType c))) as [last|];
        [destruct (partId last =? regMatId c)|]; discriminate.
Qed.

End RegistrationFaults.

(** ** Building the collection *)

Section BuildCollection.

Variable InitPart :
  LSDYNA_TYPES -> String.string -> vtkIdType -> Z -> Z -> Z -> vtkLSDynaPart.
Variable tables : LSDynaPartTables.

Lemma array_get_of_nat {A : Type} (a : list A) (k : nat) :
  array_get a (Z.of_nat k) =
  match nth_error a k with
  | Some x => Ok x
  | None => OutOfBounds
  end.
Proof.
  unfold array_get.
  replace (Z.of_nat k <? 0) with false by (symmetry; apply Z.ltb_ge; lia).
  now rewrite Nat2Z.id.
Qed.

Lemma nth_error_inside {A : Type} (a : list A) (k : nat) :
  (k < length a)%nat -> exists x, nth_error a k = Some x.
Proof.
  intro H. destruct (nth_error a k) as [x|] eqn:E; [now exists x|].
  apply nth_error_None in E. lia.
Qed.

Lemma array_set_length {A : Type} (a : list A) : forall i x a',
  array_set a i x = Ok a' -> length a' = length a.
Proof.
  induction a as [|y a IH]; intros i x a' E; [discriminate|].
  destruct i as [|i]; simpl in E.
  - now inversion E.
  - destruct (array_set a i x) as [r|] eqn:Er; [|discriminate].
    simpl in E. inversion E. simpl. f_equal. eapply IH, Er.
Qed.

Lemma slotOf_set (ps ps' : list (option vtkLSDynaPart)) (i : nat)
  (p : vtkLSDynaPart) (index : vtkIdType) :
  nth_error ps' i = Some (Some p) ->
  (forall j, j <> i -> nth_error ps' j = nth_error ps j) ->
  is_part (slotOf ps' index) = true <->
  is_part (slotOf ps index) = true \/ Z.of_nat i = index.
Proof.
  intros Hn Ho. unfold slotOf, array_get.
  destruct (index <? 0) eqn:E.
  - apply Z.ltb_lt in E. simpl. split; [discriminate|].
    intros [H|H]; [discriminate|lia].
  - apply Z.ltb_ge in E.
    destruct (Nat.eq_dec (Z.to_nat index) i) as [Heq|Hne].
    + rewrite Heq, Hn. simpl. split; [right; lia|reflexivity].
    + rewrite (Ho _ Hne). split; [now left|]. intros [H|H]; [exact H|].
      exfalso. apply Hne. lia.
Qed.

(** The loop of [BuildPartInfo] from entry [k] on: it runs to its end, and
    a slot holds a part after it when it did before or when one of the
    entries it passed is switched on and names the slot. *)
Lemma BuildPartInfo_loop_spec (wordSize : Z) :
  tablesOk tables ->
  forall n k st,
    (k + n = length (PartIds tables))%nat ->
    length (Parts st) = length (PartIds tables) ->
    exists st',
      BuildPartInfo_loop InitPart tables wordSize st (Z.of_nat k) n = Ok st' /\
      length (Parts st') = length (Parts st) /\
      NumParts st' = NumParts st /\
      Info st' = Info st /\
      CellInsertionIterators st' = CellInsertionIterators st /\
      forall index,
        is_part (slotOf (Parts st') index) = true <->
        is_part (slotOf (Parts st) index) = true \/
        exists j m, (k <= j < k + n)%nat /\ activeEntry tables j m /\
                    m - 1 = index.
Proof.
  intros (Hs & Ht & Hnm & Hm & Hact).
  induction n as [|n IH]; intros k st Hk Hlen.
  - exists st. simpl. repeat split; auto.
    intros [H|(j & m & Hj & _)]; [exact H|lia].
  - cbn [BuildPartInfo_loop].
    destruct (nth_error_inside (PartMaterials tables) k) as (m & Em); [lia|].
    destruct (nth_error_inside (PartStatus tables) k) as (s & Es); [lia|].
    rewrite !array_get_of_nat, Em, Es. cbn [bind].
    replace (Z.of_nat k + 1) with (Z.of_nat (S k)) by lia.
    destruct (s =? 0) eqn:E0.
    + apply Z.eqb_eq in E0.
      destruct (IH (S k) st) as (st' & E & Hl & Hnp & Hi & Hc & Hslots);
        [lia|exact Hlen|].
      exists st'. split; [exact E|]. repeat split; auto.
      * intro H. apply Hslots in H as [H|(j & m' & Hj & Ha & He)];
          [now left|]. right. exists j, m'. split; [lia|now split].
      * intros [H|(j & m' & Hj & Ha & He)]; apply Hslots; [now left|].
        right. exists j, m'. split; [|now split].
        destruct (Nat.eq_dec j k) as [->|Hne]; [|lia].
        destruct Ha as (_ & s' & Es' & Hs'). congruence.
    + apply Z.eqb_neq in E0.
      assert (Ha : activeEntry tables k m) by (split; [exact Em|now exists s]).
      pose proof (Hact k m Ha) as Hrange.
      destruct (nth_error_inside (PartTypes tables) k) as (ty & Ety); [lia|].
      destruct (nth_error_inside (PartNames tables) k) as (na & Ena); [lia|].
      destruct (nth_error_inside (PartIds tables) k) as (id & Eid); [lia|].
      rewrite Ety, Ena, Eid. cbn [bind].
      set (p := InitPart ty na (m - 1) id (NumberOfNodes tables) wordSize).
      unfold ConstructPart.
      replace (m - 1 <? 0) with false by (symmetry; apply Z.ltb_ge; lia).
      destruct (array_set_spec (Parts st) (Z.to_nat (m - 1)) (Some p))
        as (ps & E & Hl & Hn & Ho); [lia|].
      rewrite E. cbn [bind].
      destruct (IH (S k) (set_Parts st ps))
        as (st' & E' & Hl' & Hnp & Hi & Hc & Hslots); [lia|simpl; lia|].
      exists st'. split; [exact E'|].
      split; [simpl in Hl'; lia|]. repeat split; auto.
      * intro H. apply Hslots in H as [H|(j & m' & Hj & Ha' & He)].
        -- simpl in H. apply (slotOf_set (Parts st) ps _ p index Hn Ho) in H.
           destruct H as [H|H]; [now left|]. right. exists k, m.
           split; [lia|split; [exact Ha|lia]].
        -- right. exists j, m'. split; [lia|now split].
      * intros [H|(j & m' & Hj & Ha' & He)]; apply Hslots.
        -- left. simpl. apply (slotOf_set (Parts st) ps _ p index Hn Ho).
           now left.
        -- destruct (Nat.eq_dec j k) as [->|Hne].
           ++ left. simpl. apply (slotOf_set (Parts st) ps _ p index Hn Ho).
              right. destruct Ha' as (Em' & _). rewrite Em in Em'.
              inversion Em'. lia.
           ++ right. exists j, m'. split; [lia|now split].
Qed.

Lemma slotOf_fresh (n : nat) (index : vtkIdType) :
  is_part (slotOf (repeat None n) index) = false.
Proof.
  unfold slotOf, array_get. destruct (index <? 0); [reflexivity|].
  destruct (nth_error (repeat None n) (Z.to_nat index)) as [x|] eqn:E;
    [|reflexivity].
  apply nth_error_In, repeat_spec in E. now subst x.
Qed.

(** X22.  [InitCollection] on tables with one entry per part whose
    switched-on materials lie in [1, number of parts]: it builds a
    collection over the given metadata with one slot per part, no block
    registered and singular cursors, and a part is active at an index
    exactly when an entry of the tables is switched on and names the
    material [index + 1]. *)
Theorem InitCollection_parts (metaData : LSDynaMetaData)
  (mins maxs : option (LSDYNA_TYPES -> vtkIdType)) :
  tablesOk tables ->
  exists c,
    InitCollection InitPart metaData tables mins maxs = Ok c /\
    MetaData c = metaData /\
    NumParts (Storage c) = Z.of_nat (length (PartIds tables)) /\
    length (Parts (Storage c)) = length (PartIds tables) /\
    pristine (Storage c) /\
    forall index, index <> NumParts (Storage c) ->
      exists b, IsActivePart c index = Ok b /\
                (b = true <->
                 exists k m, activeEntry tables k m /\ m - 1 = index).
Proof.
  intro Hok. unfold InitCollection, BuildPartInfo.
  set (N := length (PartIds tables)).
  assert (Hlen0 : length (Parts (LSDynaPartStorage_new (Z.of_nat N))) = N)
    by (simpl; rewrite repeat_length; lia).
  destruct (BuildPartInfo_loop_spec (GetWordSize (Fam metaData)) Hok (length (PartMaterials tables)) 0
              (LSDynaPartStorage_new (Z.of_nat N)))
    as (st' & E & Hl & Hnp & Hi & Hc & Hslots).
  { destruct Hok as (_ & _ & _ & Hm & _). fold N in Hm. lia. }
  { exact Hlen0. }
  change (Z.of_nat 0) with 0 in E. rewrite E. cbn [bind].
  eexists. split; [reflexivity|]. cbn [MetaData Storage].
  split; [reflexivity|]. split; [exact Hnp|]. split; [lia|].
  split; [split; intro t; [now rewrite Hi|now rewrite Hc]|].
  intros index Hne. unfold IsActivePart. cbn [Storage].
  rewrite PartExists_is_part; [|rewrite Hnp; simpl; lia|rewrite Hnp; simpl; lia
                               |exact Hne].
  eexists. split; [reflexivity|]. rewrite Hslots. split.
  - intros [H|(j & m & _ & Ha & He)]; [|now exists j, m].
    simpl in H. now rewrite slotOf_fresh in H.
  - intros (k & m & Ha & He). right. exists k, m. split; [|now split].
    destruct Ha as (Em & _).
    assert (k < length (PartMaterials tables))%nat
      by (apply nth_error_Some; congruence).
    lia.
Qed.

(** X23.  [InitCollection] without windows: with null [mins] and [maxs]
    the read window of a type is the whole of its cells, so
    [GetPartReadInfo] asks to read every cell of the type and to skip
    none before or after them. *)
Theorem InitCollection_whole_file (metaData : LSDynaMetaData)
  (c : vtkLSDynaPartCollection) (t : LSDYNA_TYPES) :
  InitCollection InitPart metaData tables None None = Ok c ->
  0 < NumberOfCells metaData t ->
  GetPartReadInfo c t = (NumberOfCells metaData t, 0, 0).
Proof.
  unfold InitCollection. intros E Hpos.
  destruct (BuildPartInfo InitPart tables (GetWordSize (Fam metaData)) _)
    as [st'|]; [|discriminate].
  cbn [bind] in E. inversion E. subst c. unfold GetPartReadInfo.
  cbn [MinIds MaxIds MetaData].
  replace (NumberOfCells metaData t - 0 <=? 0) with false
    by (symmetry; apply Z.leb_gt; lia).
  now rewrite Z.sub_0_r, Z.add_0_r, Z.sub_diag.
Qed.

(** The loop of [BuildPartInfo] from entry [k] on, when one of the
    entries to come is switched on with a material that has no slot. *)
Lemma BuildPartInfo_loop_outside (wordSize : Z) :
  forall n k st,
    length (Parts st) = length (PartIds tables) ->
    (exists j m, (k <= j < k + n)%nat /\ activeEntry tables j m /\
                 (m < 1 \/ Z.of_nat (length (PartIds tables)) < m)) ->
    BuildPartInfo_loop InitPart tables wordSize st (Z.of_nat k) n
    = OutOfBounds.
Proof.
  induction n as [|n IH]; intros k st Hlen (j & m & Hj & Ha & Hout); [lia|].
  cbn [BuildPartInfo_loop]. rewrite !array_get_of_nat.
  replace (Z.of_nat k + 1) with (Z.of_nat (S k)) by lia.
  destruct (nth_error (PartMaterials tables) k) as [mk|] eqn:Em;
    [|reflexivity].
  destruct (nth_error (PartStatus tables) k) as [s|] eqn:Es; [|reflexivity].
  cbn [bind].
  destruct (Nat.eq_dec j k) as [->|Hne].
  - destruct Ha as (Em' & s' & Es' & Hs').
    rewrite Em in Em'. rewrite Es in Es'. inversion Em'. inversion Es'.
    subst mk s'. replace (s =? 0) with false
      by (symmetry; apply Z.eqb_neq; exact Hs').
    destruct (nth_error (PartTypes tables) k); [|reflexivity].
    destruct (nth_error (PartNames tables) k); [|reflexivity].
    destruct (nth_error (PartIds tables) k); [|reflexivity].
    cbn [bind]. unfold ConstructPart.
    destruct (m - 1 <? 0) eqn:E; [reflexivity|]. apply Z.ltb_ge in E.
    rewrite array_set_outside; [reflexivity|]. lia.
  - assert (Hrest : exists j m, (S k <= j < S k + n)%nat /\
                                activeEntry tables j m /\
                                (m < 1 \/ Z.of_nat (length (PartIds tables)) < m))
      by (exists j, m; split; [lia|now split]).
    destruct (s =? 0); [now apply IH|].
    destruct (nth_error (PartTypes tables) k); [|reflexivity].
    destruct (nth_error (PartNames tables) k); [|reflexivity].
    destruct (nth_error (PartIds tables) k); [|reflexivity].
    cbn [bind].
    destruct (ConstructPart st (mk - 1) _) as [st'|] eqn:Ec; [|reflexivity].
    cbn [bind]. apply IH; [|exact Hrest].
    unfold ConstructPart in Ec. destruct (mk - 1 <? 0); [discriminate|].
    destruct (array_set (Parts st) (Z.to_nat (mk - 1)) _) as [ps|] eqn:Ea;
      [|discriminate].
    cbn [bind] in Ec. inversion Ec. simpl.
    rewrite (array_set_length _ _ _ _ Ea). exact Hlen.
Qed.

(** X24.  [BuildPartInfo] does not check the materials: one entry that is
    switched on with a material below 1 or above the number of parts makes
    [ConstructPart] write outside the slot array, whatever the other
    entries are. *)
Theorem InitCollection_material_outside (metaData : LSDynaMetaData)
  (mins maxs : option (LSDYNA_TYPES -> vtkIdType)) (k : nat) (m : Z) :
  activeEntry tables k m ->
  m < 1 \/ Z.of_nat (length (PartIds tables)) < m ->
  InitCollection InitPart metaData tables mins maxs = OutOfBounds.
Proof.
  intros Ha Hout. unfold InitCollection, BuildPartInfo.
  change 0 with (Z.of_nat 0).
  rewrite BuildPartInfo_loop_outside; [reflexivity| |].
  - simpl. rewrite repeat_length. lia.
  - exists k, m. split; [|now split]. destruct Ha as (Em & _).
    assert (k < length (PartMaterials tables))%nat
      by (apply nth_error_Some; congruence).
    lia.
Qed.

End BuildCollection.
(** ** The statements on the small collection *)

Section Witnesses.

Lemma demoStorage_unregistered : unregistered demoStorage.
Proof. intro t. reflexivity. Defined.

Lemma demoRegistered_ok : RegisterCells demoStorage demoCalls = Ok demoRegistered.
Proof. vm_compute. reflexivity. Defined.

Lemma demoRegistered_intBlocks : intBlocks (Info demoRegistered SHELL).
Proof.
  unfold intBlocks.
  assert (E : Info demoRegistered SHELL =
              [mkPartInfo 10 0 40 0 (Some shell0);
               mkPartInfo 20 10 80 2 (Some shell2)])
    by (vm_compute; reflexivity).
  rewrite E. repeat (constructor; [vm_compute; discriminate|]). constructor.
Defined.

Lemma demoCollection_intBlocks : intBlocks (Info (Storage demoCollection) SHELL).
Proof. exact demoRegistered_intBlocks. Defined.

Lemma RegisterCell_step_witness :
  (exists st', RegisterCell demoRegistered SHELL 2 4 = Ok st' /\
     Info st' SHELL =
       [mkPartInfo 10 0 40 0 (Some shell0); mkPartInfo 21 10 84 2 (Some shell2)]) /\
  (exists st', RegisterCell demoRegistered SHELL 0 4 = Ok st' /\
     Info st' SHELL =
       [mkPartInfo 10 0 40 0 (Some shell0); mkPartInfo 20 10 80 2 (Some shell2);
        mkPartInfo 1 30 4 0 (Some shell0)]) /\
  (exists st', RegisterCell demoStorage BEAM 1 2 = Ok st' /\
     Info st' BEAM = [mkPartInfo 1 0 2 1 None]).
Proof.
  split; [|split].
  - apply (proj1 (RegisterCell_step demoRegistered SHELL 2 4)
             [mkPartInfo 10 0 40 0 (Some shell0)]
             (mkPartInfo 20 10 80 2 (Some shell2))); reflexivity.
  - apply (proj1 (proj2 (RegisterCell_step demoRegistered SHELL 0 4))
             [mkPartInfo 10 0 40 0 (Some shell0)]
             (mkPartInfo 20 10 80 2 (Some shell2)) (Some shell0));
      [reflexivity|discriminate|reflexivity].
  - apply (proj2 (proj2 (RegisterCell_step demoStorage BEAM 1 2)) None);
      reflexivity.
Defined.

Lemma RegisterCells_index_invariant_witness :
  sumCells (Info demoRegistered SHELL) = 30.
Proof.
  apply (RegisterCells_index_invariant demoCalls demoStorage demoRegistered SHELL
           demoStorage_unregistered demoRegistered_ok).
Defined.

Lemma GetMemorySizesForPart_counts_witness :
  GetMemorySizesForPart demoRegistered SHELL 2 = (20, 80).
Proof.
  apply (GetMemorySizesForPart_counts demoCalls demoStorage demoRegistered SHELL 2
           demoStorage_unregistered demoRegistered_ok).
Defined.



Lemma GetPartReadInfo_conserves_witness :
  FamWord (Fam (MetaData (fst (ReadCellUserIds demoCollection SHELL 1)))) = 30.
Proof.
  apply (proj2 (GetPartReadInfo_conserves demoCollection SHELL 1)).
  intros _ _. vm_compute. reflexivity.
Defined.

Lemma sortPartsOnGlobalIds_not_asymmetric_witness :
  sortPartsOnGlobalIds partA partB = true /\
  sortPartsOnGlobalIds partB partA = true.
Proof.
  apply (proj1 sortPartsOnGlobalIds_not_asymmetric partA partB); reflexivity.
Defined.

(** The [int] of [InitCellIteration] at work: with eleven cells to pass
    and a first block of 2^32 + 10 cells, the difference wraps to 1 and the
    cursor leaves the block that holds the eleventh cell. *)
Example InitCellIteration_loop_wraps :
  InitCellIteration_loop
    [mkPartInfo 4294967306 0 0 0 (Some shell0);
     mkPartInfo 5 4294967306 0 2 (Some shell2)] 11
  = [mkPartInfo 5 4294967306 0 2 (Some shell2)].
Proof. vm_compute. reflexivity. Qed.

(** The scenario of the specification: a read of ten shells from cell 5,
    two components each, is five cells of material 0 and five cells of
    material 2; the solids of the disabled material reach no part. *)
Example FillCellArray_demo :
  snd (fst (FillCellArray demoCollection SHELL 5 10 2)) =
    [(shell0, ReadCellProperties 0 5 2); (shell2, ReadCellProperties 10 5 2)].
Proof. vm_compute. reflexivity. Qed.

Example SetCellDeadFlags_demo :
  snd (fst (SetCellDeadFlags demoCollection SHELL (Some (fun _ => 0)))) =
    [(shell0, EnableDeadCells); (shell0, SetCellsDeadState 0 10);
     (shell2, EnableDeadCells); (shell2, SetCellsDeadState 10 20)] /\
  SetCellDeadFlags demoCollection SOLID (Some (fun _ => 0)) =
    (set_Storage demoCollection (set_CellIterator demoRegistered []), [], 5).
Proof. split; vm_compute; reflexivity. Qed.

Example ReadCellUserIds_demo :
  snd (ReadCellUserIds demoCollection SOLID 1) = [] /\
  length (snd (ReadCellUserIds demoCollection SHELL 1)) = 33%nat.
Proof. split; vm_compute; reflexivity. Qed.

End Witnesses.

(** ** The further statements on the small collection *)

Section FurtherWitnesses.

Lemma demoStorage_pristine : pristine demoStorage.
Proof. split; intro t; reflexivity. Defined.

Lemma demoRegistered_length :
  length (Parts demoRegistered) = Z.to_nat (NumParts demoRegistered).
Proof. vm_compute. reflexivity. Defined.

Lemma demoRegistered_NumParts : 0 <= NumParts demoRegistered.
Proof. vm_compute. discriminate. Defined.

Lemma demoCollection_ok :
  RegisterCells demoStorage demoCalls = Ok (Storage demoCollection).
Proof. vm_compute. reflexivity. Defined.

Lemma demoCollection_length :
  length (Parts (Storage demoCollection))
  = Z.to_nat (NumParts (Storage demoCollection)).
Proof. vm_compute. reflexivity. Defined.

Lemma demoCollection_NumParts : 0 <= NumParts (Storage demoCollection).
Proof. vm_compute. discriminate. Defined.

Lemma RegisterCells_run_length_witness :
  materials (Info demoRegistered SHELL) = map regMatId (callsOfType SHELL demoCalls).
Proof.
  exact (proj1 (RegisterCells_run_length demoCalls demoStorage demoRegistered
                  SHELL demoStorage_unregistered demoRegistered_ok)).
Defined.


Lemma InsertCell_one_too_many_witness :
  InsertCells (InitCellInsertion demoRegistered) SHELL
              (demoCells ++ [mkCell 9 4 [0; 1; 2; 3]]) = OutOfBounds.
Proof.
  apply (InsertCell_one_too_many demoCalls demoStorage demoRegistered SHELL
           demoCells (mkCell 9 4 [0; 1; 2; 3]) demoStorage_pristine
           demoRegistered_ok).
  vm_compute. reflexivity.
Defined.

Lemma InitCellIteration_position_witness :
  exists passed b rest,
    Info demoRegistered SHELL = passed ++ b :: rest /\
    CellIterator (InitCellIteration demoRegistered SHELL 10) = b :: rest /\
    startId b < 10 <= startId b + numCells b /\
    fst (GetNextCellPart (InitCellIteration demoRegistered SHELL 10))
      = Some (startId b, numCells b, part b).
Proof.
  refine (proj1 (proj2 (InitCellIteration_position demoCalls demoStorage
                          demoRegistered SHELL 10 demoStorage_unregistered
                          demoRegistered_ok _ demoRegistered_intBlocks)) _).
  - split; vm_compute; discriminate.
  - split; [lia|]. vm_compute. discriminate.
Defined.


Lemma PartExists_slot_witness :
  PartExists demoRegistered 1 = Ok false /\
  PartExists demoRegistered 2 = Ok true /\
  PartExists demoRegistered (-1) = Ok false.
Proof.
  split; [|split].
  - rewrite (PartExists_slot demoRegistered 1 demoRegistered_length
               demoRegistered_NumParts); vm_compute; [reflexivity|discriminate].
  - rewrite (PartExists_slot demoRegistered 2 demoRegistered_length
               demoRegistered_NumParts); vm_compute; [reflexivity|discriminate].
  - rewrite (PartExists_slot demoRegistered (-1) demoRegistered_length
               demoRegistered_NumParts); vm_compute; [reflexivity|discriminate].
Defined.

Lemma ConstructPart_then_PartExists_witness :
  (exists st', ConstructPart (LSDynaPartStorage_new 3) 1 shell0 = Ok st' /\
               PartExists st' 1 = Ok true) /\
  ConstructPart (LSDynaPartStorage_new 3) 3 shell0 = OutOfBounds.
Proof.
  destruct (ConstructPart_then_PartExists (LSDynaPartStorage_new 3) 1 shell0
              eq_refl) as [Hin _].
  destruct (ConstructPart_then_PartExists (LSDynaPartStorage_new 3) 3 shell0
              eq_refl) as [_ Hout].
  split.
  - destruct Hin as (st' & E & Ex & _); [simpl; lia|].
    exists st'. now split.
  - apply Hout. simpl. lia.
Defined.

Lemma ReadPointProperty_conserves_witness :
  exists c' evs,
    ReadPointProperty demoCollection 7000000 3 [partLow; partB] = Ok (c', evs) /\
    FamWord (Fam (MetaData c'))
      = FamWord (Fam (MetaData demoCollection)) + 7000000 * 3.
Proof.
  apply (ReadPointProperty_conserves demoCollection 7000000 3 [partLow; partB]
           partLow partB).
  - vm_compute. reflexivity.
  - vm_compute. reflexivity.
  - vm_compute. discriminate.
Defined.

Lemma sortPartsOnGlobalIds_ties_witness :
  GetMinGlobalPointId partA = GetMinGlobalPointId partA /\
  GetMaxGlobalPointId partA = GetMaxGlobalPointId partA.
Proof.
  apply (proj1 (proj2 (sortPartsOnGlobalIds_ties partA partA))).
  split; reflexivity.
Defined.

Lemma ReadPointProperty_eviction_witness :
  In partA (snd (fst (fst (ReadPointProperty_loop 2 0 demoFam
                             [partLow; partB; partA] 3 0)))).
Proof.
  pose proof (ReadPointProperty_eviction 2 0 demoFam [partLow; partB; partA] 3 0)
    as H.
  cbv zeta in H. destruct H as (gone & _ & _ & H).
  apply H; [simpl; auto|]. vm_compute. discriminate.
Defined.

Lemma demoParts_nestFree : nestFree [partLow; partB].
Proof.
  intros p q [<-|[<-|[]]] [<-|[<-|[]]]; unfold nested; simpl; lia.
Defined.

Lemma demoParts_NoDup : NoDup [partLow; partB].
Proof.
  constructor; [simpl; intros [H|[]]; discriminate|].
  constructor; [simpl; tauto|constructor].
Defined.

Lemma ReadPointProperty_exactly_once_witness :
  exists c' evs,
    ReadPointProperty demoCollection 7000000 3 [partLow; partB] = Ok (c', evs) /\
    deliveries partB 4 evs = 1%nat.
Proof.
  destruct (ReadPointProperty_exactly_once demoCollection 7000000 3
              [partLow; partB])
    as (front & bk & c' & evs & Hf & Hb & E & H);
    [discriminate|exact demoParts_NoDup|exact demoParts_nestFree|].
  vm_compute in Hf, Hb. injection Hf as <-. injection Hb as <-.
  exists c', evs. split; [exact E|].
  apply (H partB 4%nat 4194304 numPointsToRead).
  - simpl. auto.
  - vm_compute. auto 10.
  - reflexivity.
Defined.

Lemma partWalk_partsOfType_witness :
  partWalk demoRegistered SHELL = Ok (Some (partsOfType SHELL (Parts demoRegistered))).
Proof.
  exact (partWalk_partsOfType demoRegistered SHELL demoRegistered_length).
Defined.

Lemma AddProperty_calls_witness :
  AddProperty demoCollection SHELL String.EmptyString 0 6 =
    Ok (Some (map (fun p => (p, AddCellProperty String.EmptyString 0 6))
                  (partsOfType SHELL (Parts (Storage demoCollection))))).
Proof.
  exact (AddProperty_calls demoCollection SHELL String.EmptyString 0 6
           demoCollection_length).
Defined.

Lemma AllocateParts_sizes_witness :
  AllocateParts demoRegistered =
    Ok (flat_map (allocationOf demoCalls) (Parts demoRegistered)).
Proof.
  exact (AllocateParts_sizes demoCalls demoStorage demoRegistered
           demoStorage_unregistered demoRegistered_ok demoRegistered_length).
Defined.

Lemma FinalizeTopology_prunes_witness :
  exists st',
    FinalizeTopology (fun p => GetPartId p =? 0) demoRegistered =
      Ok (st', flat_map (finalCallOf (fun p => GetPartId p =? 0))
                        (Parts demoRegistered)) /\
    PartExists st' 0 = Ok true /\ PartExists st' 2 = Ok false.
Proof.
  destruct (FinalizeTopology_prunes (fun p => GetPartId p =? 0) demoRegistered
              demoRegistered_length demoRegistered_NumParts)
    as (st' & E & _ & _ & Hex & _).
  exists st'. split; [exact E|]. split.
  - rewrite Hex; vm_compute; [reflexivity|discriminate].
  - rewrite Hex; vm_compute; [reflexivity|discriminate].
Defined.

Lemma ReadPointProperty_named_requested_witness :
  ReadPointProperty_named demoCollection 200 3 String.EmptyString
                          true false false =
  (r <- ReadPointProperty demoCollection 200 3
          (partsOfTypes validCellTypes (Parts (Storage demoCollection))) ;;
   Ok (Some (fst r,
             map (fun p => (p, AddPointProperty String.EmptyString 3 true false))
                 (partsOfTypes validCellTypes (Parts (Storage demoCollection))),
             snd r))).
Proof.
  exact (ReadPointProperty_named_requested demoCollection 200 3
           String.EmptyString true false false demoCollection_length
           demoCollection_NumParts eq_refl).
Defined.

Lemma ReadPointProperty_named_edges_witness :
  ReadPointProperty_named demoCollection 200 3 String.EmptyString
                          false false false =
    Ok (Some (set_Fam demoCollection
                      (SkipWords (Fam (MetaData demoCollection)) (200 * 3)),
              [], [])) /\
  ReadPointProperty_named demoCollection 200 3 String.EmptyString
                          true false true = OutOfBounds.
Proof.
  split.
  - apply (proj1 (ReadPointProperty_named_edges demoCollection 200 3
                    String.EmptyString false false false
                    demoCollection_length demoCollection_NumParts)).
    reflexivity.
  - apply (proj2 (ReadPointProperty_named_edges demoCollection 200 3
                    String.EmptyString true false true
                    demoCollection_length demoCollection_NumParts)).
    + reflexivity.
    + intros p Hin [E|[]].
      assert (Hp : PartType p = SHELL).
      { vm_compute in Hin.
        destruct Hin as [[= <-]|[Hin|[[= <-]|[]]]];
          [reflexivity|discriminate|reflexivity]. }
      congruence.
Defined.

Lemma FillCellUserIdArray_ids_witness :
  idCallsOnly (snd (FillCellUserIdArray demoCollection (fun i => 100 + i)
                                        SHELL 5 10)) =
    idsToOwners (Info (Storage demoCollection) SHELL)
                (fun g => 100 + (g - 5)) 5 (Z.to_nat 10).
Proof.
  refine (FillCellUserIdArray_ids demoCalls demoStorage demoCollection
            (fun i => 100 + i) SHELL 5 10 demoStorage_unregistered
            demoCollection_ok demoCollection_intBlocks _ _ _); [|lia|].
  - split; vm_compute; discriminate.
  - vm_compute. discriminate.
Defined.

Lemma ReadCellUserIds_ids_witness :
  idCallsOnly (snd (ReadCellUserIds demoCollection SHELL 1)) =
    idsToOwners (Info (Storage demoCollection) SHELL)
      (fun g => FileWords (Fam (MetaData demoCollection))
                  (FamWord (Fam (MetaData demoCollection))
                   + snd (fst (GetPartReadInfo demoCollection SHELL)) + g))
      0 (Z.to_nat (fst (fst (GetPartReadInfo demoCollection SHELL)))).
Proof.
  refine (ReadCellUserIds_ids demoCalls demoStorage demoCollection SHELL 1
            demoStorage_unregistered demoCollection_ok _ _ _ _ _
            demoCollection_intBlocks).
  - discriminate.
  - vm_compute. repeat (constructor; [discriminate|]). constructor.
  - vm_compute. reflexivity.
  - vm_compute. discriminate.
  - vm_compute. discriminate.
Defined.

Lemma RegisterCell_fault_witness :
  RegisterCell demoRegistered SHELL 3 4 = OutOfBounds.
Proof.
  apply (proj2 (RegisterCell_fault demoRegistered SHELL 3 4 demoRegistered_length
                  demoRegistered_NumParts)).
  split; [right; vm_compute; discriminate|].
  intros last Hl. vm_compute in Hl. injection Hl as <-. discriminate.
Defined.

Lemma RegisterCells_inside_witness :
  exists st,
    RegisterCells demoStorage demoCalls = Ok st /\
    Parts st = Parts demoStorage /\ NumParts st = NumParts demoStorage.
Proof.
  apply (RegisterCells_inside demoCalls demoStorage); vm_compute; reflexivity.
Defined.

(** The calls of the demo, written out. *)
Example AllocateParts_demo :
  AllocateParts demoRegistered =
    Ok [(shell0, AllocateCellMemory 10 40); (shell2, AllocateCellMemory 20 80)].
Proof. vm_compute. reflexivity. Qed.

Example ReadCellUserIds_ids_demo :
  firstn 2 (idCallsOnly (snd (ReadCellUserIds demoCollection SHELL 1))) =
    [(shell0, SetNextCellUserIds 1000); (shell0, SetNextCellUserIds 1001)] /\
  nth_error (idCallsOnly (snd (ReadCellUserIds demoCollection SHELL 1))) 10 =
    Some (shell2, SetNextCellUserIds 1010).
Proof. split; vm_compute; reflexivity. Qed.

Lemma demoTables_ok : tablesOk demoTables.
Proof.
  split; [reflexivity|]. split; [reflexivity|]. split; [reflexivity|].
  split; [reflexivity|]. intros k m (Em & _).
  destruct k as [|[|[|k]]]; simpl in Em; inversion Em; simpl; try lia.
  destruct k; discriminate.
Defined.

Lemma InitCollection_parts_witness :
  exists c,
    InitCollection demoInitPart (MetaData demoCollection) demoTables None None
      = Ok c /\
    MetaData c = MetaData demoCollection /\
    NumParts (Storage c) = Z.of_nat (length (PartIds demoTables)) /\
    length (Parts (Storage c)) = length (PartIds demoTables) /\
    pristine (Storage c) /\
    forall index, index <> NumParts (Storage c) ->
      exists b, IsActivePart c index = Ok b /\
                (b = true <->
                 exists k m, activeEntry demoTables k m /\ m - 1 = index).
Proof.
  exact (InitCollection_parts demoInitPart demoTables (MetaData demoCollection)
           None None demoTables_ok).
Defined.

Lemma InitCollection_whole_file_witness :
  GetPartReadInfo
    {| MetaData := MetaData demoCollection;
       Storage := set_Parts (LSDynaPartStorage_new 3)
                    [Some (mkPart 0 SHELL 0 7); None; Some (mkPart 2 BEAM 0 7)];
       MinIds := fun _ => 0;
       MaxIds := fun i => NumberOfCells (MetaData demoCollection) i |} SHELL
  = (NumberOfCells (MetaData demoCollection) SHELL, 0, 0).
Proof.
  apply (InitCollection_whole_file demoInitPart demoTables
           (MetaData demoCollection)).
  - vm_compute. reflexivity.
  - vm_compute. reflexivity.
Defined.

Lemma InitCollection_material_outside_witness :
  InitCollection demoInitPart (MetaData demoCollection) demoTablesOutside
    None None = OutOfBounds.
Proof.
  apply (InitCollection_material_outside demoInitPart demoTablesOutside
           (MetaData demoCollection) None None 2%nat 4).
  - split; [reflexivity|]. exists 1. split; [reflexivity|discriminate].
  - right. vm_compute. reflexivity.
Defined.

(** The directory [InitCollection] builds for the small file: the first
    and the third slot hold a part, the second is left null. *)
Example InitCollection_demo :
  exists c,
    InitCollection demoInitPart (MetaData demoCollection) demoTables None None
      = Ok c /\
    map is_part (Parts (Storage c)) = [true; false; true].
Proof. eexists. split; vm_compute; reflexivity. Qed.

End FurtherWitnesses.
